(** * Hierarchical flight planner: schedule search, path reconstruction,
      interpolation and area endpoint selection

    Shallow embedding of
    [src/FlightPlanner/HierarchicalPlanner/HierarchicalPlanner.cpp].

    [qreal] is modelled by the canonical rationals [Qc]: arithmetic is exact
    and [=] is numerical equality, which is what [QSet<QVectorND>],
    [QHash<QVectorND, _>] and [state == endState] need.  Hash tables are
    [gmap]s, the closed set is a [gset], the [QMultiMap] work list is a key
    ordered association list. *)

From Stdlib Require Import QArith Qcanon Qround Qabs Qcabs Lqa.
From stdpp Require Import gmap list numbers list_numbers strings.

Local Open Scope Qc_scope.
Local Open Scope list_scope.

Abbreviation qreal := Qc (only parsing).

(** ** Tuning constants (file scope of HierarchicalPlanner.cpp) *)

Definition EVERY_X_METERS : qreal := Qc_of_Z 30.
Definition AIRSPEED : qreal := Qc_of_Z 14.
Definition TIMESLICE : qreal := Qc_of_Z 15.

(** [qMin<qreal>(a, b)] of QtGlobal: [(a < b) ? a : b]. *)
Definition qMin (a b : qreal) : qreal := if decide (a < b) then a else b.

(** [qMax<qreal>(a, b)] of QtGlobal: [(a < b) ? b : a]. *)
Definition qMax (a b : qreal) : qreal := if decide (a < b) then b else a.

(** Conversion of a [qreal] to [int]: C++ truncates toward zero. *)
Definition qreal_to_int (x : qreal) : Z :=
  if decide (0 ≤ x) then Qfloor x else Qceiling x.

(** Conversion of an [int] to [qreal]. *)
Definition int_to_qreal (n : nat) : qreal := Qc_of_Z (Z.of_nat n).

(** ** QVectorND

    [QVectorND.h] is not among the sources.  The planner uses the
    constructor from a dimension, the constructor from a [QList<qreal>],
    [dimension()], [operator[]]/[val()], [operator-], [manhattanDistance()]
    and [operator==]. *)

(** Modelled from the spec: the missing class [QVectorND], a progress
    state, is a vector of N reals, one per task; [QVectorND(QList<qreal>)]
    is the list itself and [operator==] is equality of lists. *)
Abbreviation QVectorND := (list Qc) (only parsing).

Module QVectorND.

(** Modelled from the spec: the missing [QVectorND(int)], the origin, all
    zeros. *)
Definition zeros (n : nat) : QVectorND := replicate n 0.

(** Modelled from the spec: the missing [dimension()], the number N of
    coordinates. *)
Definition dimension (v : QVectorND) : nat := length v.

(** Modelled from the spec: the missing [operator[]] (read) and [val()],
    coordinate [i]; the index is in range at every use the planner makes of
    it, the default only makes the function total. *)
Definition val (v : QVectorND) (i : nat) : qreal := default 0 (v !! i).

(** Modelled from the spec: the missing [operator[]] (write), [v[i] = x]. *)
Definition set (v : QVectorND) (i : nat) (x : qreal) : QVectorND := <[i := x]> v.

(** Modelled from the spec: the missing [operator-], coordinate by
    coordinate. *)
Definition minus (a b : QVectorND) : QVectorND := zip_with Qcminus a b.

(** Modelled from the spec: the missing [manhattanDistance()], the sum of
    the absolute values of the coordinates. *)
Definition manhattanDistance (v : QVectorND) : qreal :=
  foldr (λ x acc, Qcabs x + acc) 0 v.

End QVectorND.

(** ** Positions, orientations, way sets *)

(** Modelled from the spec: the missing class [Position], a longitude and
    a latitude in degrees. *)
Record Position := mkPosition { longitude : qreal; latitude : qreal }.

(** Modelled from the spec: the missing class [UAVOrientation], a planar
    heading in radians. *)
Record UAVOrientation := mkUAVOrientation { radians : qreal }.

Global Instance Position_eq_dec : EqDecision Position.
Proof. solve_decision. Defined.

Global Instance UAVOrientation_eq_dec : EqDecision UAVOrientation.
Proof. solve_decision. Defined.

(** A way set with [count] points is taken to last
    [count * EVERY_X_METERS / AIRSPEED] seconds; the expression
    [l.length() * EVERY_X_METERS / AIRSPEED] occurs three times in
    [_buildSchedule]. *)
Definition flightTime (l : list Position) : qreal :=
  int_to_qreal (length l) * EVERY_X_METERS / AIRSPEED.

(** ** Move generation of the schedule search

    [QVectorND newState = state;
     newState[i] = qMin<qreal>(taskTimes[i], newState[i] + TIMESLICE);] *)
Definition genState (taskTimes : list qreal) (state : QVectorND) (i : nat) : QVectorND :=
  QVectorND.set state i
    (qMin (default 0 (taskTimes !! i)) (QVectorND.val state i + TIMESLICE)).

(** ** External collaborators

    None of these is defined in the planner's translation unit; the planner
    only calls them. *)

Record QVector2D := mkQVector2D { v2x : qreal; v2y : qreal }.

Record QVector3D := mkQVector3D { v3x : qreal; v3y : qreal; v3z : qreal }.

Record QPointF := mkQPointF { px : qreal; py : qreal }.

Global Instance QPointF_eq_dec : EqDecision QPointF.
Proof. solve_decision. Defined.

(** [guts/Conversions.h] *)
Class Conversions := {
  degreesLonPerMeter : qreal → qreal;
  degreesLatPerMeter : qreal → qreal;
  lla2xyz : Position → QVector3D;
}.

(** [<cmath>] and [QVector2D::normalize]. *)
Class Math := {
  cos : qreal → qreal;
  sin : qreal → qreal;
  atan2 : qreal → qreal → qreal;
  normalized : QVector2D → QVector2D;
}.

(** The [IntermediatePlanner] interface: [plan()] followed by [results()],
    for a start and an end position and pose (the obstacles are fixed for
    one planning run). *)
Class IntermediatePlanner := {
  intermediate : Position → UAVOrientation → Position → UAVOrientation → list Position;
}.

(** ** The interpolator, [_interpolatePath]

    An output pointer is [None] when null and [Some v] when it points to a
    variable that currently holds [v]. *)

Record interpolation := mkInterpolation {
  ok : bool;                               (* the return value *)
  outPosition : option Position;            (* *outPosition afterwards *)
  outOrientation : option UAVOrientation;   (* *outOrientation afterwards *)
  warned : bool;                            (* "Can't interpolate into future" logged *)
}.

Section Interpolator.
Context {conversions : Conversions} {math : Math}.

(** The body of [if (timeSoFar >= goalTime || i == path.size() - 1)]. *)
Definition interpolateSegment (lastPos pos : Position) (timeSoFar goalTime : qreal)
  : Position * UAVOrientation :=
  let intervalDistance := EVERY_X_METERS in
  let lonPerMeter := degreesLonPerMeter (latitude pos) in
  let latPerMeter := degreesLatPerMeter (latitude pos) in
  let lastTime := timeSoFar - intervalDistance / AIRSPEED in
  let ratio := (goalTime - lastTime) / (timeSoFar - lastTime) in
  let dirVecMeters :=
    normalized (mkQVector2D ((longitude pos - longitude lastPos) / lonPerMeter)
                            ((latitude pos - latitude lastPos) / latPerMeter)) in
  let distToGo := EVERY_X_METERS * ratio in
  (mkPosition (longitude lastPos + distToGo * v2x dirVecMeters * lonPerMeter)
              (latitude lastPos + distToGo * v2y dirVecMeters * latPerMeter),
   mkUAVOrientation (atan2 (v2y dirVecMeters) (v2x dirVecMeters))).

(** [for (int i = 1; i < path.size(); i++)], with [lastPos = path[i-1]] and
    [rest] the way points from [path[i]] on.  Returns the final [timeSoFar]
    and what was written to the outputs, if anything. *)
Fixpoint interpolateLoop (lastPos : Position) (rest : list Position)
    (distanceSoFar timeSoFar goalTime : qreal)
  : qreal * option (Position * UAVOrientation) :=
  match rest with
  | [] => (timeSoFar, None)
  | pos :: rest' =>
      let distanceSoFar := distanceSoFar + EVERY_X_METERS in
      let timeSoFar := distanceSoFar / AIRSPEED in
      if bool_decide (goalTime ≤ timeSoFar) || bool_decide (rest' = [])
      then (timeSoFar, Some (interpolateSegment lastPos pos timeSoFar goalTime))
      else interpolateLoop pos rest' distanceSoFar timeSoFar goalTime
  end.

Definition _interpolatePath (path : list Position) (startingOrientation : UAVOrientation)
    (goalTime : qreal) (outPos : option Position) (outOri : option UAVOrientation)
  : interpolation :=
  match outPos, outOri with
  | Some oldPos, Some oldOri =>
      if decide (goalTime < 0) then mkInterpolation false outPos outOri false
      else match path with
      | [] => mkInterpolation false outPos outOri false
      | [p0] => mkInterpolation true (Some p0) (Some startingOrientation) false
      | p0 :: rest =>
          let '(timeSoFar, written) := interpolateLoop p0 rest 0 0 goalTime in
          let warn := bool_decide (timeSoFar < goalTime) in
          match written with
          | Some (pos, ori) => mkInterpolation true (Some pos) (Some ori) warn
          | None => mkInterpolation true outPos outOri warn
          end
      end
  | _, _ => mkInterpolation false outPos outOri false
  end.

End Interpolator.

(** ** The planner's tables

    A [QSharedPointer<FlightTask>] or [QSharedPointer<FlightTaskArea>] is
    modelled by its identity, a number; a pointer that may be null is an
    [option].  [QHash::value(key)] yields a default-constructed value for
    an absent key. *)

Record planner := mkPlanner {
  _tasks : list nat;
  _tasks2areas : gmap nat nat;
  _areaStartPositions : gmap nat Position;
  _areaStartOrientations : gmap nat UAVOrientation;
  _taskSubFlights : gmap nat (list Position);
  _startTransitionSubFlights : gmap nat (list Position);
  bestFlightSoFar : list Position;
}.

Definition hashValue {V} (m : gmap nat V) (key : option nat) (dflt : V) : V :=
  default dflt (key ≫= (m !!.)).

(** [_tasks.indexOf(t)], [None] standing for -1. *)
Definition indexOf (l : list nat) (t : option nat) : option nat :=
  fst <$> list_find (λ x, t = Some x) l.

(** ** The state of the schedule search: the locals of [_buildSchedule] *)

Record search := mkSearch {
  parents : gmap QVectorND QVectorND;
  lastTasks : gmap QVectorND nat;
  transitionFlights : gmap QVectorND (list Position);
  worklist : list (qreal * QVectorND);
  closedSet : gset QVectorND;
  schedule : list QVectorND;
  (* the states reported by [qDebug() << "At:" << state], oldest first *)
  expanded : list QVectorND;
}.

(** [QMultiMap::insert]: the map is ordered by key and, among equal keys,
    the most recently inserted item comes first. *)
Fixpoint worklist_insert (k : qreal) (v : QVectorND) (w : list (qreal * QVectorND))
  : list (qreal * QVectorND) :=
  match w with
  | [] => [(k, v)]
  | (k', v') :: w' =>
      if decide (k' < k) then (k', v') :: worklist_insert k v w' else (k, v) :: w
  end.

Section Schedule.
Context {conversions : Conversions} {math : Math} {planning : IntermediatePlanner}.
(** The values of [Position()] and [UAVOrientation()]. *)
Variable Position0 : Position.
Variable UAVOrientation0 : UAVOrientation.
Variable P : planner.

Definition areaOf (t : option nat) : option nat := t ≫= (_tasks2areas P !!.).

Definition subFlightOf (t : option nat) : list Position :=
  hashValue (_taskSubFlights P) t [].

Definition startTransitionOf (a : option nat) : list Position :=
  hashValue (_startTransitionSubFlights P) a [].

Definition startOrientationOf (a : option nat) : UAVOrientation :=
  hashValue (_areaStartOrientations P) a UAVOrientation0.

(** [QList<qreal> taskTimes], filled by the first loop of [_buildSchedule]. *)
Definition taskTimes : list qreal :=
  (λ t, flightTime (subFlightOf (Some t))) <$> _tasks P.

Definition startState : QVectorND := QVectorND.zeros (length (_tasks P)).
Definition endState : QVectorND := taskTimes.

(** [_interpolatePath(path, orientation, t, &pos, &pose)] on two fresh
    locals [Position pos; UAVOrientation pose;]. *)
Definition interpolateInto (path : list Position) (o : UAVOrientation) (t : qreal)
  : Position * UAVOrientation :=
  let r := _interpolatePath path o t (Some Position0) (Some UAVOrientation0) in
  (default Position0 (outPosition r), default UAVOrientation0 (outOrientation r)).

(** [_generateTransitionFlight]: a fresh intermediate planner is made to
    plan and its results are returned. *)
Definition _generateTransitionFlight (startPos : Position) (startPose : UAVOrientation)
    (endPos : Position) (endPose : UAVOrientation) : list Position :=
  intermediate startPos startPose endPos endPose.

(** The body of [for (int i = 0; i < state.dimension(); i++)]. *)
Definition expandAxis (state : QVectorND) (st : search) (i : nat) : search :=
  let newState := genState taskTimes state i in
  if decide (newState ∈ closedSet st) then st
  else
    let closedSet1 := {[newState]} ∪ closedSet st in
    let parents1 := <[newState := state]> (parents st) in
    let lastTasks1 := <[newState := i]> (lastTasks st) in
    let cost := QVectorND.manhattanDistance (QVectorND.minus endState state) in
    let '(cost, transitionFlights1) :=
      if decide (lastTasks1 !! state = None) then
        (cost + flightTime (startTransitionOf (areaOf (_tasks P !! i))),
         transitionFlights st)
      else if decide (default 0%nat (lastTasks1 !! state) = i) then
        (cost + 0, transitionFlights st)
      else
        let prevTask := _tasks P !! default 0%nat (lastTasks1 !! state) in
        let nextTask := _tasks P !! default 0%nat (lastTasks1 !! newState) in
        let '(startPos, startPose) :=
          interpolateInto (subFlightOf prevTask) (startOrientationOf (areaOf prevTask))
            (from_option (QVectorND.val state) 0 (indexOf (_tasks P) prevTask)) in
        let '(endPos, endPose) :=
          interpolateInto (subFlightOf nextTask) (startOrientationOf (areaOf nextTask))
            (QVectorND.val state i) in
        let intermed := _generateTransitionFlight startPos startPose endPos endPose in
        (cost + flightTime intermed, <[newState := intermed]> (transitionFlights st))
    in
    mkSearch parents1 lastTasks1 transitionFlights1
      (worklist_insert cost newState (worklist st)) closedSet1
      (schedule st) (expanded st).

(** The traceback [while (true)] loop; [None] when the fuel runs out. *)
Fixpoint traceback (fuel : nat) (parents : gmap QVectorND QVectorND)
    (current : QVectorND) (schedule : list QVectorND) : option (list QVectorND) :=
  match fuel with
  | O => None
  | S fuel =>
      let schedule := current :: schedule in
      match parents !! current with
      | None => Some schedule
      | Some parent => traceback fuel parents parent schedule
      end
  end.

(** What one turn of [while (!worklist.isEmpty())] does. *)
Inductive turn :=
  | Exhausted            (* the loop condition fails *)
  | Found (st : search)  (* [break] after the traceback *)
  | Next (st : search)   (* the transitions were generated *)
  | Stuck.               (* the traceback ran out of fuel *)

Definition searchTurn (st : search) : turn :=
  match worklist st with
  | [] => Exhausted
  | (costKey, state) :: rest =>
      let st1 := mkSearch (parents st) (lastTasks st) (transitionFlights st) rest
                   ({[state]} ∪ closedSet st) (schedule st) (expanded st ++ [state]) in
      if decide (state = endState) then
        match traceback (S (size (parents st1))) (parents st1) state (schedule st1) with
        | Some sched =>
            Found (mkSearch (parents st1) (lastTasks st1) (transitionFlights st1)
                     (worklist st1) (closedSet st1) sched (expanded st1))
        | None => Stuck
        end
      else Next (foldl (expandAxis state) st1 (seq 0 (QVectorND.dimension state)))
  end.

(** The search loop, [None] when the fuel runs out. *)
Fixpoint searchLoop (fuel : nat) (st : search) : option search :=
  match fuel with
  | O => None
  | S fuel =>
      match searchTurn st with
      | Exhausted => Some st
      | Found st' => Some st'
      | Next st' => searchLoop fuel st'
      | Stuck => None
      end
  end.

Definition initialSearch : search :=
  mkSearch ∅ ∅ ∅ [(0, startState)] ∅ [] [].

(** ** Path reconstruction *)

(** [_getPathPortion]; [None] when some [path[i]] is out of range. *)
Definition _getPathPortion (path : list Position) (portionStartTime portionEndTime : qreal)
  : option (list Position) :=
  let startingIndex := qreal_to_int (portionStartTime * AIRSPEED / EVERY_X_METERS) in
  let endingIndex := qreal_to_int (portionEndTime * AIRSPEED / EVERY_X_METERS) in
  mapM (λ i : Z, if decide (0 ≤ i)%Z then path !! Z.to_nat i else None)
       (seqZ startingIndex (endingIndex - startingIndex)).

(** What one turn of [foreach(const QVectorND& interval, schedule)] appends
    to [path]. *)
Definition replayInterval (st : search) (prevInterval interval : QVectorND)
    (path : list Position) : option (list Position) :=
  let taskIndex := default 0%nat (lastTasks st !! interval) in
  let task := _tasks P !! taskIndex in
  let area := areaOf task in
  let path :=
    if decide (prevInterval = startState) then path ++ startTransitionOf area
    else if decide (default 0%nat (lastTasks st !! prevInterval) ≠ taskIndex)
         then path ++ default [] (transitionFlights st !! interval)
         else path in
  let subFlight := subFlightOf task in
  let startTime := QVectorND.val prevInterval taskIndex in
  let endTime := QVectorND.val interval taskIndex in
  portion ← _getPathPortion subFlight startTime endTime;
  Some (path ++ portion).

Fixpoint replay (st : search) (prevInterval : QVectorND) (schedule : list QVectorND)
    (path : list Position) : option (list Position) :=
  match schedule with
  | [] => Some path
  | interval :: schedule =>
      path ← replayInterval st prevInterval interval path;
      replay st interval schedule path
  end.

(** How [_buildSchedule] ends: it publishes a path through
    [setBestFlightSoFar], its only exit, or indexes a list out of range
    ([schedule[0]] on an empty schedule, [path[i]] in [_getPathPortion]),
    which [QList] leaves undefined. *)
Inductive outcome :=
  | Published (P' : planner)
  | IndexOutOfRange.

Definition setBestFlightSoFar (path : list Position) : planner :=
  mkPlanner (_tasks P) (_tasks2areas P) (_areaStartPositions P)
    (_areaStartOrientations P) (_taskSubFlights P)
    (_startTransitionSubFlights P) path.

(** The code after the search loop. *)
Definition reconstruct (st : search) : outcome :=
  match schedule st with
  | [] => IndexOutOfRange
  | prevInterval :: schedule =>
      match replay st prevInterval schedule [] with
      | Some path => Published (setBestFlightSoFar path)
      | None => IndexOutOfRange
      end
  end.

(** [_buildSchedule]; [None] when the fuel of the search loop runs out. *)
Definition _buildSchedule (fuel : nat) : option outcome :=
  reconstruct <$> searchLoop fuel initialSearch.

End Schedule.

(** ** Definitions in the words of the specification *)

(** The duration of a way set in the words of the data model: a list of
    [count] points is [(count - 1) * WAYPOINT_SPACING] metres long and
    lasts that length divided by [AIRSPEED]. *)
Definition specDuration (l : list Position) : qreal :=
  Qc_of_Z (Z.of_nat (length l) - 1) * EVERY_X_METERS / AIRSPEED.

Definition onePointPlanner : planner :=
  mkPlanner [1%nat] {[1%nat := 7%nat]} ∅ ∅ {[1%nat := [mkPosition 0 0]]} ∅ [].

(** ** Stand-ins for the collaborators *)

(** For running the model on examples: one degree per metre, no
    normalisation, a two point transition. *)
Definition flatConversions : Conversions :=
  {| degreesLonPerMeter := λ _, 1;
     degreesLatPerMeter := λ _, 1;
     lla2xyz := λ p, mkQVector3D (longitude p) (latitude p) 0 |}.

Definition plainMath : Math :=
  {| cos := λ x, x; sin := λ x, 1 - x; atan2 := λ y x, y - x; normalized := λ v, v |}.

Definition directPlanner : IntermediatePlanner :=
  {| intermediate := λ a _ b _, [a; b] |}.

Definition pt (x y : Z) : Position := mkPosition (Qc_of_Z x) (Qc_of_Z y).

(** [l[lo .. hi)] *)
Definition slice {A} (l : list A) (lo hi : nat) : list A := take (hi - lo) (drop lo l).

(** The index [floor(t * AIRSPEED / WAYPOINT_SPACING)] of the way point
    reached at time [t]. *)
Definition waypointIndex (t : qreal) : nat :=
  Z.to_nat (Qfloor (t * AIRSPEED / EVERY_X_METERS)%Qc).

Section ReconstructionSpec.
Context {conversions : Conversions} {math : Math} {planning : IntermediatePlanner}.
Variable P : planner.

(** What the reconstruction prefixes to the slice of the pair
    [(prev, cur)], in the words of the specification. *)
Definition specPrefix (st : search) (prev cur : QVectorND) (i : nat) : list Position :=
  if decide (prev = startState P) then
    startTransitionOf P (areaOf P (_tasks P !! i))
  else if decide (lastTasks st !! prev ≠ Some i) then
    default [] (transitionFlights st !! cur)
  else [].

End ReconstructionSpec.

Section SearchStates.
Context {conversions : Conversions} {math : Math} {planning : IntermediatePlanner}.
Variable Position0 : Position.
Variable UAVOrientation0 : UAVOrientation.
Variable P : planner.

Local Abbreviation expand := (expandAxis Position0 UAVOrientation0 P).
Local Abbreviation turnOf := (searchTurn Position0 UAVOrientation0 P).
Local Abbreviation T := (taskTimes P).
Local Abbreviation N := (length (_tasks P)).
Local Abbreviation start := (startState P).

(** The states seen so far: expanded, or waiting in the work list. *)
Definition seen (st : search) : list QVectorND := expanded st ++ (worklist st).*2.

(** A state reached by the search: from the initial state by turns of the
    loop. *)
Inductive reachable : search → Prop :=
  | reachable_init : reachable (initialSearch P)
  | reachable_next st st' : reachable st → turnOf st = Next st' → reachable st'.

(** The invariant that holds once the first state has been popped, also
    between two turns of the loop over the axes. *)
Record wf (st : search) : Prop := mkWf {
  wf_nodup : NoDup (seen st);
  wf_closed : ∀ s, s ∈ closedSet st ↔ s ∈ seen st;
  wf_head : head (expanded st) = Some start;
  wf_lastTasks : ∀ s, is_Some (lastTasks st !! s) ↔ s ∈ seen st ∧ s ≠ start;
  wf_parents_dom : ∀ s, is_Some (parents st !! s) ↔ s ∈ seen st ∧ s ≠ start;
  wf_parents_order : ∀ c p, parents st !! c = Some p →
    ∃ k, expanded st !! k = Some p ∧ ∀ k', expanded st !! k' = Some c → (k < k')%nat;
  wf_move : ∀ c p, parents st !! c = Some p →
    ∃ i, lastTasks st !! c = Some i ∧ (i < N)%nat ∧ c = genState T p i;
  wf_dimension : ∀ s, s ∈ seen st → length s = N;
  wf_bounds : ∀ s i x Ti, s ∈ seen st → s !! i = Some x → T !! i = Some Ti → 0 ≤ x ∧ x ≤ Ti;
}.

(** The search after [state] was taken from the work list and closed. *)
Definition popped (st : search) (state : QVectorND) (rest : list (qreal * QVectorND)) : search :=
  mkSearch (parents st) (lastTasks st) (transitionFlights st) rest
    ({[state]} ∪ closedSet st) (schedule st) (expanded st ++ [state]).

End SearchStates.

(** ** A small planning problem to run the model on

    Two tasks in two areas: a sub-flight of eight way points (two time
    slices) and one of three (one time slice). *)

Definition line (n : nat) (y : Z) : list Position :=
  (λ k, pt (Z.of_nat k) y) <$> seq 0 n.

Definition twoTaskPlanner : planner :=
  mkPlanner [1%nat; 2%nat]
    (<[1%nat := 10%nat]> (<[2%nat := 20%nat]> ∅))
    (<[10%nat := pt 0 0]> (<[20%nat := pt 0 5]> ∅))
    (<[10%nat := mkUAVOrientation 0]> (<[20%nat := mkUAVOrientation 0]> ∅))
    (<[1%nat := line 8 0]> (<[2%nat := line 3 5]> ∅))
    (<[10%nat := [pt (-1) 0]]> (<[20%nat := [pt (-1) 0; pt (-1) 5]]> ∅))
    [].

Abbreviation exampleTurn :=
  (searchTurn (conversions := flatConversions) (math := plainMath) (planning := directPlanner)
     (pt 0 0) (mkUAVOrientation 0) twoTaskPlanner).

(** The search after [n] turns of the loop that generated transitions. *)
Definition exampleSearch (n : nat) : search :=
  Nat.iter n (λ st, match exampleTurn st with Next st' => st' | _ => st end)
    (initialSearch twoTaskPlanner).

Abbreviation exampleReachable :=
  (reachable (conversions := flatConversions) (math := plainMath) (planning := directPlanner)
     (pt 0 0) (mkUAVOrientation 0) twoTaskPlanner).

(** The search after the turn that pops the goal. *)
Definition exampleFound : search :=
  match exampleTurn (exampleSearch 3) with Found st' => st' | _ => exampleSearch 3 end.

Section CostSpec.
Context {conversions : Conversions} {math : Math} {planning : IntermediatePlanner}.
Variable Position0 : Position.
Variable UAVOrientation0 : UAVOrientation.
Variable P : planner.

Local Abbreviation expand := (expandAxis Position0 UAVOrientation0 P).
Local Abbreviation interpolated := (interpolateInto Position0 UAVOrientation0).
Local Abbreviation T := (taskTimes P).
Local Abbreviation N := (length (_tasks P)).
Local Abbreviation start := (startState P).

(** The Manhattan distance from [s] to the goal: the sum over the axes of
    [|goal_k - s_k|]. *)
Definition specManhattan (goal s : QVectorND) : qreal :=
  foldr (λ k acc, Qcabs (QVectorND.val goal k - QVectorND.val s k) + acc) 0
        (seq 0 (length goal)).

(** The intermediate flight of a context switch from the last axis [j] of
    [s] to the axis [i]: from where task [j] stands at time [s_j] to where
    task [i] stands at time [s_i]. *)
Definition specTransition (st : search) (s : QVectorND) (i : nat) : option (list Position) :=
  match lastTasks st !! s with
  | None => None
  | Some j =>
      if decide (j = i) then None
      else
        let taskJ := _tasks P !! j in
        let taskI := _tasks P !! i in
        let '(posJ, poseJ) :=
          interpolated (subFlightOf P taskJ) (startOrientationOf UAVOrientation0 P (areaOf P taskJ))
            (QVectorND.val s j) in
        let '(posI, poseI) :=
          interpolated (subFlightOf P taskI) (startOrientationOf UAVOrientation0 P (areaOf P taskI))
            (QVectorND.val s i) in
        Some (_generateTransitionFlight posJ poseJ posI poseI)
  end.

Definition specSwitchPenalty (st : search) (s : QVectorND) (i : nat) : qreal :=
  match lastTasks st !! s with
  | None => flightTime (startTransitionOf P (areaOf P (_tasks P !! i)))
  | Some j =>
      match specTransition st s i with
      | None => 0
      | Some flight => flightTime flight
      end
  end.

Definition specCost (st : search) (s : QVectorND) (i : nat) : qreal :=
  specManhattan (endState P) s + specSwitchPenalty st s i.

(** The penalty and the cost in the words of the claim: the penalty is a
    duration, [(count - 1)] way point intervals. *)
Definition claimedSwitchPenalty (st : search) (s : QVectorND) (i : nat) : qreal :=
  match lastTasks st !! s with
  | None => specDuration (startTransitionOf P (areaOf P (_tasks P !! i)))
  | Some j =>
      match specTransition st s i with
      | None => 0
      | Some flight => specDuration flight
      end
  end.

Definition claimedCost (st : search) (s : QVectorND) (i : nat) : qreal :=
  specManhattan (endState P) s + claimedSwitchPenalty st s i.

End CostSpec.

(** The third turn of the example pops [(120/7, 0)], reached along axis 0;
    its move along axis 1 is a context switch. *)
Definition exampleState : QVectorND := (hd (0, []) (worklist (exampleSearch 2))).2.
Definition exampleKey : qreal := (hd (0, []) (worklist (exampleSearch 2))).1.
Definition exampleRest : list (qreal * QVectorND) := tl (worklist (exampleSearch 2)).

Abbreviation exampleExpand :=
  (expandAxis (conversions := flatConversions) (math := plainMath) (planning := directPlanner)
     (pt 0 0) (mkUAVOrientation 0) twoTaskPlanner).

Abbreviation exampleMidTurn :=
  (foldl (exampleExpand exampleState) (popped (exampleSearch 2) exampleState exampleRest)
     (seq 0 1)).

(** The same problem with task 1 listed twice, as when two areas share the
    task.  The second turn of its search pops [(0, 0, 15)], reached along
    axis 2; its move along axis 1 is a context switch away from the second
    place of task 1. *)
Definition repeatedTaskPlanner : planner :=
  mkPlanner [1%nat; 2%nat; 1%nat]
    (<[1%nat := 10%nat]> (<[2%nat := 20%nat]> ∅))
    (<[10%nat := pt 0 0]> (<[20%nat := pt 0 5]> ∅))
    (<[10%nat := mkUAVOrientation 0]> (<[20%nat := mkUAVOrientation 0]> ∅))
    (<[1%nat := line 8 0]> (<[2%nat := line 3 5]> ∅))
    (<[10%nat := [pt (-1) 0]]> (<[20%nat := [pt (-1) 0; pt (-1) 5]]> ∅))
    [].

Abbreviation repeatedTurn :=
  (searchTurn (conversions := flatConversions) (math := plainMath) (planning := directPlanner)
     (pt 0 0) (mkUAVOrientation 0) repeatedTaskPlanner).

Definition repeatedSearch (n : nat) : search :=
  Nat.iter n (λ st, match repeatedTurn st with Next st' => st' | _ => st end)
    (initialSearch repeatedTaskPlanner).

Definition repeatedState : QVectorND := (hd (0, []) (worklist (repeatedSearch 1))).2.
Definition repeatedRest : list (qreal * QVectorND) := tl (worklist (repeatedSearch 1)).

Abbreviation repeatedExpand :=
  (expandAxis (conversions := flatConversions) (math := plainMath) (planning := directPlanner)
     (pt 0 0) (mkUAVOrientation 0) repeatedTaskPlanner).

Abbreviation repeatedMidTurn :=
  (foldl (repeatedExpand repeatedState) (popped (repeatedSearch 1) repeatedState repeatedRest)
     (seq 0 1)).

Section ProgressSpec.
Context {conversions : Conversions} {math : Math} {planning : IntermediatePlanner}.
Variable Position0 : Position.
Variable UAVOrientation0 : UAVOrientation.
Variable P : planner.

Local Abbreviation expand := (expandAxis Position0 UAVOrientation0 P).
Local Abbreviation turnOf := (searchTurn Position0 UAVOrientation0 P).
Local Abbreviation reached := (reachable Position0 UAVOrientation0 P).
Local Abbreviation T := (taskTimes P).
Local Abbreviation N := (length (_tasks P)).
Local Abbreviation start := (startState P).

(** The values a coordinate can take: the multiples of [TIMESLICE] capped
    at the task's time. *)
Definition axisValues (Ti : qreal) : list qreal :=
  (λ k, qMin Ti (int_to_qreal k * TIMESLICE)) <$> seq 0 (S (Z.to_nat (Qceiling Ti))).

(** All progress states. *)
Fixpoint grid (Ts : list qreal) : list QVectorND :=
  match Ts with
  | [] => [[]]
  | Ti :: Ts => x ← axisValues Ti; (x ::.) <$> grid Ts
  end.

(** [l] is a chain of moves from [prev]: each state's parent is the state
    before it. *)
Fixpoint linked (parents : gmap QVectorND QVectorND) (prev : QVectorND)
    (l : list QVectorND) : Prop :=
  match l with
  | [] => True
  | cur :: l => parents !! cur = Some prev ∧ linked parents cur l
  end.

(** What the reconstruction appends for the pair [(prev, cur)]. *)
Definition specSegment (st : search) (prev cur : QVectorND) : list Position :=
  match lastTasks st !! cur with
  | None => []
  | Some i =>
      specPrefix P st prev cur i
      ++ slice (subFlightOf P (_tasks P !! i))
           (waypointIndex (QVectorND.val prev i)) (waypointIndex (QVectorND.val cur i))
  end.

Fixpoint specPath (st : search) (prev : QVectorND) (sched : list QVectorND)
  : list Position :=
  match sched with
  | [] => []
  | cur :: sched => specSegment st prev cur ++ specPath st cur sched
  end.

End ProgressSpec.

Definition publishedPath (o : option outcome) : option (list Position) :=
  match o with
  | Some (Published P') => Some (bestFlightSoFar P')
  | _ => None
  end.


(** ** The area endpoint selector, [_buildStartAndEndPositions] *)

Record QRectF := mkQRectF {
  rect_x : qreal; rect_y : qreal; rect_width : qreal; rect_height : qreal;
}.

(** [QRectF::center] *)
Definition QRectF_center (r : QRectF) : QPointF :=
  mkQPointF (rect_x r + rect_width r / 2) (rect_y r + rect_height r / 2).

(** [QPolygonF], as far as the selector looks at it. *)
Class Polygons := {
  QPolygonF : Type;
  boundingRect : QPolygonF → QRectF;
  (* [containsPoint(p, Qt::OddEvenFill)] *)
  containsPoint : QPolygonF → QPointF → bool;
}.

Module QPointF.

Definition plus (a b : QPointF) : QPointF := mkQPointF (px a + px b) (py a + py b).

Definition minus (a b : QPointF) : QPointF := mkQPointF (px a - px b) (py a - py b).

Definition div (a : QPointF) (c : qreal) : QPointF := mkQPointF (px a / c) (py a / c).

Definition manhattanLength (a : QPointF) : qreal := Qcabs (px a) + Qcabs (py a).

(** [QPointF()] *)
Definition null : QPointF := mkQPointF 0 0.

End QPointF.

(** Modelled from the spec: the missing [Position(const QPointF&)]; x is
    the longitude, y the latitude. *)
Definition positionOf (p : QPointF) : Position := mkPosition (px p) (py p).

(** [(a - b).lengthSquared()] on [QVector3D]. *)
Definition distanceSquared (a b : QVector3D) : qreal :=
  (v3x a - v3x b) * (v3x a - v3x b) + (v3y a - v3y b) * (v3y a - v3y b)
  + (v3z a - v3z b) * (v3z a - v3z b).

(** [std::numeric_limits<qreal>::min()]: the least positive normal double. *)
Definition qreal_min : qreal := Q2Qc (1 # (2 ^ 1022)).

Section EndpointSelector.
Context {conversions : Conversions} {math : Math} {polygons : Polygons}.
(** [area->geoPoly()] *)
Variable geoPoly : nat → QPolygonF.

(** The argument the code hands to [cos] and [sin]:
    [angleDeg * 180.0 / 3.14159265]. *)
Definition angleArgument (angleDeg : nat) : qreal :=
  int_to_qreal angleDeg * Qc_of_Z 180 / Q2Qc (314159265 # 100000000).

Definition dirVecOf (angleDeg : nat) : QVector2D :=
  mkQVector2D (cos (angleArgument angleDeg)) (sin (angleArgument angleDeg)).

(** [while (!gotPos || !gotNeg)]: [pos] and [neg] are [None] until got;
    the result is [None] when the fuel runs out. *)
Fixpoint walk (fuel : nat) (poly : QPolygonF) (centerLonLat : QPointF) (dirVec : QVector2D)
    (stepSize : qreal) (count : nat) (pos neg : option QPointF)
  : option (QPointF * QPointF) :=
  match pos, neg with
  | Some p, Some n => Some (p, n)
  | _, _ =>
      match fuel with
      | O => None
      | S fuel =>
          let trialPointPos :=
            mkQPointF (px centerLonLat + v2x dirVec * stepSize * int_to_qreal count)
                      (py centerLonLat + v2y dirVec * stepSize * int_to_qreal count) in
          let trialPointNeg :=
            mkQPointF (px centerLonLat - v2x dirVec * stepSize * int_to_qreal count)
                      (py centerLonLat - v2y dirVec * stepSize * int_to_qreal count) in
          let pos :=
            if negb (containsPoint poly trialPointPos) && negb (bool_decide (is_Some pos))
            then Some trialPointPos else pos in
          let neg :=
            if negb (containsPoint poly trialPointNeg) && negb (bool_decide (is_Some neg))
            then Some trialPointNeg else neg in
          walk fuel poly centerLonLat dirVec stepSize (S count) pos neg
      end
  end.

(** The locals [mostDistance], [bestPoint1], [bestPoint2]. *)
Record chord := mkChord {
  mostDistance : qreal; bestPoint1 : QPointF; bestPoint2 : QPointF;
}.

Global Instance chord_eq_dec : EqDecision chord.
Proof. solve_decision. Defined.

(** The body of the loop over [angleDeg]. *)
Definition scanAngle (fuel : nat) (poly : QPolygonF) (centerLonLat : QPointF)
    (best : chord) (angleDeg : nat) : option chord :=
  let rect := boundingRect poly in
  let divisions := Qc_of_Z 100 in
  let stepSize := qMax (rect_width rect / divisions) (rect_height rect / divisions) in
  '(pos, neg) ← walk fuel poly centerLonLat (dirVecOf angleDeg) stepSize 0 None None;
  let distance := distanceSquared (lla2xyz (positionOf pos)) (lla2xyz (positionOf neg)) in
  if decide (mostDistance best < distance) then Some (mkChord distance pos neg)
  else Some best.

(** [for (int angleDeg = 0; angleDeg < 179; angleDeg++)] *)
Definition scannedAngles : list nat := seq 0 179.

Definition scanChords (fuel : nat) (poly : QPolygonF) (centerLonLat : QPointF)
    (angles : list nat) : option chord :=
  foldl (λ best angleDeg, best ≫= λ best, scanAngle fuel poly centerLonLat best angleDeg)
        (Some (mkChord qreal_min QPointF.null QPointF.null)) angles.

(** What the selector carries from area to area. *)
Record selector := mkSelector {
  avgLonLat : QPointF;
  areaStartPositions : gmap nat Position;
  areaStartOrientations : gmap nat UAVOrientation;
}.

(** The body of the second [foreach] over the areas. *)
Definition placeArea (fuel : nat) (sel : selector) (area : nat) : option selector :=
  let centerLonLat := QRectF_center (boundingRect (geoPoly area)) in
  let avgLonLat := QPointF.plus (avgLonLat sel) centerLonLat in
  best ← scanChords fuel (geoPoly area) centerLonLat scannedAngles;
  let '(start, end_) :=
    if decide (QPointF.manhattanLength (QPointF.minus (bestPoint1 best) avgLonLat)
               < QPointF.manhattanLength (QPointF.minus (bestPoint2 best) avgLonLat))
    then (positionOf (bestPoint1 best), positionOf (bestPoint2 best))
    else (positionOf (bestPoint2 best), positionOf (bestPoint1 best)) in
  let angleRads := atan2 (latitude end_ - latitude start) (longitude end_ - longitude start) in
  Some (mkSelector avgLonLat (<[area := start]> (areaStartPositions sel))
          (<[area := mkUAVOrientation angleRads]> (areaStartOrientations sel))).

(** The average of the bounding rectangle centres, over [areas]: the first
    [foreach] and the division that follows it. *)
Definition averageCentre (areas : list nat) : QPointF :=
  let sum := foldl (λ acc area, QPointF.plus acc (QRectF_center (boundingRect (geoPoly area))))
                   (mkQPointF 0 0) areas in
  if decide (0 < length areas)%nat then QPointF.div sum (int_to_qreal (length areas))
  else sum.

(** [_buildStartAndEndPositions], for [areas = _tasks2areas.values()] in
    the order in which [foreach] goes through them; [None] when a walk runs
    out of fuel. *)
Definition _buildStartAndEndPositions (fuel : nat) (areas : list nat) (P : planner)
  : option planner :=
  sel ← foldl (λ sel area, sel ≫= λ sel, placeArea fuel sel area)
        (Some (mkSelector (averageCentre areas) (_areaStartPositions P)
                 (_areaStartOrientations P))) areas;
  Some (mkPlanner (_tasks P) (_tasks2areas P) (areaStartPositions sel)
          (areaStartOrientations sel) (_taskSubFlights P)
          (_startTransitionSubFlights P) (bestFlightSoFar P)).

End EndpointSelector.

(** Stand-ins: the areas are axis parallel rectangles (a point on the
    border is outside), and [angleDeg = long] is the one angle whose
    direction is the longitude axis, every other direction being the
    latitude axis. *)
Definition rectangles : Polygons :=
  {| QPolygonF := QRectF;
     boundingRect := λ r, r;
     containsPoint := λ r p,
       bool_decide (rect_x r < px p) && bool_decide (px p < rect_x r + rect_width r)
       && bool_decide (rect_y r < py p) && bool_decide (py p < rect_y r + rect_height r) |}.

Definition axisMath (long : nat) : Math :=
  {| cos := λ a, if decide (a = angleArgument long) then 1 else 0;
     sin := λ a, if decide (a = angleArgument long) then 0 else 1;
     atan2 := λ y x, y - x;
     normalized := λ v, v |}.

(** Two areas, 20 by 2 degrees: area 10 centred at (0, 0) and area 20
    centred at (100, 0). *)
Definition twoAreas (area : nat) : QRectF :=
  if decide (area = 20%nat)
  then mkQRectF (Qc_of_Z 90) (Qc_of_Z (-1)) (Qc_of_Z 20) (Qc_of_Z 2)
  else mkQRectF (Qc_of_Z (-10)) (Qc_of_Z (-1)) (Qc_of_Z 20) (Qc_of_Z 2).

Definition qpt (x y : Z) : QPointF := mkQPointF (Qc_of_Z x) (Qc_of_Z y).

(** The chord endpoints with the smaller Manhattan distance to the mean
    [avgCentre] of the bounding rectangle centres first. *)
Definition specStartEnd (avgCentre : QPointF) (best : chord) : QPointF * QPointF :=
  if decide (QPointF.manhattanLength (QPointF.minus (bestPoint1 best) avgCentre)
             < QPointF.manhattanLength (QPointF.minus (bestPoint2 best) avgCentre))
  then (bestPoint1 best, bestPoint2 best)
  else (bestPoint2 best, bestPoint1 best).

(** ** Polygons given by their vertices

    [QPolygonF] as the list of its vertices, with [boundingRect] and
    [containsPoint] for [Qt::OddEvenFill] as Qt computes them; the exact
    comparison [y1 = y2] stands for [qFuzzyCompare(y1, y2)]. *)

(** [qt_polygon_isect_line]: the edge from [p1] to [p2] against the
    horizontal ray that ends in [pos]. *)
Definition qt_polygon_isect_line (p1 p2 pos : QPointF) (winding : Z) : Z :=
  if decide (py p1 = py p2) then winding
  else
    let '(x1, y1, x2, y2, dir) :=
      if decide (py p2 < py p1) then (px p2, py p2, px p1, py p1, (-1)%Z)
      else (px p1, py p1, px p2, py p2, 1%Z) in
    if decide (y1 ≤ py pos ∧ py pos < y2) then
      let x := x1 + ((x2 - x1) / (y2 - y1)) * (py pos - y1) in
      if decide (x ≤ px pos) then (winding + dir)%Z else winding
    else winding.

(** The loop of [QPolygonF::containsPoint] over the edges that follow
    [last_pt]. *)
Fixpoint polygonWinding (last_pt : QPointF) (rest : list QPointF) (pos : QPointF)
    (winding : Z) : QPointF * Z :=
  match rest with
  | [] => (last_pt, winding)
  | e :: rest => polygonWinding e rest pos (qt_polygon_isect_line last_pt e pos winding)
  end.

Definition polygonContainsPoint (poly : list QPointF) (pos : QPointF) : bool :=
  match poly with
  | [] => false
  | last_start :: rest =>
      let '(last_pt, winding) := polygonWinding last_start rest pos 0 in
      let winding :=
        if decide (last_pt = last_start) then winding
        else qt_polygon_isect_line last_pt last_start pos winding in
      Z.odd winding
  end.

(** [QPolygonF::boundingRect] *)
Definition polygonBoundingRect (poly : list QPointF) : QRectF :=
  match poly with
  | [] => mkQRectF 0 0 0 0
  | p :: rest =>
      let minx := foldl (λ m q, qMin (px q) m) (px p) rest in
      let maxx := foldl (λ m q, qMax (px q) m) (px p) rest in
      let miny := foldl (λ m q, qMin (py q) m) (py p) rest in
      let maxy := foldl (λ m q, qMax (py q) m) (py p) rest in
      mkQRectF minx miny (maxx - minx) (maxy - miny)
  end.

Definition vertexPolygons : Polygons :=
  {| QPolygonF := list QPointF;
     boundingRect := polygonBoundingRect;
     containsPoint := polygonContainsPoint |}.

(** ** The directions of the scan on a real machine

    The values that [cos] and [sin] of [<cmath>] return, as binary64
    numbers, for the arguments [angleDeg * 180.0 / 3.14159265] of the scan,
    [angleDeg] from 0 to 179; entry 179, for one, is
    (-0.2136668070683174, 0.9769065951037644), the direction of 102.34
    degrees. *)
Definition cmathDirections : list (qreal * qreal) := [
  (Q2Qc (1 # 1),
   Q2Qc (0 # 1));
  (Q2Qc (6608172391481477 # 9007199254740992),
   Q2Qc (6120596054231047 # 9007199254740992));
  (Q2Qc (5512254027867915 # 72057594037927936),
   Q2Qc (4490402923382771 # 4503599627370496));
  (Q2Qc ((-5597149879055905) # 9007199254740992),
   Q2Qc (1764255360732807 # 2251799813685248));
  (Q2Qc ((-8901780301772091) # 9007199254740992),
   Q2Qc (5496101707339949 # 36028797018963968));
  (Q2Qc ((-1866128180624863) # 2251799813685248),
   Q2Qc ((-1260225382378349) # 2251799813685248));
  (Q2Qc ((-2050966605146655) # 9007199254740992),
   Q2Qc ((-2192646437515347) # 2251799813685248));
  (Q2Qc (4455110906758171 # 9007199254740992),
   Q2Qc ((-7828258121899857) # 9007199254740992));
  (Q2Qc (134187360298751 # 140737488355328),
   Q2Qc ((-678972016317707) # 2251799813685248));
  (Q2Qc (8146125906182861 # 9007199254740992),
   Q2Qc (480401380605699 # 1125899906842624));
  (Q2Qc (6729786051563755 # 18014398509481984),
   Q2Qc (522191645478949 # 562949953421312));
  (Q2Qc ((-3208787991389997) # 9007199254740992),
   Q2Qc (2104063301699209 # 2251799813685248));
  (Q2Qc ((-2018294153576047) # 2251799813685248),
   Q2Qc (7988355968247445 # 18014398509481984));
  (Q2Qc ((-4318528469478231) # 4503599627370496),
   Q2Qc ((-5111119582960551) # 18014398509481984));
  (Q2Qc ((-2300027503542049) # 4503599627370496),
   Q2Qc ((-7743973937611567) # 9007199254740992));
  (Q2Qc (7549418792107779 # 36028797018963968),
   Q2Qc ((-8807243079332051) # 9007199254740992));
  (Q2Qc (1842346898607451 # 2251799813685248),
   Q2Qc ((-323685833998843) # 562949953421312));
  (Q2Qc (8925814249691443 # 9007199254740992),
   Q2Qc (4832354944930041 # 36028797018963968));
  (Q2Qc (5727540235884775 # 9007199254740992),
   Q2Qc (1737903213302737 # 2251799813685248));
  (Q2Qc ((-8347884058744739) # 144115188075855872),
   Q2Qc (8992075562048949 # 9007199254740992));
  (Q2Qc ((-405818630538177) # 562949953421312),
   Q2Qc (6242540798928353 # 9007199254740992));
  (Q2Qc ((-2251409672766497) # 2251799813685248),
   Q2Qc (5365149104725165 # 288230376151711744));
  (Q2Qc ((-6720956865183745) # 9007199254740992),
   Q2Qc ((-1499132608188527) # 2251799813685248));
  (Q2Qc ((-3424327974532191) # 36028797018963968),
   Q2Qc ((-8966424149837211) # 9007199254740992));
  (Q2Qc (5464820027266603 # 9007199254740992),
   Q2Qc ((-3579992335333713) # 4503599627370496));
  (Q2Qc (4437330877862121 # 4503599627370496),
   Q2Qc ((-769742998684007) # 4503599627370496));
  (Q2Qc (472315705428059 # 562949953421312),
   Q2Qc (1225270742084719 # 2251799813685248));
  (Q2Qc (2213867822096851 # 9007199254740992),
   Q2Qc (2182722320877229 # 2251799813685248));
  (Q2Qc ((-8617246089627821) # 18014398509481984),
   Q2Qc (3954914849661911 # 4503599627370496));
  (Q2Qc ((-2133987328438637) # 2251799813685248),
   Q2Qc (1437637621900939 # 4503599627370496));
  (Q2Qc ((-4108126222661541) # 4503599627370496),
   Q2Qc ((-7381824752547069) # 18014398509481984));
  (Q2Qc ((-3519832075126079) # 9007199254740992),
   Q2Qc ((-1036373036856785) # 1125899906842624));
  (Q2Qc (381446383080701 # 1125899906842624),
   Q2Qc ((-1059315466262473) # 1125899906842624));
  (Q2Qc (1999357461922961 # 2251799813685248),
   Q2Qc ((-4143760881838417) # 9007199254740992));
  (Q2Qc (4341564975606391 # 4503599627370496),
   Q2Qc (4788691957083143 # 18014398509481984));
  (Q2Qc (4743405120524211 # 9007199254740992),
   Q2Qc (7657006352171283 # 9007199254740992));
  (Q2Qc ((-6892355178699745) # 36028797018963968),
   Q2Qc (4420424284508003 # 4503599627370496));
  (Q2Qc ((-7271708864899765) # 9007199254740992),
   Q2Qc (166101580244475 # 281474976710656));
  (Q2Qc ((-8946755271365031) # 9007199254740992),
   Q2Qc ((-4166933700281237) # 36028797018963968));
  (Q2Qc ((-2927972957785013) # 4503599627370496),
   Q2Qc ((-6843795427138761) # 9007199254740992));
  (Q2Qc (5668367396858891 # 144115188075855872),
   Q2Qc ((-4500114695282423) # 4503599627370496));
  (Q2Qc (3187886915757149 # 4503599627370496),
   Q2Qc ((-6362322411194215) # 9007199254740992));
  (Q2Qc (4500478770399649 # 4503599627370496),
   Q2Qc ((-5364219553089077) # 144115188075855872));
  (Q2Qc (3415706214117141 # 4503599627370496),
   Q2Qc (5870386925064895 # 9007199254740992));
  (Q2Qc (4091342355001235 # 36028797018963968),
   Q2Qc (8948935454733847 # 9007199254740992));
  (Q2Qc ((-2665298267379823) # 4503599627370496),
   Q2Qc (7260466858144533 # 9007199254740992));
  (Q2Qc ((-4422234004262183) # 4503599627370496),
   Q2Qc (6817652453207885 # 36028797018963968));
  (Q2Qc ((-7646971221500469) # 9007199254740992),
   Q2Qc ((-148736440926633) # 281474976710656));
  (Q2Qc ((-2376001901202947) # 9007199254740992),
   Q2Qc ((-4344083717542937) # 4503599627370496));
  (Q2Qc (4160642181452217 # 9007199254740992),
   Q2Qc ((-1997165101032699) # 2251799813685248));
  (Q2Qc (1060118717011481 # 1125899906842624),
   Q2Qc ((-3033666097066435) # 9007199254740992));
  (Q2Qc (8283531931845451 # 9007199254740992),
   Q2Qc (7074669504281725 # 18014398509481984));
  (Q2Qc (7347102901516827 # 18014398509481984),
   Q2Qc (8224029313738943 # 9007199254740992));
  (Q2Qc ((-5786593447069661) # 18014398509481984),
   Q2Qc (8529857705975481 # 9007199254740992));
  (Q2Qc ((-1979727963429683) # 2251799813685248),
   Q2Qc (8583815810614679 # 18014398509481984));
  (Q2Qc ((-8726194130910845) # 9007199254740992),
   Q2Qc ((-8929209957673791) # 36028797018963968));
  (Q2Qc ((-4885111574149247) # 9007199254740992),
   Q2Qc ((-1891846375282619) # 2251799813685248));
  (Q2Qc (6232903262596743 # 36028797018963968),
   Q2Qc ((-8871390574315343) # 9007199254740992));
  (Q2Qc (3585755190514227 # 4503599627370496),
   Q2Qc ((-5449685978972347) # 9007199254740992));
  (Q2Qc (4482298055210107 # 4503599627370496),
   Q2Qc (7000137103322271 # 72057594037927936));
  (Q2Qc (1495580605913271 # 2251799813685248),
   Q2Qc (841700815630027 # 1125899906842624));
  (Q2Qc ((-1493443281029537) # 72057594037927936),
   Q2Qc (9005264506891559 # 9007199254740992));
  (Q2Qc ((-782030034346875) # 1125899906842624),
   Q2Qc (809987423116961 # 1125899906842624));
  (Q2Qc ((-8993157426028741) # 9007199254740992),
   Q2Qc (4022002886290655 # 72057594037927936));
  (Q2Qc ((-6939500806151469) # 9007199254740992),
   Q2Qc ((-5742209241749189) # 9007199254740992));
  (Q2Qc ((-2378469512509375) # 18014398509481984),
   Q2Qc ((-8928345821546259) # 9007199254740992));
  (Q2Qc (5194525911955471 # 9007199254740992),
   Q2Qc ((-919804148350257) # 1125899906842624));
  (Q2Qc (2202802380687591 # 2251799813685248),
   Q2Qc ((-1868749624963167) # 9007199254740992));
  (Q2Qc (7734241367872739 # 9007199254740992),
   Q2Qc (4616399991128661 # 9007199254740992));
  (Q2Qc (5074625321237763 # 18014398509481984),
   Q2Qc (8642435008541853 # 9007199254740992));
  (Q2Qc ((-501402449279099) # 1125899906842624),
   Q2Qc (8064722920314721 # 9007199254740992));
  (Q2Qc ((-8423011384298181) # 9007199254740992),
   Q2Qc (6382011480588205 # 18014398509481984));
  (Q2Qc ((-4173970526207717) # 4503599627370496),
   Q2Qc ((-6765062778719433) # 18014398509481984));
  (Q2Qc ((-956499471661933) # 2251799813685248),
   Q2Qc ((-8154224585205743) # 9007199254740992));
  (Q2Qc (5468039624893393 # 18014398509481984),
   Q2Qc ((-4291117980193379) # 4503599627370496));
  (Q2Qc (3918824920012785 # 4503599627370496),
   Q2Qc ((-4438567719406097) # 9007199254740992));
  (Q2Qc (8766234555678181 # 9007199254740992),
   Q2Qc (8277941898264751 # 36028797018963968));
  (Q2Qc (5025125264586191 # 9007199254740992),
   Q2Qc (1868785609858449 # 2251799813685248));
  (Q2Qc ((-5571291553627295) # 36028797018963968),
   Q2Qc (8898858511974261 # 9007199254740992));
  (Q2Qc ((-3534413431535527) # 4503599627370496),
   Q2Qc (5582232993572709 # 9007199254740992));
  (Q2Qc ((-8979330584742743) # 9007199254740992),
   Q2Qc ((-1415995288848419) # 18014398509481984));
  (Q2Qc ((-6106625968805925) # 9007199254740992),
   Q2Qc ((-6621084328998671) # 9007199254740992));
  (Q2Qc (1217482908361449 # 576460752303423488),
   Q2Qc ((-9007179166286911) # 9007199254740992));
  (Q2Qc (3067269419265627 # 4503599627370496),
   Q2Qc ((-6595230977999049) # 9007199254740992));
  (Q2Qc (4491120524804205 # 4503599627370496),
   Q2Qc ((-2680251156399481) # 36028797018963968));
  (Q2Qc (1761296136179657 # 2251799813685248),
   Q2Qc (5612041798264199 # 9007199254740992));
  (Q2Qc (5420887345524569 # 36028797018963968),
   Q2Qc (2226165596221483 # 2251799813685248));
  (Q2Qc ((-5056655309331199) # 9007199254740992),
   Q2Qc (3726924854931317 # 4503599627370496));
  (Q2Qc ((-4387448911479147) # 4503599627370496),
   Q2Qc (508109646831301 # 2251799813685248));
  (Q2Qc ((-3909415742786077) # 4503599627370496),
   Q2Qc ((-8943268443881627) # 18014398509481984));
  (Q2Qc ((-5395488407572113) # 18014398509481984),
   Q2Qc ((-8593707850837461) # 9007199254740992));
  (Q2Qc (3860407060276197 # 9007199254740992),
   Q2Qc ((-2034497722774229) # 2251799813685248));
  (Q2Qc (8362154334863897 # 9007199254740992),
   Q2Qc ((-3347239652986267) # 9007199254740992));
  (Q2Qc (8409457488321597 # 9007199254740992),
   Q2Qc (6453111859163299 # 18014398509481984));
  (Q2Qc (7954237115705099 # 18014398509481984),
   Q2Qc (2020398574406043 # 2251799813685248));
  (Q2Qc ((-5147591046370473) # 18014398509481984),
   Q2Qc (8631640343494295 # 9007199254740992));
  (Q2Qc ((-3876835982550655) # 4503599627370496),
   Q2Qc (1145922376085327 # 2251799813685248));
  (Q2Qc ((-4401618675457907) # 4503599627370496),
   Q2Qc ((-3811902704974199) # 18014398509481984));
  (Q2Qc ((-5163397675028465) # 9007199254740992),
   Q2Qc ((-3690154565330473) # 4503599627370496));
  (Q2Qc (2453874654977627 # 18014398509481984),
   Q2Qc ((-4461621431974627) # 4503599627370496));
  (Q2Qc (1740923473093239 # 2251799813685248),
   Q2Qc ((-5712845682139005) # 9007199254740992));
  (Q2Qc (561934599288811 # 562949953421312),
   Q2Qc (1081465638603961 # 18014398509481984));
  (Q2Qc (3114406739013185 # 4503599627370496),
   Q2Qc (6506267829605827 # 9007199254740992));
  (Q2Qc (2378250576954183 # 144115188075855872),
   Q2Qc (4502986352646609 # 4503599627370496));
  (Q2Qc ((-3005355847067081) # 4503599627370496),
   Q2Qc (3354138613139203 # 4503599627370496));
  (Q2Qc ((-4484106097112379) # 4503599627370496),
   Q2Qc (6697144246151667 # 72057594037927936));
  (Q2Qc ((-3574213511479791) # 4503599627370496),
   Q2Qc ((-5479929699551619) # 9007199254740992));
  (Q2Qc ((-6082957248619783) # 36028797018963968),
   Q2Qc ((-8877893351413565) # 9007199254740992));
  (Q2Qc (307314531317933 # 562949953421312),
   Q2Qc ((-7546683364091905) # 9007199254740992));
  (Q2Qc (1091943186461067 # 1125899906842624),
   Q2Qc ((-4390846559490221) # 18014398509481984));
  (Q2Qc (1975178065718427 # 2251799813685248),
   Q2Qc (135166217673933 # 281474976710656));
  (Q2Qc (2857240938805369 # 9007199254740992),
   Q2Qc (4271001423326305 # 4503599627370496));
  (Q2Qc ((-7416513676712989) # 18014398509481984),
   Q2Qc (8208438928041615 # 9007199254740992));
  (Q2Qc ((-8298399675653727) # 9007199254740992),
   Q2Qc (7004627395576957 # 18014398509481984));
  (Q2Qc ((-4234029961608129) # 4503599627370496),
   Q2Qc ((-767365605147953) # 2251799813685248));
  (Q2Qc ((-4126861098843093) # 9007199254740992),
   Q2Qc ((-8006163618454363) # 9007199254740992));
  (Q2Qc (2412679375817361 # 9007199254740992),
   Q2Qc ((-4339026867977203) # 4503599627370496));
  (Q2Qc (7667007328511589 # 9007199254740992),
   Q2Qc ((-295451435830331) # 562949953421312));
  (Q2Qc (8837189694612199 # 9007199254740992),
   Q2Qc (6967027160614931 # 36028797018963968));
  (Q2Qc (662485111504625 # 1125899906842624),
   Q2Qc (7282918435958745 # 9007199254740992));
  (Q2Qc ((-4242506458816593) # 36028797018963968),
   Q2Qc (8944535180700443 # 9007199254740992));
  (Q2Qc ((-6856147899068931) # 9007199254740992),
   Q2Qc (5841478785436045 # 9007199254740992));
  (Q2Qc ((-8999461094511557) # 9007199254740992),
   Q2Qc ((-5972489956689737) # 144115188075855872));
  (Q2Qc ((-3174421305764461) # 4503599627370496),
   Q2Qc ((-6389196812482873) # 9007199254740992));
  (Q2Qc ((-5060047781976247) # 144115188075855872),
   Q2Qc ((-9001645541967119) # 9007199254740992));
  (Q2Qc (2942400874754577 # 4503599627370496),
   Q2Qc ((-6818998957587593) # 9007199254740992));
  (Q2Qc (4475537860541285 # 4503599627370496),
   Q2Qc ((-8031465520275967) # 72057594037927936));
  (Q2Qc (1812298116458989 # 2251799813685248),
   Q2Qc (5345918724398445 # 9007199254740992));
  (Q2Qc (6742919317369405 # 36028797018963968),
   Q2Qc (2212011999247971 # 2251799813685248));
  (Q2Qc ((-4775705868574113) # 9007199254740992),
   Q2Qc (7636901981266583 # 9007199254740992));
  (Q2Qc ((-8693166165101117) # 9007199254740992),
   Q2Qc (4715294451271445 # 18014398509481984));
  (Q2Qc ((-3989927663443331) # 4503599627370496),
   Q2Qc ((-1044376230596679) # 2251799813685248));
  (Q2Qc ((-6031495195436119) # 18014398509481984),
   Q2Qc ((-8487337912529725) # 9007199254740992));
  (Q2Qc (7109643301515579 # 18014398509481984),
   Q2Qc ((-4138021309935171) # 4503599627370496));
  (Q2Qc (8231769498601907 # 9007199254740992),
   Q2Qc ((-7312348278492755) # 18014398509481984));
  (Q2Qc (1065466006310741 # 1125899906842624),
   Q2Qc (5822610595245417 # 18014398509481984));
  (Q2Qc (8550347243212749 # 18014398509481984),
   Q2Qc (3963979342773109 # 4503599627370496));
  (Q2Qc ((-4501454398958957) # 18014398509481984),
   Q2Qc (8721460054837719 # 9007199254740992));
  (Q2Qc ((-1894421490209823) # 2251799813685248),
   Q2Qc (2434559194880347 # 4503599627370496));
  (Q2Qc ((-1108509977722039) # 1125899906842624),
   Q2Qc ((-1576958683418973) # 9007199254740992));
  (Q2Qc ((-339657976385719) # 562949953421312),
   Q2Qc ((-3591502051317165) # 4503599627370496));
  (Q2Qc (7151587033271277 # 72057594037927936),
   Q2Qc ((-4481364042063695) # 4503599627370496));
  (Q2Qc (3373113074713155 # 4503599627370496),
   Q2Qc ((-2984043865101657) # 4503599627370496));
  (Q2Qc (9004850154438897 # 9007199254740992),
   Q2Qc (6582370497430921 # 288230376151711744));
  (Q2Qc (6466671777460757 # 9007199254740992),
   Q2Qc (6269911844451979 # 9007199254740992));
  (Q2Qc (7740091605833173 # 144115188075855872),
   Q2Qc (8994199175734529 # 9007199254740992));
  (Q2Qc ((-5756852634302241) # 9007199254740992),
   Q2Qc (108239965706553 # 140737488355328));
  (Q2Qc ((-2232709392055615) # 2251799813685248),
   Q2Qc (4681501886588133 # 36028797018963968));
  (Q2Qc ((-1836861489160195) # 2251799813685248),
   Q2Qc ((-40703557106069) # 70368744177664));
  (Q2Qc ((-1850136216272285) # 9007199254740992),
   Q2Qc ((-4407568331740427) # 4503599627370496));
  (Q2Qc (4632724383568543 # 9007199254740992),
   Q2Qc ((-3862237149648379) # 4503599627370496));
  (Q2Qc (8647774528259419 # 9007199254740992),
   Q2Qc ((-5038108423999731) # 18014398509481984));
  (Q2Qc (1007029156670583 # 1125899906842624),
   Q2Qc (8056486624326531 # 18014398509481984));
  (Q2Qc (1586604627810933 # 4503599627370496),
   Q2Qc (1053716498834619 # 1125899906842624));
  (Q2Qc ((-6800309330099853) # 18014398509481984),
   Q2Qc (4170389270450239 # 4503599627370496));
  (Q2Qc ((-8162286892040717) # 9007199254740992),
   Q2Qc (3808767662463407 # 9007199254740992));
  (Q2Qc ((-4288221290153317) # 4503599627370496),
   Q2Qc ((-5504278728883545) # 18014398509481984));
  (Q2Qc ((-8844009467361851) # 18014398509481984),
   Q2Qc ((-980875824756807) # 1125899906842624));
  (Q2Qc (8351980451923079 # 36028797018963968),
   Q2Qc ((-8761844259217069) # 9007199254740992));
  (Q2Qc (7485738813246607 # 9007199254740992),
   Q2Qc ((-5009326584927355) # 9007199254740992));
  (Q2Qc (8895897028525359 # 9007199254740992),
   Q2Qc (2823228274497379 # 18014398509481984));
  (Q2Qc (5567291208361105 # 9007199254740992),
   Q2Qc (7080600752472337 # 9007199254740992));
  (Q2Qc ((-5815683018554621) # 72057594037927936),
   Q2Qc (2244453817530203 # 2251799813685248));
  (Q2Qc ((-6633966732946563) # 9007199254740992),
   Q2Qc (3046314322290339 # 4503599627370496));
  (Q2Qc ((-9007118901014273) # 9007199254740992),
   Q2Qc ((-2434960386100391) # 576460752303423488));
  (Q2Qc ((-6582260146267015) # 9007199254740992),
   Q2Qc ((-384278391220315) # 562949953421312));
  (Q2Qc ((-5208726687042559) # 72057594037927936),
   Q2Qc ((-8983636186869955) # 9007199254740992));
  (Q2Qc (5626908684780911 # 9007199254740992),
   Q2Qc ((-1758329055306199) # 2251799813685248));
  (Q2Qc (8907504748460369 # 9007199254740992),
   Q2Qc ((-5345648803672237) # 36028797018963968));
  (Q2Qc (7443153449081175 # 9007199254740992),
   Q2Qc (5072386533776551 # 9007199254740992));
  (Q2Qc (8055606014990671 # 36028797018963968),
   Q2Qc (2194792688783635 # 2251799813685248));
  (Q2Qc ((-8976275182512243) # 18014398509481984),
   Q2Qc (3904684986543741 # 4503599627370496));
  (Q2Qc ((-4299693155018665) # 4503599627370496),
   Q2Qc (2679588308929047 # 9007199254740992));
  (Q2Qc ((-8129819576233957) # 9007199254740992),
   Q2Qc ((-7755171712474147) # 18014398509481984));
  (Q2Qc ((-6659142699445979) # 18014398509481984),
   Q2Qc ((-8369205042398621) # 9007199254740992));
  (Q2Qc (811077368904125 # 2251799813685248),
   Q2Qc ((-4201312129592125) # 4503599627370496));
  (Q2Qc (4044987966362309 # 4503599627370496),
   Q2Qc ((-7920082783037847) # 18014398509481984));
  (Q2Qc (8626185246316537 # 9007199254740992),
   Q2Qc (5184039548783397 # 18014398509481984));
  (Q2Qc (4567303555907091 # 9007199254740992),
   Q2Qc (3881667703539457 # 4503599627370496));
  (Q2Qc ((-7698158021554543) # 36028797018963968),
   Q2Qc (8799192355370187 # 9007199254740992))
].

(** A [Math] that takes these values at the arguments of the scan. *)
Definition cmathTable : Math :=
  let entry (a : qreal) : qreal * qreal :=
    default (0, 0)
      (list_find (λ angleDeg, angleArgument angleDeg = a) (seq 0 180)
       ≫= λ found, cmathDirections !! found.1) in
  {| cos := λ a, (entry a).1;
     sin := λ a, (entry a).2;
     atan2 := λ y x, y - x;
     normalized := λ v, v |}.

(** A strip of about 3.6 km by 3.5 m around (0, 0), along the direction of
    102.34 degrees; the vertices are in degrees. *)
Definition needle : list QPointF :=
  [mkQPointF (Q2Qc ((-7136) # 1048576)) (Q2Qc (32775 # 1048576));
   mkQPointF (Q2Qc ((-7200) # 1048576)) (Q2Qc (32761 # 1048576));
   mkQPointF (Q2Qc (7136 # 1048576)) (Q2Qc ((-32775) # 1048576));
   mkQPointF (Q2Qc (7200 # 1048576)) (Q2Qc ((-32761) # 1048576))].

(** The chord of the needle in the direction of [angleDeg = 15], and the
    one in the direction of [angleDeg = 179]. *)
Definition needleShortChord : chord :=
  mkChord (Q2Qc (20079246710245135830338122576502794141473 # 89202980794122492566142873090593446023921664))
    (mkQPointF (Q2Qc (29691864109359894807 # 18889465931478580854784)) (Q2Qc ((-34638887031012956583) # 4722366482869645213696)))
    (mkQPointF (Q2Qc ((-29691864109359894807) # 18889465931478580854784)) (Q2Qc (34638887031012956583 # 4722366482869645213696))).

Definition needleLongChord : chord :=
  mkChord (Q2Qc (377043632670158597612425696816382680460697 # 89202980794122492566142873090593446023921664))
    (mkQPointF (Q2Qc ((-131199707161354076349) # 18889465931478580854784)) (Q2Qc (149964635312574097041 # 4722366482869645213696)))
    (mkQPointF (Q2Qc (131199707161354076349 # 18889465931478580854784)) (Q2Qc ((-149964635312574097041) # 4722366482869645213696))).

(** ** The planning problem and the planner object *)

(** Modelled from the spec: the missing classes [PlanningProblem],
    [FlightTaskArea] and [FlightTask].  A problem has a starting position,
    a starting orientation and a list of areas; an area has a polygon and a
    list of tasks; a task has a type.  Areas and tasks are shared objects:
    they are named by their identity, and what the planner reads from them
    ([area->geoPoly()], [area->tasks()], [task->taskType()]) is looked up
    by that identity. *)
Record PlanningProblem `{Polygons} := mkProblem {
  startingPosition : Position;
  startingOrientation : UAVOrientation;
  areas : list nat;
  geoPolyOf : nat → QPolygonF;
  tasksOf : nat → list nat;
  taskTypeOf : nat → string;
}.
Arguments mkProblem {_} _ _ _ _ _ _.

(** The members of [HierarchicalPlanner]: the problem pointer (null or
    not), the tables and the obstacle list. *)
Record HierarchicalPlanner `{Polygons} := mkHierarchicalPlanner {
  problem : option PlanningProblem;
  tables : planner;
  _obstacles : list QPolygonF;
}.
Arguments mkHierarchicalPlanner {_} _ _ _.

(** The task lists of the areas, laid out in the order of the two nested
    [foreach] loops: pairs of an area and one of its tasks. *)
Definition areaTasks `{Polygons} (prob : PlanningProblem) : list (nat * nat) :=
  area ← areas prob; (λ task, (area, task)) <$> tasksOf prob area.

Section Reset.
Context {polygons : Polygons}.

(** The body of the inner [foreach] of [doReset]. *)
Definition resetTask (prob : PlanningProblem) (area : nat) (H : HierarchicalPlanner)
    (task : nat) : HierarchicalPlanner :=
  let P := tables H in
  if decide (taskTypeOf prob task = "No-Fly Zone"%string) then
    mkHierarchicalPlanner (problem H) P (_obstacles H ++ [geoPolyOf prob area])
  else
    mkHierarchicalPlanner (problem H)
      (mkPlanner (_tasks P ++ [task]) (<[task := area]> (_tasks2areas P))
         (_areaStartPositions P) (_areaStartOrientations P) (_taskSubFlights P)
         (_startTransitionSubFlights P) (bestFlightSoFar P))
      (_obstacles H).

(** The same body, for a pair of an area and one of its tasks. *)
Definition resetPair (prob : PlanningProblem) (H : HierarchicalPlanner) (p : nat * nat)
  : HierarchicalPlanner :=
  resetTask prob p.1 H p.2.

(** [doReset]: the tables are cleared, then filled from the problem, if
    there is one. *)
Definition doReset (H : HierarchicalPlanner) : HierarchicalPlanner :=
  let cleared :=
    mkHierarchicalPlanner (problem H)
      (mkPlanner [] ∅ ∅ ∅ ∅ ∅ (bestFlightSoFar (tables H))) [] in
  match problem H with
  | None => cleared
  | Some prob =>
      foldl (λ H area, foldl (resetTask prob area) H (tasksOf prob area)) cleared (areas prob)
  end.

End Reset.

(** Modelled from the spec: the missing class [SubFlightPlanner], which
    yields a way point list for a task, its area (a pointer that may be
    null), a start position and a start pose: the constructor, [plan()]
    and then [results()]. *)
Class SubFlightPlanner := {
  subFlightResults : nat → option nat → Position → UAVOrientation → list Position;
}.

Section Iteration.
Context {conversions : Conversions} {math : Math} {planning : IntermediatePlanner}
  {polygons : Polygons} {subFlights : SubFlightPlanner}.
Variable Position0 : Position.
Variable UAVOrientation0 : UAVOrientation.

Definition startPositionOf (P : planner) (a : option nat) : Position :=
  hashValue (_areaStartPositions P) a Position0.

(** The body of the [foreach] of [_buildStartTransitions]; [None] when the
    task has no area, in which case the code files the transition under
    the null pointer, a key the tables of this model do not have. *)
Definition startTransitionStep (prob : PlanningProblem) (acc : option planner)
    (task : nat) : option planner :=
  P ← acc;
  area ← _tasks2areas P !! task;
  if decide (is_Some (_startTransitionSubFlights P !! area)) then Some P
  else
    let taskStartPos := startPositionOf P (Some area) in
    let taskStartPose := startOrientationOf UAVOrientation0 P (Some area) in
    let subFlight :=
      _generateTransitionFlight (startingPosition prob) (startingOrientation prob)
        taskStartPos taskStartPose in
    Some (mkPlanner (_tasks P) (_tasks2areas P) (_areaStartPositions P)
            (_areaStartOrientations P) (_taskSubFlights P)
            (<[area := subFlight]> (_startTransitionSubFlights P)) (bestFlightSoFar P)).

Definition _buildStartTransitions (prob : PlanningProblem) (P : planner) : option planner :=
  foldl (startTransitionStep prob) (Some P) (_tasks P).

(** [P] with another table of start transitions. *)
Definition withTransitions (P : planner) (m : gmap nat (list Position)) : planner :=
  mkPlanner (_tasks P) (_tasks2areas P) (_areaStartPositions P) (_areaStartOrientations P)
    (_taskSubFlights P) m (bestFlightSoFar P).

(** The transition from the global start to the start of [area]. *)
Definition transitionTo (prob : PlanningProblem) (P : planner) (area : nat) : list Position :=
  _generateTransitionFlight (startingPosition prob) (startingOrientation prob)
    (startPositionOf P (Some area)) (startOrientationOf UAVOrientation0 P (Some area)).

(** The body of the [foreach] of [_buildSubFlights]. *)
Definition subFlightStep (P : planner) (task : nat) : planner :=
  let area := _tasks2areas P !! task in
  let start := startPositionOf P area in
  let startPose := startOrientationOf UAVOrientation0 P area in
  mkPlanner (_tasks P) (_tasks2areas P) (_areaStartPositions P)
    (_areaStartOrientations P)
    (<[task := subFlightResults task area start startPose]> (_taskSubFlights P))
    (_startTransitionSubFlights P) (bestFlightSoFar P).

Definition _buildSubFlights (P : planner) : planner :=
  foldl subFlightStep P (_tasks P).

(** How [doIteration] ends.  The polygons of the areas are reached through
    the problem, so that without a problem the model stops at once, where
    the code stops in [_buildStartTransitions]. *)
Inductive iterated :=
  | Iterated (o : outcome)   (* [_buildSchedule] was reached and ended with [o] *)
  | NullProblem              (* [problem()->startingPosition()] on a null problem *)
  | NullArea                 (* a task without area, see [startTransitionStep] *)
  | NoFuel.                  (* a loop of the model ran out of fuel *)

(** [doIteration]; [values] is [_tasks2areas.values()] in the order in
    which [foreach] goes through it.  ([pausePlanning()], of the base
    class, is left out.) *)
Definition doIteration (walkFuel searchFuel : nat) (values : list nat)
    (H : HierarchicalPlanner) : iterated :=
  match problem H with
  | None => NullProblem
  | Some prob =>
      match _buildStartAndEndPositions (geoPolyOf prob) walkFuel values (tables H) with
      | None => NoFuel
      | Some P1 =>
          match _buildStartTransitions prob P1 with
          | None => NullArea
          | Some P2 =>
              match _buildSchedule Position0 UAVOrientation0 (_buildSubFlights P2) searchFuel with
              | None => NoFuel
              | Some o => Iterated o
              end
          end
      end
  end.

End Iteration.


(** A problem with two areas: area 10 with a coverage task and a no-fly
    task, area 20 with one coverage task. *)
Definition exampleProblem : PlanningProblem (H := rectangles) :=
  @mkProblem rectangles (pt 0 0) (mkUAVOrientation 0) [10%nat; 20%nat] twoAreas
    (λ area, if decide (area = 10%nat) then [1%nat; 2%nat]
             else if decide (area = 20%nat) then [3%nat] else [])
    (λ task, if decide (task = 2%nat) then "No-Fly Zone"%string else "Coverage"%string).

(** A planner for [exampleProblem] with tables left over from another
    run. *)
Definition examplePlanner : HierarchicalPlanner (H := rectangles) :=
  @mkHierarchicalPlanner rectangles (Some exampleProblem) twoTaskPlanner [twoAreas 20%nat].

(** ** The trial points of the endpoint walk *)

(** [trialPointPos] and [trialPointNeg] at [count] steps from the centre. *)
Definition trialPointPos (centerLonLat : QPointF) (dirVec : QVector2D) (stepSize : qreal)
    (count : nat) : QPointF :=
  mkQPointF (px centerLonLat + v2x dirVec * stepSize * int_to_qreal count)
            (py centerLonLat + v2y dirVec * stepSize * int_to_qreal count).

Definition trialPointNeg (centerLonLat : QPointF) (dirVec : QVector2D) (stepSize : qreal)
    (count : nat) : QPointF :=
  mkQPointF (px centerLonLat - v2x dirVec * stepSize * int_to_qreal count)
            (py centerLonLat - v2y dirVec * stepSize * int_to_qreal count).

(** [k] is the first step at which the trial point is not in [poly]. *)
Definition firstOutside `{Polygons} (poly : QPolygonF) (trial : nat → QPointF) (k : nat) : Prop :=
  containsPoint poly (trial k) = false ∧ ∀ j, (j < k)%nat → containsPoint poly (trial j) = true.

(** What the walk knows of one direction after the steps below [count]:
    the first trial point outside, or that there was none. *)
Definition tracked `{Polygons} (poly : QPolygonF) (trial : nat → QPointF) (count : nat)
    (got : option QPointF) : Prop :=
  match got with
  | Some p => ∃ k, (k < count)%nat ∧ firstOutside poly trial k ∧ p = trial k
  | None => ∀ j, (j < count)%nat → containsPoint poly (trial j) = true
  end.

(** ** The Dubins intermediate planner, [DubinsIntermediatePlanner]

    The arithmetic is exact: the model follows the code where the way point
    interval and the degrees per metre are not zero. *)

(** [Dubins.h] is not among the sources; [plan()] calls the constructor,
    [isValid()], [length()] and [sample()]. *)
Record Dubins := mkDubins {
  isValid : bool;
  (* [length()] *)
  dubinsLength : qreal;
  (* [sample(t, pos, angle)]: [None] when it returns false *)
  sample : qreal → option (QPointF * qreal);
}.

(** The constructor
    [Dubins(startPos, startAngle, endPos, endAngle, minTurnRadius)]. *)
Class DubinsCurves := {
  dubinsCurve : QPointF → qreal → QPointF → qreal → qreal → Dubins;
}.

(** [UAVParameters] is not among the sources; [plan()] reads the way
    point interval and the minimum turning radius. *)
Record UAVParameters := mkUAVParameters {
  waypointInterval : qreal;
  minTurningRadius : qreal;
}.

(** [qRound(qreal d)] of QtGlobal:
    [d >= 0.0 ? int(d + 0.5) : int(d - int(d-1) + 0.5) + int(d-1)]. *)
Definition qRound (d : qreal) : Z :=
  if decide (0 ≤ d) then qreal_to_int (d + Q2Qc (1 # 2))
  else (qreal_to_int (d - Qc_of_Z (qreal_to_int (d - 1)) + Q2Qc (1 # 2))
        + qreal_to_int (d - 1))%Z.

Module DubinsIntermediatePlanner.

(** The members the planner inherits from [IntermediatePlanner] (the
    obstacles, which [plan()] does not read, left out) and [_results]. *)
Record state := mkState {
  uavParams : UAVParameters;
  startPos : Position;
  startAngle : UAVOrientation;
  endPos : Position;
  endAngle : UAVOrientation;
  _results : list Position;
}.

Definition setResults (self : state) (results : list Position) : state :=
  mkState (uavParams self) (startPos self) (startAngle self) (endPos self) (endAngle self)
    results.

Section Plan.
Context {conversions : Conversions} {curves : DubinsCurves}.

(** The way point made of a sample: back from metres to degrees. *)
Definition samplePosition (self : state) (lonPerMeter latPerMeter : qreal)
    (samplePos : QPointF) : Position :=
  mkPosition (longitude (startPos self) + px samplePos * lonPerMeter)
             (latitude (startPos self) + py samplePos * latPerMeter).

(** [for (int i = 0; i < numSamples; i++)] from [i] on, with [turns] turns
    to go; the flag is false when a sample failed. *)
Fixpoint sampleLoop (dubins : Dubins) (self : state) (lonPerMeter latPerMeter : qreal)
    (turns i : nat) (results : list Position) : bool * list Position :=
  match turns with
  | O => (true, results)
  | S turns =>
      let t := int_to_qreal i * waypointInterval (uavParams self) in
      match sample dubins t with
      | None => (false, results)
      | Some (samplePos, sampleAngle) =>
          sampleLoop dubins self lonPerMeter latPerMeter turns (S i)
            (results ++ [samplePosition self lonPerMeter latPerMeter samplePos])
      end
  end.

(** The locals of [plan()] up to the curve. *)
Definition avgLat (self : state) : qreal :=
  (latitude (startPos self) + latitude (endPos self)) / Qc_of_Z 2.

Definition curveOf (self : state) : Dubins :=
  let lonPerMeter := degreesLonPerMeter (avgLat self) in
  let latPerMeter := degreesLatPerMeter (avgLat self) in
  let startPos' := mkQPointF (Q2Qc (1 # 10000)) (Q2Qc (1 # 10000)) in
  let startAngle' := radians (startAngle self) in
  let endPos' :=
    mkQPointF ((longitude (endPos self) - longitude (startPos self)) / lonPerMeter)
              ((latitude (endPos self) - latitude (startPos self)) / latPerMeter) in
  let endAngle' := radians (endAngle self) in
  let minTurnRadius := minTurningRadius (uavParams self) in
  dubinsCurve startPos' startAngle' endPos' endAngle' minTurnRadius.

Definition numSamples (self : state) : Z :=
  qRound (dubinsLength (curveOf self) / waypointInterval (uavParams self)).

(** [plan()]: the return value and the planner afterwards. *)
Definition plan (self : state) : bool * state :=
  let self := setResults self [] in
  let lonPerMeter := degreesLonPerMeter (avgLat self) in
  let latPerMeter := degreesLatPerMeter (avgLat self) in
  let dubins := curveOf self in
  if negb (isValid dubins) then (false, self)
  else
    let '(ok, results) :=
      sampleLoop dubins self lonPerMeter latPerMeter (Z.to_nat (numSamples self)) 0
        (_results self) in
    (ok, setResults self results).

(** [results()] *)
Definition results (self : state) : list Position := _results self.

End Plan.

End DubinsIntermediatePlanner.

(** ** More stand-ins *)

(** A planner without tasks that still holds a flight from an earlier
    run. *)
Definition noTaskPlanner : planner := mkPlanner [] ∅ ∅ ∅ ∅ ∅ [pt 9 9].

(** An area shrunk to the point (5, 5): its centre is not inside it. *)
Definition pointArea (area : nat) : QRectF :=
  mkQRectF (Qc_of_Z 5) (Qc_of_Z 5) 0 0.

(** A sub-flight planner that answers with the start position alone. *)
Definition startSubFlights : SubFlightPlanner :=
  {| subFlightResults := λ _ _ start _, [start] |}.

(** Curves that run along the longitude axis, valid when the end is not
    west of the start, and that cannot be sampled past their end. *)
Definition straightCurves : DubinsCurves :=
  {| dubinsCurve := λ startPos _ endPos _ _,
       mkDubins (bool_decide (px startPos ≤ px endPos)) (px endPos - px startPos)
         (λ t, if decide (t ≤ px endPos - px startPos)
               then Some (mkQPointF (px startPos + t) (py startPos), 0)
               else None) |}.

(** A transition of 100 metres, a way point every 30 metres. *)
Definition exampleDubins : DubinsIntermediatePlanner.state :=
  DubinsIntermediatePlanner.mkState (mkUAVParameters (Qc_of_Z 30) 1)
    (pt 0 0) (mkUAVOrientation 0) (pt 100 0) (mkUAVOrientation 0) [pt 7 7].

(** [twoTaskPlanner] before and after its start transitions are built. *)
Definition bareTwoTaskPlanner : planner := withTransitions twoTaskPlanner ∅.

Definition transitionedPlanner : planner :=
  default bareTwoTaskPlanner
    (_buildStartTransitions (planning := directPlanner) (polygons := rectangles) (pt 0 0)
       (mkUAVOrientation 0) exampleProblem bareTwoTaskPlanner).

(** [twoTaskPlanner] after the endpoints of the two areas were chosen. *)
Definition placedPlanner : planner :=
  default twoTaskPlanner
    (_buildStartAndEndPositions (conversions := flatConversions) (math := axisMath 0)
       (polygons := rectangles) twoAreas 100 [10%nat; 20%nat] twoTaskPlanner).

(** * Properties *)

(** ** Rational arithmetic helpers *)

Lemma Qc_this_Q2Qc (q : Q) : (this (Q2Qc q) == q)%Q.
Proof. simpl. apply Qred_correct. Qed.

Lemma Qc_eq_this (x y : Qc) : x = y ↔ (this x == this y)%Q.
Proof.
  split; [intros ->; reflexivity | apply Qc_is_canon].
Qed.

(** Moves a goal about [Qc] to [Q], where [lra] decides linear arithmetic. *)
Ltac qc_unfold :=
  repeat match goal with
    | H : @eq Qc _ _ |- _ => apply Qc_eq_this in H
    | H : ¬ (@eq Qc _ _) |- _ => rewrite Qc_eq_this in H
    | |- @eq Qc _ _ => apply Qc_eq_this
    | |- ¬ (@eq Qc _ _) => rewrite Qc_eq_this
    end;
  unfold Qcle, Qclt, Qcdiv, Qcminus, Qcplus, Qcmult, Qcopp, Qcinv, Qc_of_Z in *;
  repeat (rewrite ?Qc_this_Q2Qc in *; cbn [this] in *);
  unfold inject_Z in *; cbn [Qinv Qnum Qden] in *.

Ltac qc_lra := qc_unfold; lra.

Lemma int_to_qreal_nonneg (n : nat) : 0 ≤ int_to_qreal n.
Proof. rewrite <- Z2Qc_inj_0. apply (proj1 (Z2Qc_inj_le 0 (Z.of_nat n))). lia. Qed.

Lemma int_to_qreal_S (n : nat) : int_to_qreal (S n) = int_to_qreal n + 1.
Proof.
  unfold int_to_qreal. by rewrite Nat2Z.inj_succ, <- Z.add_1_r, Z2Qc_inj_add, Z2Qc_inj_1.
Qed.

(** ** Move generation (C1) *)

Lemma qMin_glb (a b : qreal) :
  qMin a b ≤ a ∧ qMin a b ≤ b ∧ (qMin a b = a ∨ qMin a b = b).
Proof.
  unfold qMin. destruct (decide (a < b)) as [Hlt | Hge].
  - split; [apply Qcle_refl |]. split; [by apply Qclt_le_weak | by left].
  - apply Qcnot_lt_le in Hge. split; [done |]. split; [apply Qcle_refl | by right].
Qed.

Lemma genState_lookup (taskTimes : list qreal) (s : QVectorND) (i : nat) (Ti si : qreal) :
  taskTimes !! i = Some Ti →
  s !! i = Some si →
  genState taskTimes s i !! i = Some (qMin Ti (si + TIMESLICE))
  ∧ ∀ j, j ≠ i → genState taskTimes s i !! j = s !! j.
Proof.
  intros HT Hs. unfold genState, QVectorND.set, QVectorND.val.
  rewrite HT, Hs. cbn [default]. split.
  - apply list_lookup_insert_eq. by eapply lookup_lt_Some.
  - intros j Hj. by apply list_lookup_insert_ne.
Qed.

(** C1. The move generated from [s] along a task axis [i] caps the advanced
    coordinate: [s'_i] is the minimum of [T_i] and [s_i + TIMESLICE] (it is
    below both and equal to one of them), and every other coordinate, as well
    as the dimension, is that of [s]. *)
Theorem genState_coordinates (taskTimes : list qreal) (s : QVectorND) (i : nat) (Ti si : qreal) :
  taskTimes !! i = Some Ti →
  s !! i = Some si →
  let s' := genState taskTimes s i in
  (∃ x, s' !! i = Some x ∧ x ≤ Ti ∧ x ≤ si + TIMESLICE ∧ (x = Ti ∨ x = si + TIMESLICE))
  ∧ (∀ j, j ≠ i → s' !! j = s !! j)
  ∧ QVectorND.dimension s' = QVectorND.dimension s.
Proof.
  intros HT Hs s'. subst s'.
  destruct (genState_lookup taskTimes s i Ti si HT Hs) as [Hi Hother].
  split; [| split].
  - exists (qMin Ti (si + TIMESLICE)). split; [done | apply qMin_glb].
  - exact Hother.
  - unfold genState, QVectorND.set, QVectorND.dimension. apply length_insert.
Qed.

Lemma genState_coordinates_witness :
  let T := [Qc_of_Z 20; Qc_of_Z 40] in
  let s := [Qc_of_Z 15; 0] in
  (∃ x, genState T s 0 !! 0%nat = Some x ∧ x ≤ Qc_of_Z 20 ∧ x ≤ Qc_of_Z 15 + TIMESLICE
        ∧ (x = Qc_of_Z 20 ∨ x = Qc_of_Z 15 + TIMESLICE))
  ∧ (∀ j, j ≠ 0%nat → genState T s 0 !! j = s !! j)
  ∧ QVectorND.dimension (genState T s 0) = QVectorND.dimension s.
Proof.
  intros T s.
  apply (genState_coordinates T s 0 (Qc_of_Z 20) (Qc_of_Z 15)); reflexivity.
Defined.

(** ** Task times (C3) *)

Lemma flightTime_specDuration (l : list Position) :
  flightTime l = specDuration l + EVERY_X_METERS / AIRSPEED.
Proof.
  unfold flightTime, specDuration, int_to_qreal, EVERY_X_METERS, AIRSPEED.
  rewrite <- (Z.sub_add 1 (Z.of_nat (length l))) at 1.
  rewrite Z2Qc_inj_add. generalize (Qc_of_Z (Z.of_nat (length l) - 1)). intros q.
  unfold Qcdiv. rewrite Z2Qc_inj_1.
  generalize (Qc_of_Z 30) (/ Qc_of_Z 14). intros a b. ring.
Qed.

(** C3, as the code has it.  The time required by task [i] is the number of
    way points of its sub-flight times [EVERY_X_METERS / AIRSPEED]: one
    way point interval more than the [(count - 1)]-based duration. *)
Theorem taskTimes_count (P : planner) (i t : nat) :
  _tasks P !! i = Some t →
  taskTimes P !! i
    = Some (int_to_qreal (length (subFlightOf P (Some t))) * EVERY_X_METERS / AIRSPEED)
  ∧ taskTimes P !! i
    = Some (specDuration (subFlightOf P (Some t)) + EVERY_X_METERS / AIRSPEED).
Proof.
  intros Ht. unfold taskTimes. rewrite list_lookup_fmap, Ht. cbn [fmap option_fmap option_map].
  split; [reflexivity |]. by rewrite flightTime_specDuration.
Qed.

Lemma taskTimes_count_witness :
  taskTimes onePointPlanner !! 0%nat
    = Some (int_to_qreal (length (subFlightOf onePointPlanner (Some 1%nat)))
            * EVERY_X_METERS / AIRSPEED)
  ∧ taskTimes onePointPlanner !! 0%nat
    = Some (specDuration (subFlightOf onePointPlanner (Some 1%nat))
            + EVERY_X_METERS / AIRSPEED).
Proof. apply (taskTimes_count onePointPlanner 0 1). reflexivity. Defined.

(** C3 as stated fails: for a sub-flight of one way point the
    [(count - 1)]-based duration is 0, the code's task time is 30/14. *)
Lemma taskTimes_not_specDuration :
  _tasks onePointPlanner !! 0%nat = Some 1%nat
  ∧ taskTimes onePointPlanner !! 0%nat
    ≠ Some (specDuration (subFlightOf onePointPlanner (Some 1%nat))).
Proof.
  split; [reflexivity |]. intros Heq.
  assert (Hb : bool_decide (taskTimes onePointPlanner !! 0%nat
    = Some (specDuration (subFlightOf onePointPlanner (Some 1%nat)))) = true)
    by (by apply bool_decide_eq_true).
  vm_compute in Hb. discriminate.
Qed.

(** ** The interpolator (C9, C10) *)

Section InterpolatorFacts.
Context {conversions : Conversions} {math : Math}.

(** Past the end of the path the loop runs to the last segment and
    extrapolates along it. *)
Lemma interpolateLoop_past_end (rest : list Position) :
  ∀ (lastPos : Position) (d ts t : qreal) (pre : list Position) (a b : Position),
    lastPos :: rest = pre ++ [a; b] →
    (d + int_to_qreal (length rest) * EVERY_X_METERS) / AIRSPEED < t →
    interpolateLoop lastPos rest d ts t
    = ((d + int_to_qreal (length rest) * EVERY_X_METERS) / AIRSPEED,
       Some (interpolateSegment a b
               ((d + int_to_qreal (length rest) * EVERY_X_METERS) / AIRSPEED) t)).
Proof.
  induction rest as [| pos rest' IH]; intros lastPos d ts t pre a b Hsplit Ht.
  - destruct pre as [| ? [| ? ?]]; discriminate.
  - cbn [interpolateLoop length] in *.
    assert (Hnot : ¬ t ≤ (d + EVERY_X_METERS) / AIRSPEED).
    { rewrite int_to_qreal_S in Ht. pose proof (int_to_qreal_nonneg (length rest')) as Hn.
      revert Ht Hn. generalize (int_to_qreal (length rest')). intros q Ht Hn.
      unfold EVERY_X_METERS, AIRSPEED in *. qc_lra. }
    rewrite (bool_decide_eq_false_2 _ Hnot). cbn [orb].
    destruct rest' as [| pos' rest''].
    + rewrite bool_decide_eq_true_2 by done.
      assert (pre = []) as ->.
      { apply (f_equal length) in Hsplit. rewrite length_app in Hsplit.
        destruct pre; [done | cbn in Hsplit; lia]. }
      injection Hsplit as -> ->. cbn [length].
      assert (Hone : int_to_qreal 1 * EVERY_X_METERS = EVERY_X_METERS).
      { change (int_to_qreal 1) with (Qc_of_Z 1). rewrite Z2Qc_inj_1. ring. }
      by rewrite Hone.
    + rewrite bool_decide_eq_false_2 by done.
      destruct pre as [| x pre'].
      { discriminate. }
      injection Hsplit as -> Hsplit.
      assert (Heq : (d + EVERY_X_METERS + int_to_qreal (length (pos' :: rest'')) * EVERY_X_METERS)
                    = (d + int_to_qreal (S (length (pos' :: rest''))) * EVERY_X_METERS)).
      { rewrite (int_to_qreal_S (length (pos' :: rest''))). ring. }
      rewrite <- Heq in *.
      by apply (IH pos _ _ t pre' a b).
Qed.

Lemma specDuration_snoc2 (pre : list Position) (a b : Position) :
  specDuration (pre ++ [a; b])
  = (0 + int_to_qreal (length (pre ++ [a])) * EVERY_X_METERS) / AIRSPEED.
Proof.
  unfold specDuration, int_to_qreal. rewrite !length_app. cbn [length].
  replace (Z.of_nat (length pre + 2) - 1)%Z with (Z.of_nat (length pre + 1)) by lia.
  rewrite Qcplus_0_l. done.
Qed.

(** C9. With valid output pointers and a goal time [t >= 0]: an empty way
    point list makes the interpolator fail; a single point [p] yields
    [(p, startingOrientation)]; and when [t] exceeds the duration of the
    path (its [count - 1] intervals), the interpolator still reports
    success, logs the warning and returns the extrapolation along the last
    segment, from [a] to [b]: with [lastTime] the time of [a], the ratio
    [(t - lastTime) / (duration - lastTime)] of the segment's time that has
    gone by, and the unit direction from [a] to [b] in metres, the
    position is [a] moved [EVERY_X_METERS * ratio] metres in that
    direction, and the orientation is the [atan2] of the direction. *)
Theorem interpolatePath_edges (path : list Position) (o : UAVOrientation) (t : qreal)
    (p0 : Position) (o0 : UAVOrientation) :
  0 ≤ t →
  let r := _interpolatePath path o t (Some p0) (Some o0) in
  (path = [] → ok r = false)
  ∧ (∀ p, path = [p] →
       ok r = true ∧ outPosition r = Some p ∧ outOrientation r = Some o)
  ∧ (∀ pre a b, path = pre ++ [a; b] → specDuration path < t →
       let lastTime := specDuration path - EVERY_X_METERS / AIRSPEED in
       let ratio := (t - lastTime) / (specDuration path - lastTime) in
       let distToGo := EVERY_X_METERS * ratio in
       let lonPerMeter := degreesLonPerMeter (latitude b) in
       let latPerMeter := degreesLatPerMeter (latitude b) in
       let dirVecMeters :=
         normalized (mkQVector2D ((longitude b - longitude a) / lonPerMeter)
                                 ((latitude b - latitude a) / latPerMeter)) in
       ok r = true ∧ warned r = true
       ∧ outPosition r
         = Some (mkPosition (longitude a + distToGo * v2x dirVecMeters * lonPerMeter)
                            (latitude a + distToGo * v2y dirVecMeters * latPerMeter))
       ∧ outOrientation r
         = Some (mkUAVOrientation (atan2 (v2y dirVecMeters) (v2x dirVecMeters)))).
Proof.
  intros Ht r. subst r. unfold _interpolatePath.
  destruct (decide (t < 0)) as [Hneg | _].
  { by apply Qclt_not_le in Hneg. }
  split; [by intros -> | split].
  - by intros p ->.
  - intros pre a b -> Hpast. cbn zeta.
    rewrite specDuration_snoc2 in *.
    destruct pre as [| p1 pre'].
    + cbn [app].
      rewrite (interpolateLoop_past_end [b] a 0 0 t [] a b eq_refl Hpast).
      rewrite bool_decide_eq_true_2 by done.
      unfold interpolateSegment. done.
    + cbn [app]. destruct (pre' ++ [a; b]) as [| q rest] eqn:Heq.
      { by destruct pre'. }
      change ((p1 :: pre') ++ [a]) with (p1 :: pre' ++ [a]) in *.
      assert (Hl : length (p1 :: pre' ++ [a]) = length (q :: rest)).
      { rewrite <- Heq. cbn [length]. rewrite !length_app. cbn. lia. }
      rewrite Hl in *.
      assert (Hall : p1 :: q :: rest = (p1 :: pre') ++ [a; b]) by (by rewrite <- Heq).
      rewrite (interpolateLoop_past_end (q :: rest) p1 0 0 t (p1 :: pre') a b Hall Hpast).
      rewrite bool_decide_eq_true_2 by done.
      unfold interpolateSegment. done.
Qed.

(** C10. The interpolator returns false exactly when an output pointer is
    null, the goal time is negative or the way point list is empty, and then
    both outputs are what they were. *)
Theorem interpolatePath_failure (path : list Position) (o : UAVOrientation) (t : qreal)
    (outPos : option Position) (outOri : option UAVOrientation) :
  let r := _interpolatePath path o t outPos outOri in
  (ok r = false ↔ outPos = None ∨ outOri = None ∨ t < 0 ∨ path = [])
  ∧ (ok r = false → outPosition r = outPos ∧ outOrientation r = outOri).
Proof.
  intros r. subst r. unfold _interpolatePath.
  destruct outPos as [oldPos |], outOri as [oldOri |]; cbn [ok outPosition outOrientation];
    try (split; [split; [intros _; auto | done] | done]).
  destruct (decide (t < 0)) as [Hneg | Hpos]; cbn [ok outPosition outOrientation].
  { split; [split; [intros _; auto | done] | done]. }
  destruct path as [| p0 [| p1 rest]]; cbn [ok outPosition outOrientation].
  - split; [split; [intros _; auto | done] | done].
  - split; [split; [done | intros [? | [? | [? | ?]]]; done] | done].
  - destruct (interpolateLoop p0 (p1 :: rest) 0 0 t) as [ts [[pos ori] |]];
      cbn [ok outPosition outOrientation];
      (split; [split; [done | intros [? | [? | [? | ?]]]; done] | done]).
Qed.

End InterpolatorFacts.

Lemma Qc_of_Z_nonneg (z : Z) : (0 ≤ z)%Z → 0 ≤ Qc_of_Z z.
Proof. intros Hz. rewrite <- Z2Qc_inj_0. by apply (proj1 (Z2Qc_inj_le 0 z)). Qed.

Lemma interpolatePath_edges_witness :
  let path := [pt 0 0; pt 1 0; pt 2 0] in
  let r := _interpolatePath (conversions := flatConversions) (math := plainMath)
             path (mkUAVOrientation 0) (Qc_of_Z 100)
             (Some (pt 9 9)) (Some (mkUAVOrientation 1)) in
  let lastTime := specDuration path - EVERY_X_METERS / AIRSPEED in
  let ratio := (Qc_of_Z 100 - lastTime) / (specDuration path - lastTime) in
  let distToGo := EVERY_X_METERS * ratio in
  let lonPerMeter := degreesLonPerMeter (Conversions := flatConversions) (latitude (pt 2 0)) in
  let latPerMeter := degreesLatPerMeter (Conversions := flatConversions) (latitude (pt 2 0)) in
  let dirVecMeters :=
    normalized (Math := plainMath)
      (mkQVector2D ((longitude (pt 2 0) - longitude (pt 1 0)) / lonPerMeter)
                   ((latitude (pt 2 0) - latitude (pt 1 0)) / latPerMeter)) in
  ok r = true ∧ warned r = true
  ∧ outPosition r
    = Some (mkPosition (longitude (pt 1 0) + distToGo * v2x dirVecMeters * lonPerMeter)
                       (latitude (pt 1 0) + distToGo * v2y dirVecMeters * latPerMeter))
  ∧ outOrientation r
    = Some (mkUAVOrientation (atan2 (Math := plainMath) (v2y dirVecMeters) (v2x dirVecMeters))).
Proof.
  intros path r lastTime ratio distToGo lonPerMeter latPerMeter dirVecMeters.
  refine (proj2 (proj2 (interpolatePath_edges (conversions := flatConversions)
            (math := plainMath) path (mkUAVOrientation 0) (Qc_of_Z 100)
            (pt 9 9) (mkUAVOrientation 1) _)) [pt 0 0] (pt 1 0) (pt 2 0) eq_refl _).
  - apply Qc_of_Z_nonneg. lia.
  - reflexivity.
Defined.

(** ** Slices of a sub-flight *)

Lemma mapM_lookup_seqZ {A} (l : list A) (k : nat) :
  ∀ lo : nat, (lo + k ≤ length l)%nat →
    mapM (λ i : Z, if decide (0 ≤ i)%Z then l !! Z.to_nat i else None)
         (seqZ (Z.of_nat lo) (Z.of_nat k))
    = Some (take k (drop lo l)).
Proof.
  induction k as [| k IH]; intros lo Hle.
  - done.
  - rewrite seqZ_cons by lia.
    destruct (lookup_lt_is_Some_2 l lo) as [x Hx]; [lia |].
    cbn [mapM]. rewrite decide_True by lia. rewrite Nat2Z.id, Hx. cbn [mbind option_bind].
    replace (Z.succ (Z.of_nat lo)) with (Z.of_nat (S lo)) by lia.
    replace (Z.pred (Z.of_nat (S k))) with (Z.of_nat k) by lia.
    rewrite (IH (S lo)) by lia. cbn [mbind option_bind mret option_ret].
    f_equal. rewrite (drop_S l x lo Hx). done.
Qed.

Lemma qreal_to_int_nonneg (x : qreal) : 0 ≤ x → qreal_to_int x = Qfloor x ∧ (0 ≤ Qfloor x)%Z.
Proof.
  intros Hx. unfold qreal_to_int. rewrite decide_True by done. split; [done |].
  change 0%Z with (Qfloor 0). apply Qfloor_resp_le. exact Hx.
Qed.

Lemma time_to_index_nonneg (t : qreal) : 0 ≤ t → 0 ≤ t * AIRSPEED / EVERY_X_METERS.
Proof.
  intros Ht. unfold EVERY_X_METERS, AIRSPEED. qc_lra.
Qed.

Lemma getPathPortion_slice (path : list Position) (t1 t2 : qreal) :
  0 ≤ t1 → 0 ≤ t2 →
  (waypointIndex t2 ≤ length path)%nat →
  _getPathPortion path t1 t2 = Some (slice path (waypointIndex t1) (waypointIndex t2)).
Proof.
  intros H1 H2 Hlen. unfold _getPathPortion, slice, waypointIndex in *.
  destruct (qreal_to_int_nonneg _ (time_to_index_nonneg t1 H1)) as [-> Hlo].
  destruct (qreal_to_int_nonneg _ (time_to_index_nonneg t2 H2)) as [-> Hhi].
  revert Hlo Hhi Hlen.
  generalize (Qfloor (t1 * AIRSPEED / EVERY_X_METERS)%Qc).
  generalize (Qfloor (t2 * AIRSPEED / EVERY_X_METERS)%Qc).
  intros hi lo Hlo Hhi Hlen.
  destruct (decide (lo ≤ hi)%Z) as [Hle | Hgt].
  - rewrite <- (Z2Nat.id lo Hlo) at 1.
    replace (hi - lo)%Z with (Z.of_nat (Z.to_nat hi - Z.to_nat lo)) by lia.
    apply mapM_lookup_seqZ. lia.
  - replace (Z.to_nat hi - Z.to_nat lo)%nat with 0%nat by lia.
    unfold seqZ. replace (Z.to_nat (hi - lo)) with 0%nat by lia. done.
Qed.

Section Reconstruction.
Context {conversions : Conversions} {math : Math} {planning : IntermediatePlanner}.
Variable P : planner.

Local Abbreviation specPrefix := (specPrefix P).

(** For a pair [(prev, cur)] with [i = lastAxis(cur)], where [prev] is the
    origin or has a recorded last axis and the slice lies within the
    sub-flight, one turn of the reconstruction appends the prefix and then
    the slice. *)
Lemma replayInterval_appends (st : search) (prev cur : QVectorND) (path : list Position)
    (i : nat) :
  lastTasks st !! cur = Some i →
  prev = startState P ∨ is_Some (lastTasks st !! prev) →
  0 ≤ QVectorND.val prev i →
  0 ≤ QVectorND.val cur i →
  (waypointIndex (QVectorND.val cur i) ≤ length (subFlightOf P (_tasks P !! i)))%nat →
  replayInterval P st prev cur path
  = Some (path ++ specPrefix st prev cur i
               ++ slice (subFlightOf P (_tasks P !! i))
                    (waypointIndex (QVectorND.val prev i))
                    (waypointIndex (QVectorND.val cur i))).
Proof.
  intros Hcur Hprev Hp Hc Hlen. unfold replayInterval, specPrefix. cbv zeta.
  rewrite Hcur. cbn [default]. unfold id.
  rewrite (getPathPortion_slice _ _ _ Hp Hc Hlen). cbn [mbind option_bind].
  f_equal. rewrite app_assoc. f_equal.
  destruct (decide (prev = startState P)) as [Ho | Hno]; [done |].
  destruct Hprev as [? | [j Hj]]; [done |]. rewrite Hj. cbn [default]. unfold id.
  destruct (decide (j ≠ i)) as [Hji | Hji].
  - rewrite decide_True by congruence. done.
  - rewrite decide_False; [by rewrite app_nil_r | ]. intros Hne. apply Hne. f_equal.
    by apply dec_stable.
Qed.

End Reconstruction.

(** ** Invariants of the schedule search *)

Lemma worklist_insert_Permutation (k : qreal) (v : QVectorND) (w : list (qreal * QVectorND)) :
  (worklist_insert k v w).*2 ≡ₚ v :: w.*2.
Proof.
  induction w as [| [k' v'] w IH]; cbn [worklist_insert]; [done |].
  destruct (decide (k' < k)); [| done].
  cbn [fmap list_fmap snd]. cbn [fmap] in IH. rewrite IH. apply Permutation_swap.
Qed.

Lemma flightTime_nonneg (l : list Position) : 0 ≤ flightTime l.
Proof.
  unfold flightTime. pose proof (int_to_qreal_nonneg (length l)) as Hn.
  revert Hn. generalize (int_to_qreal (length l)). intros q Hn.
  unfold EVERY_X_METERS, AIRSPEED. qc_lra.
Qed.

Section SearchInvariant.
Context {conversions : Conversions} {math : Math} {planning : IntermediatePlanner}.
Variable Position0 : Position.
Variable UAVOrientation0 : UAVOrientation.
Variable P : planner.

Local Abbreviation expand := (expandAxis Position0 UAVOrientation0 P).
Local Abbreviation turnOf := (searchTurn Position0 UAVOrientation0 P).
Local Abbreviation T := (taskTimes P).
Local Abbreviation N := (length (_tasks P)).
Local Abbreviation start := (startState P).
Local Abbreviation reachable := (reachable Position0 UAVOrientation0 P).
Local Abbreviation wf := (wf P).
Local Abbreviation wf_nodup := (wf_nodup P).
Local Abbreviation wf_closed := (wf_closed P).
Local Abbreviation wf_head := (wf_head P).
Local Abbreviation wf_lastTasks := (wf_lastTasks P).
Local Abbreviation wf_parents_dom := (wf_parents_dom P).
Local Abbreviation wf_parents_order := (wf_parents_order P).
Local Abbreviation wf_move := (wf_move P).
Local Abbreviation wf_dimension := (wf_dimension P).
Local Abbreviation wf_bounds := (wf_bounds P).

Lemma taskTimes_length : length T = N.
Proof. unfold taskTimes. by rewrite length_fmap. Qed.

Lemma taskTimes_nonneg (i : nat) (Ti : qreal) : T !! i = Some Ti → 0 ≤ Ti.
Proof.
  unfold taskTimes. rewrite list_lookup_fmap. destruct (_tasks P !! i); [| done].
  intros [= <-]. apply flightTime_nonneg.
Qed.

Lemma start_length : length start = N.
Proof. unfold startState, QVectorND.zeros. by rewrite length_replicate. Qed.

Lemma genState_length (s : QVectorND) (i : nat) : length (genState T s i) = length s.
Proof. unfold genState, QVectorND.set. apply length_insert. Qed.

(** The fields of the search after a fresh state was generated. *)
Lemma expandAxis_fresh (s : QVectorND) (st : search) (i : nat) :
  genState T s i ∉ closedSet st →
  ∃ cost tf,
    expand s st i
    = mkSearch (<[genState T s i := s]> (parents st)) (<[genState T s i := i]> (lastTasks st))
        tf (worklist_insert cost (genState T s i) (worklist st))
        ({[genState T s i]} ∪ closedSet st) (schedule st) (expanded st).
Proof.
  intros Hfresh. unfold expandAxis. rewrite decide_False by done.
  repeat match goal with
  | |- context [let '(_, _) := (if ?c then _ else _) in _] => destruct c
  | |- context [let '(_, _) := interpolateInto ?a ?b ?c ?d ?e in _] =>
      destruct (interpolateInto a b c d e)
  end; eauto.
Qed.

(** A state that is already closed is not generated again. *)
Lemma expandAxis_closed (s : QVectorND) (st : search) (i : nat) :
  genState T s i ∈ closedSet st → expand s st i = st.
Proof. intros Hin. unfold expandAxis. by rewrite decide_True. Qed.

Lemma seen_expandAxis (s : QVectorND) (st : search) (i : nat) :
  genState T s i ∉ closedSet st →
  seen (expand s st i) ≡ₚ genState T s i :: seen st.
Proof.
  intros Hfresh. destruct (expandAxis_fresh s st i Hfresh) as (cost & tf & ->).
  unfold seen. cbn [expanded worklist].
  rewrite worklist_insert_Permutation. by rewrite Permutation_middle.
Qed.

Lemma wf_start_seen (st : search) : wf st → start ∈ expanded st.
Proof.
  intros Hwf. pose proof (wf_head st Hwf) as Hh.
  destruct (expanded st); [done |]. injection Hh as ->. left.
Qed.

Lemma wf_expandAxis (s : QVectorND) (st : search) (i : nat) :
  wf st → s ∈ expanded st → (i < N)%nat → wf (expand s st i).
Proof.
  intros Hwf Hs Hi.
  destruct (decide (genState T s i ∈ closedSet st)) as [Hin | Hfresh].
  { by rewrite expandAxis_closed. }
  pose proof (seen_expandAxis s st i Hfresh) as Hperm.
  assert (Hnew : genState T s i ∉ seen st) by (by rewrite <- (wf_closed st Hwf)).
  assert (Hseen : ∀ x, x ∈ seen (expand s st i) ↔ x = genState T s i ∨ x ∈ seen st).
  { intros x. by rewrite Hperm, elem_of_cons. }
  assert (Hstart : genState T s i ≠ start).
  { intros Heq. apply Hnew. rewrite Heq. unfold seen. apply elem_of_app. left.
    by apply wf_start_seen. }
  assert (Hsseen : s ∈ seen st) by (unfold seen; apply elem_of_app; by left).
  assert (Hslen : length s = N) by (by apply (wf_dimension st Hwf)).
  destruct (expandAxis_fresh s st i Hfresh) as (cost & tf & Heq).
  split.
  - rewrite Hperm. apply NoDup_cons. split; [done | apply (wf_nodup st Hwf)].
  - intros x. rewrite Hseen. rewrite Heq. cbn [closedSet].
    rewrite elem_of_union, elem_of_singleton. by rewrite (wf_closed st Hwf).
  - rewrite Heq. cbn [expanded]. apply (wf_head st Hwf).
  - intros x. rewrite Hseen. rewrite Heq. cbn [lastTasks].
    destruct (decide (x = genState T s i)) as [-> | Hne].
    + rewrite lookup_insert_eq. split; [intros _; split; [by left | done] | by eauto].
    + rewrite lookup_insert_ne by done. rewrite (wf_lastTasks st Hwf).
      split; [intros [Hx Hxs]; split; [by right | done] | intros [[-> | Hx] Hxs]; [done | by split]].
  - intros x. rewrite Hseen. rewrite Heq. cbn [parents].
    destruct (decide (x = genState T s i)) as [-> | Hne].
    + rewrite lookup_insert_eq. split; [intros _; split; [by left | done] | by eauto].
    + rewrite lookup_insert_ne by done. rewrite (wf_parents_dom st Hwf).
      split; [intros [Hx Hxs]; split; [by right | done] | intros [[-> | Hx] Hxs]; [done | by split]].
  - intros c p. rewrite Heq. cbn [parents expanded].
    destruct (decide (c = genState T s i)) as [-> | Hne].
    + rewrite lookup_insert_eq. intros [= <-].
      apply list_elem_of_lookup in Hs as [k Hk]. exists k. split; [done |].
      intros k' Hk'. exfalso. apply Hnew. unfold seen. apply elem_of_app. left.
      by eapply list_elem_of_lookup_2.
    + rewrite lookup_insert_ne by done. apply (wf_parents_order st Hwf).
  - intros c p. rewrite Heq. cbn [parents lastTasks].
    destruct (decide (c = genState T s i)) as [-> | Hne].
    + rewrite !lookup_insert_eq. intros [= <-]. by exists i.
    + rewrite !lookup_insert_ne by done. apply (wf_move st Hwf).
  - intros x. rewrite Hseen. intros [-> | Hx].
    + by rewrite genState_length.
    + by apply (wf_dimension st Hwf).
  - intros x j v Tj. rewrite Hseen. intros [-> | Hx]; [| by apply (wf_bounds st Hwf)].
    intros Hv HTj. destruct (decide (j = i)) as [-> | Hji].
    + destruct (lookup_lt_is_Some_2 s i) as [si Hsi]; [lia |].
      destruct (genState_lookup T s i Tj si HTj Hsi) as [Hy _].
      rewrite Hy in Hv. injection Hv as <-.
      destruct (qMin_glb Tj (si + TIMESLICE)) as (HyT & _ & Hcase). split; [| done].
      pose proof (taskTimes_nonneg i Tj HTj) as HT0.
      destruct (wf_bounds st Hwf s i si Tj Hsseen Hsi HTj) as [Hs0 _].
      destruct Hcase as [-> | ->]; [done |].
      revert Hs0. unfold TIMESLICE. generalize si. intros q Hq. qc_lra.
    + unfold genState, QVectorND.set in Hv. rewrite list_lookup_insert_ne in Hv by done.
      by apply (wf_bounds st Hwf s j v Tj).
Qed.

Lemma expandAxis_expanded (s : QVectorND) (st : search) (i : nat) :
  expanded (expand s st i) = expanded st.
Proof.
  destruct (decide (genState T s i ∈ closedSet st)) as [Hin | Hfresh].
  - by rewrite expandAxis_closed.
  - by destruct (expandAxis_fresh s st i Hfresh) as (cost & tf & ->).
Qed.

Lemma expandAxis_schedule (s : QVectorND) (st : search) (i : nat) :
  schedule (expand s st i) = schedule st.
Proof.
  destruct (decide (genState T s i ∈ closedSet st)) as [Hin | Hfresh].
  - by rewrite expandAxis_closed.
  - by destruct (expandAxis_fresh s st i Hfresh) as (cost & tf & ->).
Qed.

(** The loop over the axes keeps the invariant. *)
Lemma wf_expandAxes (s : QVectorND) (axes : list nat) :
  ∀ st, wf st → s ∈ expanded st → Forall (λ i, i < N)%nat axes →
    wf (foldl (expand s) st axes)
    ∧ expanded (foldl (expand s) st axes) = expanded st
    ∧ schedule (foldl (expand s) st axes) = schedule st.
Proof.
  induction axes as [| i axes IH]; intros st Hwf Hs Hall; [done |].
  apply Forall_cons in Hall as [Hi Hall]. cbn [foldl].
  destruct (IH (expand s st i)) as (Hwf' & Hexp & Hsch).
  - by apply wf_expandAxis.
  - by rewrite expandAxis_expanded.
  - done.
  - rewrite Hexp, Hsch, expandAxis_expanded, expandAxis_schedule. done.
Qed.

Lemma wf_popped_initial : wf (popped (initialSearch P) start []).
Proof.
  split; unfold seen; cbn.
  - apply NoDup_singleton.
  - intros s. rewrite elem_of_union, elem_of_singleton, list_elem_of_singleton.
    split; [intros [? | ?]; [done | set_solver] | by left].
  - done.
  - intros s. rewrite lookup_empty, list_elem_of_singleton.
    split; [by intros [? ?] | by intros [? ?]].
  - intros s. rewrite lookup_empty, list_elem_of_singleton.
    split; [by intros [? ?] | by intros [? ?]].
  - intros c p. by rewrite lookup_empty.
  - intros c p. by rewrite lookup_empty.
  - intros s. rewrite list_elem_of_singleton. intros ->. apply start_length.
  - intros s i x Ti. rewrite list_elem_of_singleton. intros -> Hx HT.
    unfold startState, QVectorND.zeros in Hx. apply lookup_replicate in Hx as [-> _].
    split; [done | by eapply taskTimes_nonneg].
Qed.

Lemma wf_popped (st : search) (k : qreal) (state : QVectorND) (rest : list (qreal * QVectorND)) :
  wf st → worklist st = (k, state) :: rest → wf (popped st state rest).
Proof.
  intros Hwf Hw.
  assert (Hseen : seen (popped st state rest) = seen st).
  { unfold seen, popped. cbn [expanded worklist]. rewrite Hw. cbn [fmap list_fmap snd].
    by rewrite <- app_assoc. }
  assert (Hin : state ∈ seen st).
  { unfold seen. rewrite Hw. apply elem_of_app. right. left. }
  assert (Hfresh : state ∉ expanded st).
  { pose proof (wf_nodup st Hwf) as Hnd. unfold seen in Hnd. rewrite Hw in Hnd.
    apply NoDup_app in Hnd as (_ & Hdisj & _). intros Hex. apply (Hdisj _ Hex). left. }
  split; rewrite ?Hseen; try apply Hwf.
  - intros s. cbn [popped closedSet]. rewrite elem_of_union, elem_of_singleton.
    rewrite (wf_closed st Hwf). split; [intros [-> | ?]; done | by right].
  - cbn [popped expanded]. pose proof (wf_head st Hwf) as Hh.
    destruct (expanded st); [done | done].
  - intros c p Hcp. cbn [popped parents expanded] in *.
    destruct (wf_parents_order st Hwf c p Hcp) as (j & Hj & Hlt).
    exists j. split; [by apply lookup_app_l_Some |].
    intros k' Hk'. apply lookup_app_Some in Hk' as [Hk' | [Hge Hk']]; [by apply Hlt |].
    apply lookup_lt_Some in Hj. lia.
Qed.

Lemma wf_popped_reached (st : search) (k : qreal) (state : QVectorND)
    (rest : list (qreal * QVectorND)) :
  st = initialSearch P ∨ wf st → worklist st = (k, state) :: rest →
  wf (popped st state rest).
Proof.
  intros [-> | Hwf] Hw; [| by eapply wf_popped].
  injection Hw as <- <- <-. apply wf_popped_initial.
Qed.

Lemma popped_last (st : search) (state : QVectorND) (rest : list (qreal * QVectorND)) :
  expanded (popped st state rest) !! length (expanded st) = Some state.
Proof. cbn [popped expanded]. by rewrite lookup_app_r, Nat.sub_diag. Qed.

Lemma reachable_wf (st : search) :
  reachable st → (st = initialSearch P ∨ wf st) ∧ schedule st = [].
Proof.
  induction 1 as [| st st' Hr [IH Hsched] Hstep]; [by split; [left |] |].
  unfold searchTurn in Hstep.
  destruct (worklist st) as [| [k state] rest] eqn:Hw; [done |].
  fold (popped st state rest) in Hstep.
  destruct (decide (state = endState P)) as [Hgoal | Hgoal].
  { destruct (traceback _ _ _ _); done. }
  injection Hstep as <-.
  pose proof (wf_popped_reached st k state rest IH Hw) as Hwf.
  destruct (wf_expandAxes state (seq 0 (QVectorND.dimension state)) (popped st state rest))
    as (Hwf' & _ & Hsch); [done | | | ].
  - eapply list_elem_of_lookup_2, popped_last.
  - apply Forall_forall. intros i Hi. apply elem_of_seq in Hi.
    assert (Hlen : length state = N).
    { apply (wf_dimension _ Hwf). unfold seen. apply elem_of_app. left.
      eapply list_elem_of_lookup_2, popped_last. }
    unfold QVectorND.dimension in Hi. lia.
  - split; [by right | by rewrite Hsch].
Qed.

(** The traceback follows the parents backwards through the expanded
    states: it ends at the origin within [k + 1] turns when started from
    the state expanded at position [k]. *)
Lemma traceback_chain (st : search) :
  wf st →
  ∀ (k : nat) (cur : QVectorND) (fuel : nat) (acc : list QVectorND),
    expanded st !! k = Some cur → (k < fuel)%nat →
    ∃ chain, traceback fuel (parents st) cur acc = Some (chain ++ acc)
      ∧ chain `sublist_of` take (S k) (expanded st)
      ∧ head chain = Some start
      ∧ last chain = Some cur.
Proof.
  intros Hwf k. induction k as [k IH] using lt_wf_ind.
  intros cur fuel acc Hk Hfuel. destruct fuel as [| fuel]; [lia |].
  cbn [traceback].
  assert (Hsingle : [cur] `sublist_of` take (S k) (expanded st)).
  { rewrite (take_S_r _ _ _ Hk). apply sublist_inserts_l. done. }
  destruct (parents st !! cur) as [p |] eqn:Hp.
  - destruct (wf_parents_order st Hwf cur p Hp) as (j & Hj & Hlt).
    specialize (Hlt k Hk).
    destruct (IH j Hlt p fuel (cur :: acc) Hj) as (chain & Hrun & Hsub & Hhd & Hlast); [lia |].
    exists (chain ++ [cur]). split; [by rewrite <- app_assoc |]. split; [| split].
    + rewrite (take_S_r _ _ _ Hk). apply sublist_app; [| done].
      etrans; [exact Hsub |].
      replace (take (S j) (expanded st)) with (take (S j) (take k (expanded st))).
      * apply sublist_take.
      * rewrite take_take. f_equal. lia.
    + destruct chain; [done | done].
    + by rewrite last_snoc.
  - exists [cur]. split; [done |]. split; [done |]. split; [| done].
    cbn [head]. f_equal.
    destruct (decide (cur = start)) as [-> | Hne]; [done |].
    assert (Hsome : is_Some (parents st !! cur)).
    { apply (wf_parents_dom st Hwf). split; [| done]. unfold seen. apply elem_of_app. left.
      by eapply list_elem_of_lookup_2. }
    rewrite Hp in Hsome. by destruct Hsome.
Qed.

(** The parent table has an entry for every expanded state but the
    origin, so [size parents + 1] turns are enough for the traceback. *)
Lemma expanded_le_parents (st : search) :
  wf st → (length (expanded st) ≤ S (size (parents st)))%nat.
Proof.
  intros Hwf. pose proof (wf_head st Hwf) as Hh.
  destruct (expanded st) as [| s0 tl] eqn:Hexp; [done |]. injection Hh as ->.
  cbn [length]. apply le_n_S.
  pose proof (wf_nodup st Hwf) as Hnd. unfold seen in Hnd. rewrite Hexp in Hnd.
  apply NoDup_app in Hnd as (Hnd & _ & _). apply NoDup_cons in Hnd as [Hstart Hnd].
  rewrite <- (size_list_to_set (C := gset QVectorND) tl Hnd), <- size_dom.
  apply subseteq_size. intros x Hx. apply elem_of_list_to_set in Hx.
  apply elem_of_dom, (wf_parents_dom st Hwf). split.
  - unfold seen. rewrite Hexp. apply elem_of_app. left. by right.
  - intros ->. done.
Qed.

(** When the goal is popped the traceback succeeds; the schedule runs from
    the origin to the goal through expanded states, in the order in which
    they were expanded. *)
Lemma found_schedule (st st' : search) :
  reachable st → turnOf st = Found st' →
  wf st'
  ∧ schedule st' `sublist_of` expanded st'
  ∧ head (schedule st') = Some start
  ∧ last (schedule st') = Some (endState P).
Proof.
  intros Hr Hstep. destruct (reachable_wf st Hr) as [Hinv Hsched].
  unfold searchTurn in Hstep.
  destruct (worklist st) as [| [k state] rest] eqn:Hw; [done |].
  fold (popped st state rest) in Hstep.
  destruct (decide (state = endState P)) as [Hgoal | Hgoal]; [| done].
  pose proof (wf_popped_reached st k state rest Hinv Hw) as Hwf.
  destruct (traceback_chain _ Hwf (length (expanded st)) state
              (S (size (parents (popped st state rest)))) (schedule (popped st state rest)))
    as (chain & Hrun & Hsub & Hhd & Hlast).
  - apply popped_last.
  - pose proof (expanded_le_parents _ Hwf) as Hle. cbn [popped expanded] in Hle.
    rewrite length_app in Hle. cbn [length] in Hle. lia.
  - rewrite Hrun in Hstep. injection Hstep as <-. cbn [schedule expanded popped] in *.
    rewrite Hsched, app_nil_r.
    split; [by destruct Hwf | split; [| split]].
    + etrans; [exact Hsub | apply sublist_take].
    + done.
    + by rewrite Hlast, Hgoal.
Qed.

Lemma turn_not_stuck (st : search) : reachable st → turnOf st ≠ Stuck.
Proof.
  intros Hr Hstep. destruct (reachable_wf st Hr) as [Hinv Hsched].
  unfold searchTurn in Hstep.
  destruct (worklist st) as [| [k state] rest] eqn:Hw; [done |].
  fold (popped st state rest) in Hstep.
  destruct (decide (state = endState P)) as [Hgoal | Hgoal]; [| done].
  pose proof (wf_popped_reached st k state rest Hinv Hw) as Hwf.
  destruct (traceback_chain _ Hwf (length (expanded st)) state
              (S (size (parents (popped st state rest)))) (schedule (popped st state rest)))
    as (chain & Hrun & _).
  - apply popped_last.
  - pose proof (expanded_le_parents _ Hwf) as Hle. cbn [popped expanded] in Hle.
    rewrite length_app in Hle. cbn [length] in Hle. lia.
  - by rewrite Hrun in Hstep.
Qed.

(** C5. In every state the search reaches: each expanded (popped) state is
    in the closed set and so is each generated state waiting in the work
    list; generating a state that is already closed changes nothing, and a
    fresh state is closed as it is generated; no state was expanded twice
    nor waits to be; the traceback never runs out of fuel; and when the goal
    is popped the schedule holds each progress state at most once. *)
Theorem closed_set_no_revisit (st : search) :
  reachable st →
  (∀ s, s ∈ expanded st → s ∈ closedSet st)
  ∧ (∀ s, s ∈ (worklist st).*2 → s ∈ closedSet st ∨ st = initialSearch P)
  ∧ (∀ s i, genState T s i ∈ closedSet st → expand s st i = st)
  ∧ (∀ s i, genState T s i ∉ closedSet st →
       genState T s i ∈ closedSet (expand s st i)
       ∧ genState T s i ∈ (worklist (expand s st i)).*2)
  ∧ NoDup (expanded st ++ (worklist st).*2)
  ∧ turnOf st ≠ Stuck
  ∧ (∀ st', turnOf st = Found st' →
       (∀ s, s ∈ expanded st' → s ∈ closedSet st')
       ∧ NoDup (expanded st') ∧ NoDup (schedule st')).
Proof.
  intros Hr. destruct (reachable_wf st Hr) as [Hinv _].
  split; [| split; [| split; [| split; [| split; [| split]]]]].
  - destruct Hinv as [-> | Hwf]; [by intros s Hs; apply elem_of_nil in Hs |].
    intros s Hs. apply (wf_closed st Hwf). unfold seen. apply elem_of_app. by left.
  - destruct Hinv as [-> | Hwf]; [by right |].
    intros s Hs. left. apply (wf_closed st Hwf). unfold seen. apply elem_of_app. by right.
  - intros s i. apply expandAxis_closed.
  - intros s i Hfresh.
    split.
    + destruct (expandAxis_fresh s st i Hfresh) as (cost & tf & ->). cbn [closedSet].
      apply elem_of_union. left. by apply elem_of_singleton.
    + destruct (expandAxis_fresh s st i Hfresh) as (cost & tf & ->). cbn [worklist].
      rewrite worklist_insert_Permutation. left.
  - destruct Hinv as [-> | Hwf]; [apply NoDup_singleton | apply (wf_nodup st Hwf)].
  - by apply turn_not_stuck.
  - intros st' Hfound.
    destruct (found_schedule st st' Hr Hfound) as (Hwf' & Hsub & _).
    assert (Hnd : NoDup (expanded st')).
    { pose proof (wf_nodup st' Hwf') as Hnd. unfold seen in Hnd.
      by apply NoDup_app in Hnd as (Hnd & _). }
    split; [| split; [done | by eapply sublist_NoDup]].
    intros s Hs. apply (wf_closed st' Hwf'). unfold seen. apply elem_of_app. by left.
Qed.

End SearchInvariant.

Lemma exampleSearch_turn (k : nat) :
  (k < 3)%nat → exampleTurn (exampleSearch k) = Next (exampleSearch (S k)).
Proof.
  intros Hk. destruct k as [| [| [| k]]]; [vm_compute; reflexivity .. | lia].
Qed.

Lemma exampleSearch_reachable (n : nat) :
  (n ≤ 3)%nat → exampleReachable (exampleSearch n).
Proof.
  intros Hn.
  induction n as [| n IH]; [apply reachable_init |].
  apply (reachable_next _ _ _ (exampleSearch n)); [apply IH; lia | apply exampleSearch_turn; lia].
Qed.

Lemma exampleSearch_found : exampleTurn (exampleSearch 3) = Found exampleFound.
Proof. vm_compute. reflexivity. Qed.

Lemma closed_set_no_revisit_witness :
  exampleReachable (exampleSearch 3)
  ∧ NoDup (expanded (exampleSearch 3) ++ (worklist (exampleSearch 3)).*2)
  ∧ NoDup (schedule exampleFound).
Proof.
  pose proof (closed_set_no_revisit (conversions := flatConversions) (math := plainMath)
                (planning := directPlanner) (pt 0 0) (mkUAVOrientation 0) twoTaskPlanner
                (exampleSearch 3) (exampleSearch_reachable 3 (le_n 3)))
    as (_ & _ & _ & _ & Hnd & _ & Hfound).
  split; [exact (exampleSearch_reachable 3 (le_n 3)) | split; [exact Hnd |]].
  apply (Hfound exampleFound exampleSearch_found).
Defined.

(** ** The cost of a move (C2) *)

Lemma indexOf_lookup (l : list nat) (j t : nat) :
  NoDup l → l !! j = Some t → indexOf l (Some t) = Some j.
Proof.
  intros Hnd Hj. unfold indexOf.
  assert (Hfind : list_find (λ x, Some t = Some x) l = Some (j, t)).
  { apply list_find_Some. split; [done |]. split; [done |].
    intros j' y Hj' Hlt [= <-].
    pose proof (NoDup_lookup l j j' t Hnd Hj Hj'). lia. }
  by rewrite Hfind.
Qed.

Section SearchCost.
Context {conversions : Conversions} {math : Math} {planning : IntermediatePlanner}.
Variable Position0 : Position.
Variable UAVOrientation0 : UAVOrientation.
Variable P : planner.

Local Abbreviation expand := (expandAxis Position0 UAVOrientation0 P).
Local Abbreviation interpolated := (interpolateInto Position0 UAVOrientation0).
Local Abbreviation T := (taskTimes P).
Local Abbreviation N := (length (_tasks P)).
Local Abbreviation start := (startState P).
Local Abbreviation specTransition := (specTransition Position0 UAVOrientation0 P).
Local Abbreviation specCost := (specCost Position0 UAVOrientation0 P).
Local Abbreviation claimedCost := (claimedCost Position0 UAVOrientation0 P).

Lemma manhattan_spec (goal s : QVectorND) :
  length s = length goal →
  QVectorND.manhattanDistance (QVectorND.minus goal s) = specManhattan goal s.
Proof.
  unfold QVectorND.manhattanDistance, QVectorND.minus, specManhattan.
  revert s. induction goal as [| g goal IH]; intros [| x s] Hlen; try done.
  cbn [zip_with foldr length seq]. f_equal.
  rewrite (IH s) by (cbn in Hlen; lia).
  rewrite <- fmap_S_seq, foldr_fmap. done.
Qed.

(** C2, as the code has it.  With pairwise distinct tasks, when the
    search, expanding the popped state [s], reaches axis [i] and the move
    yields a fresh state [s']: [s] has no recorded last axis exactly when
    it is the origin, and [s'] enters the work list under the key
    [manhattan(goal - s) + switchPenalty(s, i)], where the penalty is the
    time [count * EVERY_X_METERS / AIRSPEED] of the start transition of
    task [i]'s area when [s] has no last axis, zero when the last axis is
    [i], and otherwise the time, counted likewise, of the intermediate
    flight between the interpolations at [s_j] and at [s_i]; in that last
    case only, the flight is recorded under [s'].  The key is the cost of
    the claim, whose penalty is a duration of [count - 1] intervals, plus
    one way point interval whenever the penalty is that of a flight. *)
Theorem expandAxis_cost (st0 : search) (k : qreal) (s : QVectorND)
    (rest : list (qreal * QVectorND)) (i : nat) :
  NoDup (_tasks P) →
  reachable Position0 UAVOrientation0 P st0 →
  worklist st0 = (k, s) :: rest →
  (i < N)%nat →
  let st := foldl (expand s) (popped st0 s rest) (seq 0 i) in
  let s' := genState T s i in
  s' ∉ closedSet st →
  (lastTasks st !! s = None ↔ s = start)
  ∧ worklist (expand s st i) = worklist_insert (specCost st s i) s' (worklist st)
  ∧ transitionFlights (expand s st i)
    = match specTransition st s i with
      | Some flight => <[s' := flight]> (transitionFlights st)
      | None => transitionFlights st
      end
  ∧ specCost st s i
    = claimedCost st s i
      + (if decide (lastTasks st !! s = Some i) then 0 else EVERY_X_METERS / AIRSPEED).
Proof.
  intros Hnd Hr Hw Hi st s' Hfresh.
  assert (Hclaimed : specCost st s i
    = claimedCost st s i
      + (if decide (lastTasks st !! s = Some i) then 0 else EVERY_X_METERS / AIRSPEED)).
  { unfold specCost, claimedCost, specSwitchPenalty, claimedSwitchPenalty.
    destruct (lastTasks st !! s) as [j |] eqn:Hj.
    - unfold specTransition. rewrite Hj.
      destruct (decide (j = i)) as [-> | Hji].
      + rewrite decide_True by done. ring.
      + rewrite decide_False by congruence.
        destruct (interpolated _ _ (QVectorND.val s j)) as [posJ poseJ].
        destruct (interpolated _ _ (QVectorND.val s i)) as [posI poseI].
        rewrite flightTime_specDuration. generalize (EVERY_X_METERS / AIRSPEED). intros e. ring.
    - rewrite decide_False by done.
      rewrite flightTime_specDuration. generalize (EVERY_X_METERS / AIRSPEED). intros e. ring. }
  destruct (reachable_wf _ _ _ st0 Hr) as [Hinv _].
  pose proof (wf_popped_reached P st0 k s rest Hinv Hw) as Hwf0.
  assert (Hs0 : s ∈ expanded (popped st0 s rest))
    by (eapply list_elem_of_lookup_2, popped_last).
  destruct (wf_expandAxes Position0 UAVOrientation0 P s (seq 0 i) (popped st0 s rest))
    as (Hwf & Hexp & _); [done | done | |].
  { apply Forall_forall. intros j Hj. apply elem_of_seq in Hj. lia. }
  fold st in Hwf, Hexp.
  assert (Hs : s ∈ seen st) by (unfold seen; rewrite Hexp; apply elem_of_app; by left).
  assert (Hne : s' ≠ s).
  { intros Heq. apply Hfresh. rewrite Heq. by apply (wf_closed P st Hwf). }
  assert (Hlen : length s = length (endState P)).
  { unfold endState. rewrite taskTimes_length. by apply (wf_dimension P st Hwf). }
  assert (Horigin : lastTasks st !! s = None ↔ s = start).
  { pose proof (wf_lastTasks P st Hwf s) as Hdom. split.
    - intros Hnone. destruct (decide (s = start)) as [| Hns]; [done |].
      destruct (proj2 Hdom (conj Hs Hns)) as [j Hj]. congruence.
    - intros Hstart. destruct (lastTasks st !! s) as [j |] eqn:Hj; [| done].
      destruct (proj1 Hdom (ex_intro _ j eq_refl)) as [_ Hns]. done. }
  split; [exact Horigin |].
  refine ((λ H, conj (proj1 H) (conj (proj2 H) Hclaimed)) _). clear Hclaimed.
  unfold expandAxis, specCost, specSwitchPenalty, specTransition. fold s'.
  rewrite decide_False by done.
  rewrite lookup_insert_ne by done. rewrite lookup_insert_eq.
  rewrite (manhattan_spec _ _ Hlen).
  destruct (lastTasks st !! s) as [j |] eqn:Hj.
  - rewrite decide_False by done. cbn [default]. unfold id.
    destruct (decide (j = i)) as [-> | Hji]; [done |].
    assert (Hj' : (j < N)%nat).
    { destruct (proj2 (wf_parents_dom P st Hwf s)) as [p Hp].
      - split; [done |]. intros Hstart. apply Horigin in Hstart. congruence.
      - destruct (wf_move P st Hwf s p Hp) as (j' & Hj1 & Hj2 & _). congruence. }
    destruct (lookup_lt_is_Some_2 (_tasks P) j Hj') as [tj Htj].
    rewrite Htj. rewrite (indexOf_lookup _ j tj Hnd Htj). cbn [from_option].
    destruct (interpolated _ _ (QVectorND.val s j)) as [posJ poseJ].
    destruct (interpolated _ _ (QVectorND.val s i)) as [posI poseI].
    done.
  - rewrite decide_True by done. done.
Qed.

End SearchCost.

Lemma exampleSearch_worklist :
  worklist (exampleSearch 2) = (exampleKey, exampleState) :: exampleRest.
Proof. vm_compute. reflexivity. Qed.

Lemma twoTaskPlanner_NoDup : NoDup (_tasks twoTaskPlanner).
Proof. apply (bool_decide_unpack _). vm_compute. exact I. Qed.

Lemma exampleMidTurn_fresh :
  genState (taskTimes twoTaskPlanner) exampleState 1 ∉ closedSet exampleMidTurn.
Proof. apply (bool_decide_unpack _). vm_compute. exact I. Qed.

Lemma expandAxis_cost_witness :
  (lastTasks exampleMidTurn !! exampleState = None ↔ exampleState = startState twoTaskPlanner)
  ∧ worklist (exampleExpand exampleState exampleMidTurn 1)
    = worklist_insert
        (specCost (conversions := flatConversions) (math := plainMath)
           (planning := directPlanner) (pt 0 0) (mkUAVOrientation 0) twoTaskPlanner
           exampleMidTurn exampleState 1)
        (genState (taskTimes twoTaskPlanner) exampleState 1) (worklist exampleMidTurn)
  ∧ transitionFlights (exampleExpand exampleState exampleMidTurn 1)
    = match specTransition (conversions := flatConversions) (math := plainMath)
              (planning := directPlanner) (pt 0 0) (mkUAVOrientation 0) twoTaskPlanner
              exampleMidTurn exampleState 1 with
      | Some flight =>
          <[genState (taskTimes twoTaskPlanner) exampleState 1 := flight]>
            (transitionFlights exampleMidTurn)
      | None => transitionFlights exampleMidTurn
      end
  ∧ specCost (conversions := flatConversions) (math := plainMath)
      (planning := directPlanner) (pt 0 0) (mkUAVOrientation 0) twoTaskPlanner
      exampleMidTurn exampleState 1
    = claimedCost (conversions := flatConversions) (math := plainMath)
        (planning := directPlanner) (pt 0 0) (mkUAVOrientation 0) twoTaskPlanner
        exampleMidTurn exampleState 1
      + (if decide (lastTasks exampleMidTurn !! exampleState = Some 1%nat) then 0
         else EVERY_X_METERS / AIRSPEED).
Proof.
  apply (expandAxis_cost (conversions := flatConversions) (math := plainMath)
           (planning := directPlanner) (pt 0 0) (mkUAVOrientation 0) twoTaskPlanner
           (exampleSearch 2) exampleKey exampleState exampleRest 1
           twoTaskPlanner_NoDup (exampleSearch_reachable 2 (le_S _ _ (le_n 2)))
           exampleSearch_worklist (le_n 2) exampleMidTurn_fresh).
Defined.

(** C2 as stated fails.  In the example the move along axis 1 is a
    context switch whose intermediate flight has two way points: the state
    enters the work list under a key that is not the cost of the claim (the
    penalty is 2 * 30 / 14, the duration of the flight 30 / 14).  And in
    the problem that lists task 1 twice, the state [(0, 0, 15)] has last
    axis 2, and the flight memoized for its move along axis 1 starts where
    task 1 stands at time [s_0 = 0], the time of the first place of task 1
    in the list, not at time [s_2 = 15]. *)
Lemma cost_not_claimed :
  worklist (exampleExpand exampleState exampleMidTurn 1)
  ≠ worklist_insert
      (claimedCost (conversions := flatConversions) (math := plainMath)
         (planning := directPlanner) (pt 0 0) (mkUAVOrientation 0) twoTaskPlanner
         exampleMidTurn exampleState 1)
      (genState (taskTimes twoTaskPlanner) exampleState 1) (worklist exampleMidTurn)
  ∧ (∃ k, worklist (repeatedSearch 1) = (k, repeatedState) :: repeatedRest)
  ∧ repeatedState = [0; 0; Qc_of_Z 15]
  ∧ lastTasks repeatedMidTurn !! repeatedState = Some 2%nat
  ∧ transitionFlights (repeatedExpand repeatedState repeatedMidTurn 1)
      !! genState (taskTimes repeatedTaskPlanner) repeatedState 1
    ≠ specTransition (conversions := flatConversions) (math := plainMath)
        (planning := directPlanner) (pt 0 0) (mkUAVOrientation 0) repeatedTaskPlanner
        repeatedMidTurn repeatedState 1.
Proof.
  split; [| split; [| split; [| split]]].
  - apply (bool_decide_unpack _). vm_compute. exact I.
  - eexists. vm_compute. reflexivity.
  - apply (bool_decide_unpack _). vm_compute. exact I.
  - vm_compute. reflexivity.
  - apply (bool_decide_unpack _). vm_compute. exact I.
Qed.

(** In the example the move is a context switch: the penalty is the time
    of a two point transition. *)
Example exampleMidTurn_switch :
  lastTasks exampleMidTurn !! exampleState = Some 0%nat
  ∧ (length <$> specTransition (conversions := flatConversions) (math := plainMath)
       (planning := directPlanner) (pt 0 0) (mkUAVOrientation 0) twoTaskPlanner
       exampleMidTurn exampleState 1) = Some 2%nat.
Proof. split; vm_compute; reflexivity. Qed.

(** What the pair contributes in the example: the two point transition
    recorded for the goal, then the three way points of task 1. *)
Example replayInterval_example :
  replayInterval twoTaskPlanner exampleFound exampleState (endState twoTaskPlanner) []
  = Some [pt 66 0; pt 0 5; pt 0 5; pt 1 5; pt 2 5].
Proof. apply (bool_decide_unpack _). vm_compute. exact I. Qed.

(** ** The search reaches the goal; the path it publishes (C4, C6) *)

Section SearchProgress.
Context {conversions : Conversions} {math : Math} {planning : IntermediatePlanner}.
Variable Position0 : Position.
Variable UAVOrientation0 : UAVOrientation.
Variable P : planner.

Local Abbreviation expand := (expandAxis Position0 UAVOrientation0 P).
Local Abbreviation turnOf := (searchTurn Position0 UAVOrientation0 P).
Local Abbreviation reached := (reachable Position0 UAVOrientation0 P).
Local Abbreviation T := (taskTimes P).
Local Abbreviation N := (length (_tasks P)).
Local Abbreviation start := (startState P).
Local Abbreviation specSegment := (specSegment P).
Local Abbreviation specPath := (specPath P).

Lemma closedSet_expandAxis (s : QVectorND) (st : search) (i : nat) :
  closedSet st ⊆ closedSet (expand s st i)
  ∧ genState T s i ∈ closedSet (expand s st i).
Proof.
  destruct (decide (genState T s i ∈ closedSet st)) as [Hin | Hfresh].
  - by rewrite expandAxis_closed.
  - destruct (expandAxis_fresh Position0 UAVOrientation0 P s st i Hfresh) as (cost & tf & ->).
    cbn [closedSet]. split; set_solver.
Qed.

Lemma closedSet_expandAxes (s : QVectorND) (axes : list nat) :
  ∀ st, closedSet st ⊆ closedSet (foldl (expand s) st axes)
        ∧ ∀ i, i ∈ axes → genState T s i ∈ closedSet (foldl (expand s) st axes).
Proof.
  induction axes as [| a axes IH]; intros st; cbn [foldl].
  - split; [done | by intros i Hi; apply elem_of_nil in Hi].
  - destruct (IH (expand s st a)) as [Hmono Hall].
    destruct (closedSet_expandAxis s st a) as [Hmono1 Ha].
    split; [by etrans |].
    intros i Hi. apply elem_of_cons in Hi as [-> | Hi]; [by apply Hmono | by apply Hall].
Qed.

(** What a turn that generates transitions does to the search. *)
Lemma turn_next (st st' : search) :
  turnOf st = Next st' →
  ∃ k state rest,
    worklist st = (k, state) :: rest ∧ state ≠ endState P
    ∧ st' = foldl (expand state) (popped st state rest) (seq 0 (QVectorND.dimension state)).
Proof.
  unfold searchTurn. destruct (worklist st) as [| [k state] rest]; [done |].
  destruct (decide (state = endState P)); [by destruct (traceback _ _ _ _) |].
  intros [= <-]. by exists k, state, rest.
Qed.

(** Once an expanded state has been handled, all its moves are closed; the
    goal is not among the expanded states while the loop runs. *)
Lemma reachable_moves_closed (st : search) :
  reached st →
  (∀ s i, s ∈ expanded st → (i < N)%nat → genState T s i ∈ closedSet st)
  ∧ endState P ∉ expanded st.
Proof.
  induction 1 as [| st st' Hr [IHc IHg] Hstep].
  - split; [intros s i Hs; by apply elem_of_nil in Hs | by intros Hs; apply elem_of_nil in Hs].
  - destruct (reachable_wf _ _ _ st Hr) as [Hinv _].
    destruct (turn_next st st' Hstep) as (k & state & rest & Hw & Hgoal & ->).
    pose proof (wf_popped_reached P st k state rest Hinv Hw) as Hwf.
    assert (Hlast : state ∈ expanded (popped st state rest))
      by (eapply list_elem_of_lookup_2, popped_last).
    assert (Hdim : QVectorND.dimension state = N).
    { apply (wf_dimension P _ Hwf). unfold seen. apply elem_of_app. by left. }
    destruct (wf_expandAxes Position0 UAVOrientation0 P state
                (seq 0 (QVectorND.dimension state)) (popped st state rest))
      as (_ & Hexp & _); [done | done | |].
    { apply Forall_forall. intros j Hj. apply elem_of_seq in Hj. lia. }
    destruct (closedSet_expandAxes state (seq 0 (QVectorND.dimension state))
                (popped st state rest)) as [Hmono Hall].
    rewrite Hexp. cbn [popped expanded]. split.
    + intros s i Hs Hi. apply elem_of_app in Hs as [Hs | Hs].
      * apply Hmono. cbn [popped closedSet]. apply elem_of_union. right. by apply IHc.
      * apply list_elem_of_singleton in Hs as ->. apply Hall, elem_of_seq. lia.
    + intros Hin. apply elem_of_app in Hin as [Hin | Hin]; [done |].
      apply list_elem_of_singleton in Hin. done.
Qed.

Lemma genState_middle (pre post : QVectorND) (x Ti : qreal) :
  T !! length pre = Some Ti →
  genState T (pre ++ x :: post) (length pre) = pre ++ qMin Ti (x + TIMESLICE) :: post.
Proof.
  intros HT. unfold genState, QVectorND.set, QVectorND.val.
  rewrite HT, list_lookup_middle by done. cbn [default]. unfold id.
  rewrite insert_app_r_alt by lia. by rewrite Nat.sub_diag.
Qed.

Lemma ceiling_slices (Ti : qreal) :
  0 ≤ Ti → Ti ≤ int_to_qreal (Z.to_nat (Qceiling Ti)) * TIMESLICE.
Proof.
  intros H0. unfold int_to_qreal, TIMESLICE.
  pose proof (Qle_ceiling Ti) as Hc.
  assert (Hz : (0 ≤ Qceiling Ti)%Z).
  { change 0%Z with (Qceiling 0). apply Qceiling_resp_le. exact H0. }
  rewrite Z2Nat.id by done.
  revert Hc. generalize (Qceiling Ti). intros z Hc. qc_lra.
Qed.

Section Saturation.
Variable C : QVectorND → Prop.
Hypothesis C_moves : ∀ s i, C s → (i < N)%nat → C (genState T s i).

(** Moving along one axis often enough reaches that task's time. *)
Lemma axis_saturates (pre post : QVectorND) (Ti : qreal) :
  T !! length pre = Some Ti →
  ∀ (m : nat) (x : qreal),
    0 ≤ x → x ≤ Ti → Ti - x ≤ int_to_qreal m * TIMESLICE →
    C (pre ++ x :: post) → C (pre ++ Ti :: post).
Proof.
  intros HT. assert (Hi : (length pre < N)%nat).
  { rewrite <- taskTimes_length. by eapply lookup_lt_Some. }
  induction m as [| m IH]; intros x H0 HxT Hm HC.
  - assert (x = Ti) as ->; [| done].
    change (int_to_qreal 0) with (Qc_of_Z 0) in Hm. unfold TIMESLICE in Hm. qc_lra.
  - pose proof (C_moves _ _ HC Hi) as HC'. rewrite (genState_middle _ _ _ _ HT) in HC'.
    apply (IH (qMin Ti (x + TIMESLICE))); [| | | done].
    + destruct (qMin_glb Ti (x + TIMESLICE)) as (_ & _ & [-> | ->]).
      * by etrans.
      * unfold TIMESLICE. qc_lra.
    + apply qMin_glb.
    + rewrite int_to_qreal_S in Hm.
      destruct (qMin_glb Ti (x + TIMESLICE)) as (_ & _ & [-> | ->]).
      * pose proof (int_to_qreal_nonneg m) as Hn. revert Hn.
        generalize (int_to_qreal m). intros q Hn. unfold TIMESLICE. qc_lra.
      * revert Hm. generalize (int_to_qreal m). intros q Hm. unfold TIMESLICE in *. qc_lra.
Qed.

(** A set of states that holds the origin and is closed under the moves
    holds the goal. *)
Lemma moves_reach_goal : C start → C (endState P).
Proof.
  intros Hstart.
  assert (Hall : ∀ i, (i ≤ N)%nat → C (take i T ++ replicate (N - i) 0)).
  { induction i as [| i IH]; intros Hi.
    - by rewrite Nat.sub_0_r.
    - destruct (lookup_lt_is_Some_2 T i) as [Ti HTi]; [rewrite taskTimes_length; lia |].
      rewrite (take_S_r _ _ _ HTi), <- app_assoc. cbn [app].
      assert (Hlen : length (take i T) = i).
      { apply length_take_le. rewrite taskTimes_length. lia. }
      apply (axis_saturates (take i T) _ Ti ltac:(by rewrite Hlen)
               (Z.to_nat (Qceiling Ti)) 0).
      + done.
      + by eapply taskTimes_nonneg.
      + replace (Ti - 0) with Ti by ring.
        apply ceiling_slices. by eapply taskTimes_nonneg.
      + rewrite <- replicate_S. replace (S (N - S i)) with (N - i)%nat by lia.
        apply IH. lia. }
  specialize (Hall N (le_n _)). rewrite Nat.sub_diag, app_nil_r in Hall.
  rewrite take_ge in Hall by (by rewrite taskTimes_length). done.
Qed.

End Saturation.

(** The work list is never empty at the head of the loop. *)
Lemma turn_not_exhausted (st : search) : reached st → turnOf st ≠ Exhausted.
Proof.
  intros Hr Hturn. unfold searchTurn in Hturn.
  destruct (worklist st) as [| [k state] rest] eqn:Hw;
    [| destruct (decide (state = endState P)); [by destruct (traceback _ _ _ _) | done]].
  destruct (reachable_wf _ _ _ st Hr) as [[-> | Hwf] _]; [done |].
  destruct (reachable_moves_closed st Hr) as [Hmoves Hgoal].
  apply Hgoal. apply (moves_reach_goal (λ s, s ∈ expanded st)).
  - intros s i Hs Hi. pose proof (Hmoves s i Hs Hi) as Hc.
    apply (wf_closed P st Hwf) in Hc. unfold seen in Hc. rewrite Hw in Hc.
    by rewrite app_nil_r in Hc.
  - by apply wf_start_seen.
Qed.

(** Every state the search has seen derives from the origin by moves. *)
Lemma seen_induction (Φ : QVectorND → Prop) :
  Φ start →
  (∀ s i, Φ s → (i < N)%nat → Φ (genState T s i)) →
  ∀ st, wf P st → ∀ s, s ∈ seen st → Φ s.
Proof.
  intros Hstart Hmove st Hwf.
  assert (Hchild : ∀ s, s ∈ seen st → s ≠ start →
            ∃ p j i, expanded st !! j = Some p ∧ (i < N)%nat ∧ s = genState T p i
                     ∧ ∀ k, expanded st !! k = Some s → (j < k)%nat).
  { intros s Hs Hne. destruct (proj2 (wf_parents_dom P st Hwf s) (conj Hs Hne)) as [p Hp].
    destruct (wf_parents_order P st Hwf s p Hp) as (j & Hj & Hlt).
    destruct (wf_move P st Hwf s p Hp) as (i & _ & Hi & Heq). by exists p, j, i. }
  assert (Hexp : ∀ k s, expanded st !! k = Some s → Φ s).
  { induction k as [k IH] using lt_wf_ind. intros s Hk.
    destruct (decide (s = start)) as [-> | Hne]; [done |].
    destruct (Hchild s) as (p & j & i & Hj & Hi & -> & Hlt); [| done |].
    - unfold seen. apply elem_of_app. left. by eapply list_elem_of_lookup_2.
    - apply Hmove; [| done]. by apply (IH j (Hlt k Hk)). }
  intros s Hs. destruct (decide (s = start)) as [-> | Hne]; [done |].
  destruct (Hchild s Hs Hne) as (p & j & i & Hj & Hi & -> & _).
  apply Hmove; [by eapply Hexp | done].
Qed.

Lemma elem_of_grid (s : QVectorND) (Ts : list qreal) :
  Forall2 (λ x Ti, x ∈ axisValues Ti) s Ts → s ∈ grid Ts.
Proof.
  induction 1 as [| x Ti s Ts Hx Hs IH]; cbn [grid]; [left |].
  apply list_elem_of_bind. exists x. split; [| done].
  apply list_elem_of_fmap. by exists s.
Qed.

Lemma axisValues_zero (Ti : qreal) : 0 ≤ Ti → 0 ∈ axisValues Ti.
Proof.
  intros H0. unfold axisValues. apply list_elem_of_fmap. exists 0%nat. split.
  - change (int_to_qreal 0) with (Qc_of_Z 0). unfold qMin, TIMESLICE.
    destruct (decide _) as [Hlt | _]; qc_lra.
  - apply elem_of_seq. lia.
Qed.

Lemma axisValues_move (Ti x : qreal) :
  0 ≤ Ti → x ∈ axisValues Ti → qMin Ti (x + TIMESLICE) ∈ axisValues Ti.
Proof.
  intros H0 Hx. unfold axisValues in *. apply list_elem_of_fmap in Hx as (k & -> & Hk).
  apply elem_of_seq in Hk. apply list_elem_of_fmap.
  pose proof (ceiling_slices Ti H0) as Hceil.
  pose proof (int_to_qreal_nonneg k) as Hk0.
  destruct (decide (k < Z.to_nat (Qceiling Ti))%nat) as [Hlt | Hge].
  - exists (S k). split; [| apply elem_of_seq; lia].
    rewrite int_to_qreal_S. revert Hk0. generalize (int_to_qreal k). intros q Hq.
    unfold qMin, TIMESLICE. repeat destruct (decide _); qc_lra.
  - exists k. split; [| apply elem_of_seq; lia].
    assert (Hkm : k = Z.to_nat (Qceiling Ti)) by lia. rewrite <- Hkm in Hceil.
    revert Hk0 Hceil. generalize (int_to_qreal k). intros q Hq Hceil.
    unfold qMin, TIMESLICE in *. repeat destruct (decide _); qc_lra.
Qed.

Lemma seen_on_grid (st : search) (s : QVectorND) :
  wf P st → s ∈ seen st → s ∈ grid T.
Proof.
  intros Hwf Hs. apply elem_of_grid. revert st Hwf s Hs. apply seen_induction.
  - apply Forall2_same_length_lookup_2.
    + by rewrite start_length, taskTimes_length.
    + intros i x Ti Hx HTi. unfold startState, QVectorND.zeros in Hx.
      apply lookup_replicate in Hx as [-> _].
      apply axisValues_zero. by eapply taskTimes_nonneg.
  - intros s i Hs Hi.
    destruct (lookup_lt_is_Some_2 T i) as [Ti HTi]; [by rewrite taskTimes_length |].
    destruct (Forall2_lookup_r _ _ _ _ _ Hs HTi) as (x & Hx & Hgrid).
    unfold genState, QVectorND.set, QVectorND.val.
    rewrite HTi, Hx. cbn [default]. unfold id.
    pose proof (Forall2_insert _ s T (qMin Ti (x + TIMESLICE)) Ti i Hs
                  (axisValues_move Ti x (taskTimes_nonneg P i Ti HTi) Hgrid)) as Hins.
    by rewrite (list_insert_id T i Ti HTi) in Hins.
Qed.

Lemma expandAxes_expanded (s : QVectorND) (axes : list nat) :
  ∀ st, expanded (foldl (expand s) st axes) = expanded st.
Proof.
  induction axes as [| a axes IH]; intros st; cbn [foldl]; [done |].
  by rewrite IH, expandAxis_expanded.
Qed.

Lemma turn_next_expanded (st st' : search) :
  turnOf st = Next st' → length (expanded st') = S (length (expanded st)).
Proof.
  intros Hstep. destruct (turn_next st st' Hstep) as (k & state & rest & _ & _ & ->).
  rewrite expandAxes_expanded. cbn [popped expanded]. rewrite length_app. cbn. lia.
Qed.

(** No more states are expanded than the grid holds. *)
Lemma expanded_bound (st : search) :
  reached st → (length (expanded st) ≤ length (grid T))%nat.
Proof.
  intros Hr. destruct (reachable_wf _ _ _ st Hr) as [[-> | Hwf] _]; [cbn; lia |].
  apply submseteq_length, NoDup_submseteq.
  - pose proof (wf_nodup P st Hwf) as Hnd. unfold seen in Hnd.
    by apply NoDup_app in Hnd as (Hnd & _).
  - intros s Hs. apply (seen_on_grid st s Hwf). unfold seen. apply elem_of_app. by left.
Qed.

(** With fuel for every state of the grid the loop ends on the turn that
    pops the goal. *)
Lemma searchLoop_found (fuel : nat) :
  ∀ st, reached st →
    (length (grid T) < fuel + length (expanded st))%nat →
    ∃ st0 st', reached st0 ∧ turnOf st0 = Found st'
               ∧ searchLoop Position0 UAVOrientation0 P fuel st = Some st'.
Proof.
  induction fuel as [| fuel IH]; intros st Hr Hfuel.
  - pose proof (expanded_bound st Hr). lia.
  - cbn [searchLoop]. destruct (turnOf st) as [| st' | st' |] eqn:Hturn.
    + by destruct (turn_not_exhausted st Hr).
    + by exists st, st'.
    + apply IH.
      * by eapply reachable_next.
      * rewrite (turn_next_expanded st st' Hturn). lia.
    + by destruct (turn_not_stuck _ _ _ st Hr).
Qed.

Lemma traceback_linked (parents : gmap QVectorND QVectorND) (fuel : nat) :
  ∀ cur acc res,
    traceback fuel parents cur acc = Some res → linked parents cur acc →
    ∃ root sched, res = root :: sched ∧ linked parents root sched.
Proof.
  induction fuel as [| fuel IH]; intros cur acc res Hrun Hacc; [done |].
  cbn [traceback] in Hrun. destruct (parents !! cur) as [p |] eqn:Hp.
  - apply (IH p (cur :: acc) res Hrun). by split.
  - injection Hrun as <-. by exists cur, acc.
Qed.

Lemma found_linked (st st' : search) :
  reached st → turnOf st = Found st' →
  wf P st' ∧ ∃ sched, schedule st' = start :: sched ∧ linked (parents st') start sched.
Proof.
  intros Hr Hstep.
  destruct (found_schedule _ _ _ st st' Hr Hstep) as (Hwf & _ & Hhd & _).
  split; [done |].
  destruct (reachable_wf _ _ _ st Hr) as [_ Hsched].
  unfold searchTurn in Hstep.
  destruct (worklist st) as [| [k state] rest] eqn:Hw; [done |].
  destruct (decide (state = endState P)) as [Hgoal | Hgoal]; [| done].
  destruct (traceback _ _ _ _) as [res |] eqn:Hrun; [| done].
  injection Hstep as <-. cbn [schedule parents] in *.
  destruct (traceback_linked _ _ _ _ _ Hrun) as (root & sched & -> & Hlinked).
  - by rewrite Hsched.
  - injection Hhd as ->. by exists sched.
Qed.

Lemma waypointIndex_flightTime (l : list Position) (x : qreal) :
  0 ≤ x → x ≤ flightTime l → (waypointIndex x ≤ length l)%nat.
Proof.
  intros H0 Hx. unfold waypointIndex.
  assert (Hq : x * AIRSPEED / EVERY_X_METERS ≤ int_to_qreal (length l)).
  { unfold flightTime in Hx. revert Hx. generalize (int_to_qreal (length l)). intros q Hx.
    unfold EVERY_X_METERS, AIRSPEED in *. qc_lra. }
  apply Qfloor_resp_le in Hq. change (this (int_to_qreal (length l)))
    with (inject_Z (Z.of_nat (length l))) in Hq. rewrite Qfloor_Z in Hq. lia.
Qed.

Lemma replay_linked (st : search) :
  wf P st →
  ∀ sched prev path,
    prev ∈ seen st → linked (parents st) prev sched →
    replay P st prev sched path = Some (path ++ specPath st prev sched)
    ∧ Forall (λ cur, is_Some (lastTasks st !! cur)) sched.
Proof.
  intros Hwf. induction sched as [| cur sched IH]; intros prev path Hprev Hlinked.
  - cbn [replay specPath]. by rewrite app_nil_r.
  - destruct Hlinked as [Hp Hlinked].
    destruct (wf_move P st Hwf cur prev Hp) as (i & Hi & HiN & Hcur).
    assert (Hcs : cur ∈ seen st) by (by apply (wf_parents_dom P st Hwf)).
    destruct (lookup_lt_is_Some_2 T i) as [Ti HTi]; [by rewrite taskTimes_length |].
    destruct (lookup_lt_is_Some_2 prev i) as [x Hx];
      [by rewrite (wf_dimension P st Hwf prev Hprev) |].
    destruct (lookup_lt_is_Some_2 cur i) as [y Hy];
      [by rewrite (wf_dimension P st Hwf cur Hcs) |].
    destruct (wf_bounds P st Hwf prev i x Ti Hprev Hx HTi) as [Hx0 _].
    destruct (wf_bounds P st Hwf cur i y Ti Hcs Hy HTi) as [Hy0 HyT].
    assert (Hrange : (waypointIndex (QVectorND.val cur i)
                      ≤ length (subFlightOf P (_tasks P !! i)))%nat).
    { unfold QVectorND.val. rewrite Hy. cbn [default]. unfold id.
      apply waypointIndex_flightTime; [done |].
      unfold taskTimes in HTi. rewrite list_lookup_fmap in HTi.
      destruct (_tasks P !! i) as [t |]; [| done]. injection HTi as <-. done. }
    cbn [replay specPath]. unfold specSegment. rewrite Hi.
    rewrite (replayInterval_appends P st prev cur path i Hi).
    + cbn [mbind option_bind].
      destruct (IH cur (path ++ specPrefix P st prev cur i
                  ++ slice (subFlightOf P (_tasks P !! i))
                       (waypointIndex (QVectorND.val prev i))
                       (waypointIndex (QVectorND.val cur i))) Hcs Hlinked) as [-> Hall].
      split; [by rewrite <- !app_assoc | by constructor].
    + destruct (decide (prev = start)) as [| Hne]; [by left | right].
      by apply (wf_lastTasks P st Hwf).
    + unfold QVectorND.val. by rewrite Hx.
    + unfold QVectorND.val. by rewrite Hy.
    + done.
Qed.




End SearchProgress.


(** The path the example publishes: the start transition of the first
    area, task 0 in two slices, the transition, task 1. *)
Example buildSchedule_example :
  publishedPath
    (_buildSchedule (conversions := flatConversions) (math := plainMath)
       (planning := directPlanner) (pt 0 0) (mkUAVOrientation 0) twoTaskPlanner 10)
  = Some ([pt (-1) 0] ++ line 8 0 ++ [pt 66 0; pt 0 5] ++ line 3 5).
Proof. apply (bool_decide_unpack _). vm_compute. exact I. Qed.

(** ** The area endpoint selector (C7, C8) *)

Section EndpointFacts.
Context {conversions : Conversions} {math : Math} {polygons : Polygons}.
Variable geoPoly : nat → QPolygonF.

Lemma scannedAngles_range (angleDeg : nat) :
  angleDeg ∈ scannedAngles ↔ (angleDeg < 179)%nat.
Proof. unfold scannedAngles. rewrite elem_of_seq. lia. Qed.

(** What [placeArea] stores for an area: the start is the chord endpoint
    nearer, in Manhattan distance, to the running value of [avgLonLat] (the
    value so far plus this area's centre), and the orientation is
    [atan2(end.lat - start.lat, end.lon - start.lon)]. *)
Lemma placeArea_stores (fuel : nat) (sel sel' : selector) (area : nat) :
  placeArea geoPoly fuel sel area = Some sel' →
  ∃ best,
    scanChords fuel (geoPoly area) (QRectF_center (boundingRect (geoPoly area))) scannedAngles
    = Some best
    ∧ avgLonLat sel'
      = QPointF.plus (avgLonLat sel) (QRectF_center (boundingRect (geoPoly area)))
    ∧ let '(start, end_) := specStartEnd (avgLonLat sel') best in
      areaStartPositions sel' !! area = Some (positionOf start)
      ∧ areaStartOrientations sel' !! area
        = Some (mkUAVOrientation (atan2 (py end_ - py start) (px end_ - px start))).
Proof.
  unfold placeArea. intros Hplace.
  destruct (scanChords _ _ _ _) as [best |]; [| done]. cbn [mbind option_bind] in Hplace.
  exists best. split; [done |]. unfold specStartEnd.
  destruct (decide _) as [Hlt | Hge]; injection Hplace as <-; cbn [avgLonLat];
    (split; [done |]).
  - rewrite decide_True by done. cbn [areaStartPositions areaStartOrientations].
    by rewrite !lookup_insert_eq.
  - rewrite decide_False by done. cbn [areaStartPositions areaStartOrientations].
    by rewrite !lookup_insert_eq.
Qed.

End EndpointFacts.

Section ScanDirections.
Context {conversions : Conversions} {polygons : Polygons}.

(** The scan depends on [cos] and [sin] only through the directions of
    the angles it goes through. *)
Lemma scanAngle_directions (m1 m2 : Math) (fuel : nat) (poly : QPolygonF) (c : QPointF)
    (best : chord) (angleDeg : nat) :
  dirVecOf (math := m1) angleDeg = dirVecOf (math := m2) angleDeg →
  scanAngle (math := m1) fuel poly c best angleDeg
  = scanAngle (math := m2) fuel poly c best angleDeg.
Proof. intros Hdir. unfold scanAngle. by rewrite Hdir. Qed.

Lemma scanChords_directions (m1 m2 : Math) (fuel : nat) (poly : QPolygonF) (c : QPointF)
    (angles : list nat) :
  (∀ angleDeg, angleDeg ∈ angles →
     dirVecOf (math := m1) angleDeg = dirVecOf (math := m2) angleDeg) →
  scanChords (math := m1) fuel poly c angles = scanChords (math := m2) fuel poly c angles.
Proof.
  intros Hdirs. unfold scanChords.
  induction angles as [| a angles IH] using rev_ind; [done |].
  assert (Hrest : ∀ k, k ∈ angles → dirVecOf (math := m1) k = dirVecOf (math := m2) k).
  { intros k Hk. apply Hdirs. apply elem_of_app. by left. }
  specialize (IH Hrest).
  rewrite !foldl_app. cbn [foldl]. rewrite IH. clear IH.
  destruct (foldl _ _ angles) as [best |]; [| done]. cbn [mbind option_bind].
  apply scanAngle_directions, Hdirs. apply elem_of_app. right. by left.
Qed.

End ScanDirections.

Lemma Some_pair_inj {A B} (a c : A) (b d : B) :
  Some (a, b) = Some (c, d) → a = c ∧ b = d.
Proof. by intros [= -> ->]. Qed.

Lemma cmathTable_directions (angleDeg : nat) :
  (angleDeg < 180)%nat →
  cmathDirections !! angleDeg
  = Some (cos (Math := cmathTable) (angleArgument angleDeg),
          sin (Math := cmathTable) (angleArgument angleDeg)).
Proof.
  assert (Hall : forallb (λ k, bool_decide
                    (cmathDirections !! k
                     = Some (cos (Math := cmathTable) (angleArgument k),
                             sin (Math := cmathTable) (angleArgument k))))
                   (seq 0 180) = true).
  { vm_compute. reflexivity. }
  intros Hk. rewrite forallb_forall in Hall.
  eapply bool_decide_eq_true_1, Hall, in_seq. lia.
Qed.

Lemma needle_centre :
  QRectF_center (boundingRect (Polygons := vertexPolygons) needle) = QPointF.null.
Proof.
  refine (@bool_decide_unpack _ (@decide_rel _ _ (=) QPointF_eq_dec _ _) _).
  vm_compute. exact I.
Qed.

Lemma needle_scan :
  scanChords (conversions := flatConversions) (math := cmathTable)
    (polygons := vertexPolygons) 100 needle QPointF.null scannedAngles
  = Some needleShortChord.
Proof.
  refine (@bool_decide_unpack _ (@decide_rel _ _ (=) (@option_eq_dec _ chord_eq_dec) _ _) _).
  vm_compute. exact I.
Qed.

Lemma needle_scan_15 :
  scanAngle (conversions := flatConversions) (math := cmathTable)
    (polygons := vertexPolygons) 100 needle QPointF.null
    (mkChord qreal_min QPointF.null QPointF.null) 15
  = Some needleShortChord.
Proof.
  refine (@bool_decide_unpack _ (@decide_rel _ _ (=) (@option_eq_dec _ chord_eq_dec) _ _) _).
  vm_compute. exact I.
Qed.

Lemma needle_scan_179 :
  scanAngle (conversions := flatConversions) (math := cmathTable)
    (polygons := vertexPolygons) 100 needle QPointF.null needleShortChord 179
  = Some needleLongChord.
Proof.
  refine (@bool_decide_unpack _ (@decide_rel _ _ (=) (@option_eq_dec _ chord_eq_dec) _ _) _).
  vm_compute. exact I.
Qed.

Lemma needle_chords :
  mostDistance needleShortChord * Qc_of_Z 18 < mostDistance needleLongChord.
Proof.
  assert (Hlt : bool_decide (mostDistance needleShortChord * Qc_of_Z 18
                             < mostDistance needleLongChord) = true)
    by (vm_compute; reflexivity).
  by apply bool_decide_eq_true in Hlt.
Qed.

(** C7, on the code.  The angles scanned are 0 to 178: 179 is left out.
    With [cos] and [sin] taking the values they have on a real machine at
    the arguments of the scan, and for the needle, a strip along the
    direction that the code gives to 179: the scan settles on the chord of
    angle 15, although the chord of angle 179, which the scan would take if
    it went on to 179, is more than four times as long (more than eighteen
    times in the squared distance that the code compares).  The argument of
    [cos] and [sin] for one degree is [180 / 3.14159265]. *)
Theorem scan_misses_179 (math : Math) :
  (∀ angleDeg, (angleDeg < 180)%nat →
     cmathDirections !! angleDeg
     = Some (cos (angleArgument angleDeg), sin (angleArgument angleDeg))) →
  let centre := QRectF_center (boundingRect (Polygons := vertexPolygons) needle) in
  (∀ angleDeg, angleDeg ∈ scannedAngles ↔ (angleDeg < 179)%nat)
  ∧ scanChords (conversions := flatConversions) (polygons := vertexPolygons)
      100 needle centre scannedAngles
    = Some needleShortChord
  ∧ scanAngle (conversions := flatConversions) (polygons := vertexPolygons)
      100 needle centre (mkChord qreal_min QPointF.null QPointF.null) 15
    = Some needleShortChord
  ∧ scanAngle (conversions := flatConversions) (polygons := vertexPolygons)
      100 needle centre needleShortChord 179
    = Some needleLongChord
  ∧ mostDistance needleShortChord * Qc_of_Z 18 < mostDistance needleLongChord
  ∧ angleArgument 1 = Q2Qc (18000000000 # 314159265).
Proof.
  intros Htable. cbn zeta. rewrite needle_centre.
  assert (Hdirs : ∀ angleDeg, (angleDeg < 180)%nat →
            dirVecOf (math := math) angleDeg = dirVecOf (math := cmathTable) angleDeg).
  { intros k Hk.
    destruct (Some_pair_inj _ _ _ _
                (eq_trans (eq_sym (Htable k Hk)) (cmathTable_directions k Hk))) as [Hc Hs].
    unfold dirVecOf. rewrite Hc, Hs. reflexivity. }
  assert (Hscanned : ∀ angleDeg, angleDeg ∈ scannedAngles →
            dirVecOf (math := math) angleDeg = dirVecOf (math := cmathTable) angleDeg).
  { intros k Hk. apply Hdirs. apply scannedAngles_range in Hk. lia. }
  split; [apply scannedAngles_range |].
  split.
  { rewrite (scanChords_directions (conversions := flatConversions) (polygons := vertexPolygons) math cmathTable 100 needle QPointF.null scannedAngles
               Hscanned).
    exact needle_scan. }
  split.
  { rewrite (scanAngle_directions (conversions := flatConversions) (polygons := vertexPolygons) math cmathTable 100 needle QPointF.null _ 15
               (Hdirs 15%nat ltac:(lia))).
    exact needle_scan_15. }
  split.
  { rewrite (scanAngle_directions (conversions := flatConversions) (polygons := vertexPolygons) math cmathTable 100 needle QPointF.null _ 179
               (Hdirs 179%nat ltac:(lia))).
    exact needle_scan_179. }
  split; [exact needle_chords |].
  apply (bool_decide_unpack _). vm_compute. exact I.
Qed.

Lemma scan_misses_179_witness :
  let centre := QRectF_center (boundingRect (Polygons := vertexPolygons) needle) in
  (∀ angleDeg, angleDeg ∈ scannedAngles ↔ (angleDeg < 179)%nat)
  ∧ scanChords (conversions := flatConversions) (math := cmathTable)
      (polygons := vertexPolygons) 100 needle centre scannedAngles
    = Some needleShortChord
  ∧ scanAngle (conversions := flatConversions) (math := cmathTable)
      (polygons := vertexPolygons) 100 needle centre
      (mkChord qreal_min QPointF.null QPointF.null) 15
    = Some needleShortChord
  ∧ scanAngle (conversions := flatConversions) (math := cmathTable)
      (polygons := vertexPolygons) 100 needle centre needleShortChord 179
    = Some needleLongChord
  ∧ mostDistance needleShortChord * Qc_of_Z 18 < mostDistance needleLongChord
  ∧ angleArgument 1 = Q2Qc (18000000000 # 314159265).
Proof. apply (scan_misses_179 cmathTable). exact cmathTable_directions. Defined.

(** C8, on the code.  With the two rectangles, both scanned in the order
    10, 20 and with the longitude axis as first direction: the mean of the
    centres is (50, 0) and the chord of area 20 runs from (110, 0) to
    (90, 0), so that (90, 0) is the endpoint nearer to the mean (40 against
    60); the code stores (110, 0) as the start of area 20, because it
    measures the distances from (150, 0), the mean plus the centres of the
    areas gone through. *)
Theorem start_measured_from_running_sum :
  averageCentre (polygons := rectangles) twoAreas [10%nat; 20%nat] = qpt 50 0
  ∧ scanChords (conversions := flatConversions) (math := axisMath 0) (polygons := rectangles)
      100 (twoAreas 20) (QRectF_center (twoAreas 20)) scannedAngles
    = Some (mkChord (Qc_of_Z 400) (qpt 110 0) (qpt 90 0))
  ∧ specStartEnd (qpt 50 0) (mkChord (Qc_of_Z 400) (qpt 110 0) (qpt 90 0))
    = (qpt 90 0, qpt 110 0)
  ∧ QPointF.manhattanLength (QPointF.minus (qpt 90 0) (qpt 50 0)) = Qc_of_Z 40
  ∧ QPointF.manhattanLength (QPointF.minus (qpt 110 0) (qpt 50 0)) = Qc_of_Z 60
  ∧ (_buildStartAndEndPositions (conversions := flatConversions) (math := axisMath 0)
       (polygons := rectangles) twoAreas 100 [10%nat; 20%nat] twoTaskPlanner
     ≫= λ P', _areaStartPositions P' !! 20%nat)
    = Some (pt 110 0)
  ∧ (avgLonLat <$>
       foldl (λ sel area, sel ≫= λ sel,
                placeArea (conversions := flatConversions) (math := axisMath 0)
                  (polygons := rectangles) twoAreas 100 sel area)
         (Some (mkSelector (qpt 50 0) ∅ ∅)) [10%nat; 20%nat])
    = Some (qpt 150 0).
Proof.
  repeat split; apply (bool_decide_unpack _); vm_compute; exact I.
Qed.

(** ** More on the interpolator *)

Section InterpolatorSegments.
Context {conversions : Conversions} {math : Math}.

(** The loop stops at the first segment whose end time reaches the goal
    time, or at the last segment. *)
Lemma interpolateLoop_segment (pre : list Position) :
  ∀ (lastPos : Position) (rest : list Position) (d ts t : qreal)
    (a b : Position) (post : list Position),
    lastPos :: rest = pre ++ a :: b :: post →
    pre = [] ∨ (d + int_to_qreal (length pre) * EVERY_X_METERS) / AIRSPEED < t →
    t ≤ (d + int_to_qreal (S (length pre)) * EVERY_X_METERS) / AIRSPEED ∨ post = [] →
    interpolateLoop lastPos rest d ts t
    = ((d + int_to_qreal (S (length pre)) * EVERY_X_METERS) / AIRSPEED,
       Some (interpolateSegment a b
               ((d + int_to_qreal (S (length pre)) * EVERY_X_METERS) / AIRSPEED) t)).
Proof.
  induction pre as [| x pre IH]; intros lastPos rest d ts t a b post Hsplit Hlo Hhi.
  - injection Hsplit as -> ->. cbn [interpolateLoop length].
    assert (Hone : d + int_to_qreal 1 * EVERY_X_METERS = d + EVERY_X_METERS).
    { change (int_to_qreal 1) with (Qc_of_Z 1). rewrite Z2Qc_inj_1. ring. }
    rewrite Hone in *.
    assert (Hstop : bool_decide (t ≤ (d + EVERY_X_METERS) / AIRSPEED) || bool_decide (post = [])
                    = true).
    { destruct Hhi as [Hle | ->].
      - by rewrite (bool_decide_eq_true_2 _ Hle).
      - rewrite (bool_decide_eq_true_2 ([] = []) eq_refl). apply orb_true_r. }
    by rewrite Hstop.
  - injection Hsplit as -> ->.
    destruct Hlo as [? | Hlo]; [done |]. cbn [length] in *.
    assert (Hshape : ∃ y rest', pre ++ a :: b :: post = y :: rest' ∧ rest' ≠ []).
    { destruct pre as [| y pre']; [by exists a, (b :: post) |].
      exists y, (pre' ++ a :: b :: post). split; [done |]. by destruct pre'. }
    destruct Hshape as (y & rest' & Heq & Hne). rewrite Heq. cbn [interpolateLoop].
    assert (Hnot : ¬ t ≤ (d + EVERY_X_METERS) / AIRSPEED).
    { rewrite int_to_qreal_S in Hlo. pose proof (int_to_qreal_nonneg (length pre)) as Hn.
      revert Hlo Hn. generalize (int_to_qreal (length pre)). intros q Hlo Hn.
      unfold EVERY_X_METERS, AIRSPEED in *. qc_lra. }
    rewrite (bool_decide_eq_false_2 _ Hnot), (bool_decide_eq_false_2 _ Hne). cbn [orb].
    assert (Hshift : ∀ n, d + EVERY_X_METERS + int_to_qreal n * EVERY_X_METERS
                          = d + int_to_qreal (S n) * EVERY_X_METERS).
    { intros n. rewrite (int_to_qreal_S n). ring. }
    rewrite <- (Hshift (S (length pre))).
    apply (IH y rest' (d + EVERY_X_METERS) _ t a b post).
    + by rewrite Heq.
    + destruct pre as [| z pre']; [by left | right]. by rewrite Hshift.
    + destruct Hhi as [Hhi | ->]; [left | by right]. by rewrite Hshift.
Qed.

(** The final [timeSoFar] is below the goal time exactly when the goal
    time is beyond the last way point; something is always written. *)
Lemma interpolateLoop_time (rest : list Position) :
  ∀ (lastPos : Position) (d ts t : qreal),
    rest ≠ [] →
    ((interpolateLoop lastPos rest d ts t).1 < t
     ↔ (d + int_to_qreal (length rest) * EVERY_X_METERS) / AIRSPEED < t)
    ∧ is_Some (interpolateLoop lastPos rest d ts t).2.
Proof.
  induction rest as [| pos rest IH]; intros lastPos d ts t Hne; [done |].
  cbn [interpolateLoop length]. rewrite int_to_qreal_S.
  pose proof (int_to_qreal_nonneg (length rest)) as Hn.
  destruct (decide (t ≤ (d + EVERY_X_METERS) / AIRSPEED)) as [Hle | Hgt].
  - rewrite (bool_decide_eq_true_2 _ Hle). cbn [orb fst snd]. split; [| by eexists].
    revert Hn Hle. generalize (int_to_qreal (length rest)). intros q Hn Hle.
    unfold EVERY_X_METERS, AIRSPEED in *. split; intros Hlt; qc_lra.
  - rewrite (bool_decide_eq_false_2 _ Hgt). cbn [orb].
    destruct rest as [| pos' rest'].
    + rewrite (bool_decide_eq_true_2 ([] = []) eq_refl). cbn [fst snd length].
      split; [| by eexists]. change (int_to_qreal 0) with (Qc_of_Z 0).
      unfold EVERY_X_METERS, AIRSPEED in *. split; intros Hlt; qc_lra.
    + rewrite bool_decide_eq_false_2 by done.
      destruct (IH pos (d + EVERY_X_METERS) ((d + EVERY_X_METERS) / AIRSPEED) t) as [Hiff Hsome];
        [done |].
      split; [| done]. rewrite Hiff.
      replace (d + EVERY_X_METERS + int_to_qreal (length (pos' :: rest')) * EVERY_X_METERS)
        with (d + (int_to_qreal (length (pos' :: rest')) + 1) * EVERY_X_METERS) by ring.
      done.
Qed.

(** X1. For a path of at least two way points, valid outputs and a
    goal time that lies in the segment from [a] to [b] (after the end time
    of the segment before, not after its own end time, or beyond it when it
    is the last segment), the outputs are interpolated on that segment:
    with [endTime] the time of [b], [lastTime] the time of [a], the ratio
    [(t - lastTime) / (endTime - lastTime)] and the unit direction from
    [a] to [b] in metres, the position is [a] moved
    [EVERY_X_METERS * ratio] metres in that direction, and the orientation
    is the [atan2] of the direction. *)
Theorem interpolatePath_segment (pre post : list Position) (a b : Position)
    (o : UAVOrientation) (t : qreal) (p0 : Position) (o0 : UAVOrientation) :
  0 ≤ t →
  pre = [] ∨ int_to_qreal (length pre) * EVERY_X_METERS / AIRSPEED < t →
  t ≤ int_to_qreal (S (length pre)) * EVERY_X_METERS / AIRSPEED ∨ post = [] →
  let r := _interpolatePath (pre ++ a :: b :: post) o t (Some p0) (Some o0) in
  let endTime := int_to_qreal (S (length pre)) * EVERY_X_METERS / AIRSPEED in
  let lastTime := endTime - EVERY_X_METERS / AIRSPEED in
  let ratio := (t - lastTime) / (endTime - lastTime) in
  let distToGo := EVERY_X_METERS * ratio in
  let lonPerMeter := degreesLonPerMeter (latitude b) in
  let latPerMeter := degreesLatPerMeter (latitude b) in
  let dirVecMeters :=
    normalized (mkQVector2D ((longitude b - longitude a) / lonPerMeter)
                            ((latitude b - latitude a) / latPerMeter)) in
  ok r = true
  ∧ outPosition r
    = Some (mkPosition (longitude a + distToGo * v2x dirVecMeters * lonPerMeter)
                       (latitude a + distToGo * v2y dirVecMeters * latPerMeter))
  ∧ outOrientation r
    = Some (mkUAVOrientation (atan2 (v2y dirVecMeters) (v2x dirVecMeters))).
Proof.
  intros Ht Hlo Hhi. cbn zeta. unfold _interpolatePath.
  rewrite decide_False by (by apply Qcle_not_lt).
  assert (Hz : ∀ q, (0 + q * EVERY_X_METERS) / AIRSPEED = q * EVERY_X_METERS / AIRSPEED).
  { intros q. by rewrite Qcplus_0_l. }
  assert (Hshape : ∃ q0 q1 rest, pre ++ a :: b :: post = q0 :: q1 :: rest).
  { destruct pre as [| q0 [| q1 pre']]; [by exists a, b, post | by exists q0, a, (b :: post) |].
    by exists q0, q1, (pre' ++ a :: b :: post). }
  destruct Hshape as (q0 & q1 & rest & Heq). rewrite Heq.
  rewrite <- !Hz in Hlo, Hhi.
  rewrite (interpolateLoop_segment pre q0 (q1 :: rest) 0 0 t a b post (eq_sym Heq) Hlo Hhi).
  rewrite Hz. unfold interpolateSegment. done.
Qed.

(** X2. At time zero the interpolator returns the first way point,
    whatever the conversions and the normalisation are, and does not
    warn. *)
Theorem interpolatePath_at_zero (a b : Position) (post : list Position)
    (o : UAVOrientation) (p0 : Position) (o0 : UAVOrientation) :
  let r := _interpolatePath (a :: b :: post) o 0 (Some p0) (Some o0) in
  ok r = true ∧ outPosition r = Some a ∧ warned r = false.
Proof.
  intros r. subst r. unfold _interpolatePath.
  rewrite decide_False by (by apply Qcle_not_lt).
  assert (Hhi : 0 ≤ (0 + int_to_qreal (S (length (@nil Position))) * EVERY_X_METERS) / AIRSPEED).
  { by apply (bool_decide_unpack _). }
  rewrite (interpolateLoop_segment [] a (b :: post) 0 0 0 a b post eq_refl (or_introl eq_refl)
             (or_introl Hhi)).
  rewrite bool_decide_eq_false_2 by (by apply Qcle_not_lt).
  unfold interpolateSegment. cbn [ok outPosition warned]. split; [done |]. split; [| done].
  set (ratio := (0 - ((0 + int_to_qreal (S (length (@nil Position))) * EVERY_X_METERS) / AIRSPEED
                      - EVERY_X_METERS / AIRSPEED))
                / ((0 + int_to_qreal (S (length (@nil Position))) * EVERY_X_METERS) / AIRSPEED
                   - ((0 + int_to_qreal (S (length (@nil Position))) * EVERY_X_METERS) / AIRSPEED
                      - EVERY_X_METERS / AIRSPEED))).
  assert (Hratio : ratio = 0) by (by apply (bool_decide_unpack _)).
  rewrite Hratio. destruct a as [lon lat]. cbn [longitude latitude]. f_equal. f_equal; ring.
Qed.

(** X3. For a path of at least two way points, valid outputs and a
    goal time [t >= 0], the interpolator succeeds, and it logs the warning
    exactly when [t] is beyond the time of the last way point, [count - 1]
    intervals. *)
Theorem interpolatePath_warns (a b : Position) (post : list Position)
    (o : UAVOrientation) (t : qreal) (p0 : Position) (o0 : UAVOrientation) :
  0 ≤ t →
  let r := _interpolatePath (a :: b :: post) o t (Some p0) (Some o0) in
  ok r = true ∧ (warned r = true ↔ specDuration (a :: b :: post) < t).
Proof.
  intros Ht r. subst r. unfold _interpolatePath.
  rewrite decide_False by (by apply Qcle_not_lt).
  destruct (interpolateLoop_time (b :: post) a 0 0 t) as [Hiff Hsome]; [done |].
  destruct (interpolateLoop a (b :: post) 0 0 t) as [ts written]. cbn [fst snd] in *.
  assert (Hdur : specDuration (a :: b :: post)
                 = (0 + int_to_qreal (length (b :: post)) * EVERY_X_METERS) / AIRSPEED).
  { unfold specDuration, int_to_qreal. cbn [length]. rewrite Qcplus_0_l.
    do 3 f_equal. lia. }
  rewrite Hdur, <- Hiff.
  destruct written as [[pos ori] |]; [| by destruct Hsome]. cbn [ok warned].
  split; [done |]. by rewrite bool_decide_eq_true.
Qed.

End InterpolatorSegments.

(** ** More on [_getPathPortion] *)

Lemma waypointIndex_mono (t1 t2 : qreal) :
  t1 ≤ t2 → (waypointIndex t1 ≤ waypointIndex t2)%nat.
Proof.
  intros Hle. unfold waypointIndex.
  assert (Hq : t1 * AIRSPEED / EVERY_X_METERS ≤ t2 * AIRSPEED / EVERY_X_METERS).
  { unfold Qcdiv. apply Qcmult_le_compat_r; [apply Qcmult_le_compat_r; [done |] |];
      by apply (bool_decide_unpack _). }
  apply Qfloor_resp_le in Hq. lia.
Qed.


Lemma slice_app {A} (l : list A) (a b c : nat) :
  (a ≤ b)%nat → (b ≤ c)%nat → slice l a b ++ slice l b c = slice l a c.
Proof.
  intros Hab Hbc. unfold slice.
  replace (c - a)%nat with ((b - a) + (c - b))%nat by lia.
  rewrite <- take_take_drop, drop_drop.
  by replace (a + (b - a))%nat with b by lia.
Qed.

(** X5. Portions over adjacent intervals join: for
    [0 <= t1 <= t2 <= t3] with the index of [t3] within the list, the
    portion over [t1, t3] is the portion over [t1, t2] followed by the one
    over [t2, t3]. *)
Theorem getPathPortion_adjacent (path : list Position) (t1 t2 t3 : qreal) :
  0 ≤ t1 → t1 ≤ t2 → t2 ≤ t3 →
  (waypointIndex t3 ≤ length path)%nat →
  ∃ first second,
    _getPathPortion path t1 t2 = Some first
    ∧ _getPathPortion path t2 t3 = Some second
    ∧ _getPathPortion path t1 t3 = Some (first ++ second).
Proof.
  intros H1 H12 H23 Hlen.
  assert (H2 : 0 ≤ t2) by (by etrans).
  assert (H3 : 0 ≤ t3) by (by etrans).
  pose proof (waypointIndex_mono t1 t2 H12) as Hi12.
  pose proof (waypointIndex_mono t2 t3 H23) as Hi23.
  exists (slice path (waypointIndex t1) (waypointIndex t2)),
         (slice path (waypointIndex t2) (waypointIndex t3)).
  rewrite !getPathPortion_slice by (done || lia).
  by rewrite slice_app.
Qed.

(** X6. With non-negative times, [_getPathPortion] stays within the
    list exactly when the interval is empty (the index of the end time is
    not above that of the start time) or the index of the end time is at
    most the length of the list; otherwise some [path[i]] is out of
    range. *)
Theorem getPathPortion_in_range (path : list Position) (t1 t2 : qreal) :
  0 ≤ t1 → 0 ≤ t2 →
  is_Some (_getPathPortion path t1 t2)
  ↔ (waypointIndex t2 ≤ waypointIndex t1)%nat ∨ (waypointIndex t2 ≤ length path)%nat.
Proof.
  intros H1 H2. split.
  - intros Hsome. destruct (decide (waypointIndex t2 ≤ waypointIndex t1)%nat) as [| Hgt];
      [by left | right].
    unfold _getPathPortion in Hsome.
    destruct (qreal_to_int_nonneg _ (time_to_index_nonneg t1 H1)) as [E1 Hlo].
    destruct (qreal_to_int_nonneg _ (time_to_index_nonneg t2 H2)) as [E2 Hhi].
    rewrite E1, E2 in Hsome. unfold waypointIndex in *.
    revert Hlo Hhi Hgt Hsome.
    generalize (Qfloor (t1 * AIRSPEED / EVERY_X_METERS)%Qc).
    generalize (Qfloor (t2 * AIRSPEED / EVERY_X_METERS)%Qc).
    intros hi lo Hlo Hhi Hgt Hsome.
    apply mapM_is_Some in Hsome. rewrite Forall_forall in Hsome.
    specialize (Hsome (hi - 1)%Z). destruct Hsome as [x Hx].
    + apply elem_of_seqZ. lia.
    + rewrite decide_True in Hx by lia. apply lookup_lt_Some in Hx. lia.
  - intros [Hle | Hle].
    + unfold _getPathPortion.
      destruct (qreal_to_int_nonneg _ (time_to_index_nonneg t1 H1)) as [E1 Hlo].
      destruct (qreal_to_int_nonneg _ (time_to_index_nonneg t2 H2)) as [E2 Hhi].
      rewrite E1, E2. unfold waypointIndex in Hle.
      revert Hlo Hhi Hle.
      generalize (Qfloor (t1 * AIRSPEED / EVERY_X_METERS)%Qc).
      generalize (Qfloor (t2 * AIRSPEED / EVERY_X_METERS)%Qc).
      intros hi lo Hlo Hhi Hle.
      unfold seqZ. replace (Z.to_nat (hi - lo)) with 0%nat by lia. by eexists.
    + rewrite getPathPortion_slice by done. by eexists.
Qed.

(** ** The published path *)

Section PublishedPath.
Context {conversions : Conversions} {math : Math} {planning : IntermediatePlanner}.
Variable Position0 : Position.
Variable UAVOrientation0 : UAVOrientation.
Variable P : planner.

Local Abbreviation buildSchedule := (_buildSchedule Position0 UAVOrientation0).
Local Abbreviation T := (taskTimes P).
Local Abbreviation N := (length (_tasks P)).
Local Abbreviation start := (startState P).

(** With fuel for every state of the progress grid, [_buildSchedule]
    publishes the path of a chain of moves from the origin to the goal. *)
Lemma buildSchedule_path :
  ∃ st sched,
    wf P st ∧ linked (parents st) start sched
    ∧ last (start :: sched) = Some (endState P)
    ∧ buildSchedule P (S (length (grid T)))
      = Some (Published (setBestFlightSoFar P (specPath P st start sched))).
Proof.
  destruct (searchLoop_found Position0 UAVOrientation0 P (S (length (grid T)))
              (initialSearch P)) as (st0 & st' & Hr & Hturn & Hloop);
    [apply reachable_init | cbn; lia |].
  destruct (found_schedule Position0 UAVOrientation0 P st0 st' Hr Hturn) as (_ & _ & _ & Hlast).
  destruct (found_linked Position0 UAVOrientation0 P st0 st' Hr Hturn)
    as (Hwf & sched & Hsched & Hlinked).
  destruct (replay_linked P st' Hwf sched start []) as [Hrun _]; [| done |].
  { unfold seen. apply elem_of_app. left. by apply wf_start_seen. }
  exists st', sched. rewrite <- Hsched. split; [done | split; [done | split; [done |]]].
  unfold _buildSchedule. rewrite Hloop. cbn [fmap option_fmap option_map].
  unfold reconstruct. by rewrite Hsched, Hrun.
Qed.










(** X9. When no task has a way point to fly (there is no task, or every
    sub-flight is empty), the goal is the origin: the search ends on its
    first turn and the published path is empty, without any start
    transition. *)
Theorem nothing_to_fly (fuel : nat) :
  (∀ task, task ∈ _tasks P → subFlightOf P (Some task) = []) →
  buildSchedule P (S fuel) = Some (Published (setBestFlightSoFar P [])).
Proof.
  intros Hempty.
  assert (Hgoal : start = endState P).
  { unfold startState, endState, taskTimes, QVectorND.zeros.
    induction (_tasks P) as [|t ts IH]; [done |].
    cbn [length replicate fmap list_fmap]. rewrite (Hempty t) by left.
    rewrite IH by (intros task Hin; apply Hempty; by right).
    f_equal. by apply (bool_decide_unpack _). }
  unfold _buildSchedule. cbn [searchLoop]. unfold searchTurn, initialSearch.
  cbn [worklist parents schedule]. rewrite decide_True by done.
  cbn [traceback]. rewrite lookup_empty. cbn [fmap option_fmap option_map].
  unfold reconstruct. cbn [schedule replay]. done.
Qed.

End PublishedPath.

(** ** Resetting the planner *)

Section ResetProperties.
Context {polygons : Polygons}.

Local Abbreviation noFly prob := (λ p : nat * nat, taskTypeOf prob p.2 = "No-Fly Zone"%string).
Local Abbreviation schedulable prob := (λ task : nat, taskTypeOf prob task ≠ "No-Fly Zone"%string).

Lemma doReset_pairs (prob : PlanningProblem) (H : HierarchicalPlanner) (l : list nat) :
  foldl (λ H area, foldl (resetTask prob area) H (tasksOf prob area)) H l
  = foldl (resetPair prob) H (area ← l; (λ task, (area, task)) <$> tasksOf prob area).
Proof.
  revert H. induction l as [|area l IH]; intros H; [done|].
  cbn [foldl mbind list_bind]. rewrite foldl_app, <- IH. f_equal.
  generalize (tasksOf prob area). intros ts. revert H.
  induction ts as [|t ts IHt]; intros H; [done|]. cbn. apply IHt.
Qed.

(** What the two loops leave behind, read off the list of pairs. *)
Lemma resetPairs_fields (prob : PlanningProblem) (H : HierarchicalPlanner)
    (ps : list (nat * nat)) :
  let H' := foldl (resetPair prob) H ps in
  problem H' = problem H
  ∧ _tasks (tables H') = _tasks (tables H) ++ filter (schedulable prob) ps.*2
  ∧ _obstacles H' = _obstacles H ++ (geoPolyOf prob ∘ fst <$> filter (noFly prob) ps)
  ∧ _tasks2areas (tables H')
    = list_to_map (reverse (prod_swap <$> filter (λ p, ¬ noFly prob p) ps)) ∪ _tasks2areas (tables H)
  ∧ _areaStartPositions (tables H') = _areaStartPositions (tables H)
  ∧ _areaStartOrientations (tables H') = _areaStartOrientations (tables H)
  ∧ _taskSubFlights (tables H') = _taskSubFlights (tables H)
  ∧ _startTransitionSubFlights (tables H') = _startTransitionSubFlights (tables H)
  ∧ bestFlightSoFar (tables H') = bestFlightSoFar (tables H).
Proof.
  induction ps as [|[a t] ps IH] using rev_ind; cbn zeta.
  { cbn. rewrite !app_nil_r, (left_id_L ∅ (∪)). done. }
  rewrite foldl_app. cbn [foldl]. cbn zeta in IH.
  destruct IH as (E0 & E1 & E2 & E3 & E4 & E5 & E6 & E7 & E8).
  rewrite fmap_app, !filter_app. cbn [fmap list_fmap snd].
  unfold resetPair at 1 3 5 7 9 11 13 15 17, resetTask. cbn [fst snd].
  destruct (decide (taskTypeOf prob t = "No-Fly Zone"%string)) as [Ht|Ht].
  - rewrite (filter_cons_True (noFly prob)), (filter_cons_False (λ p, ¬ noFly prob p)),
      (filter_cons_False (schedulable prob)) by (cbn; tauto).
    rewrite !filter_nil.
    cbn. rewrite !app_nil_r, fmap_app, app_assoc. cbn. rewrite E2. done.
  - rewrite (filter_cons_False (noFly prob)), (filter_cons_True (λ p, ¬ noFly prob p)),
      (filter_cons_True (schedulable prob)) by (cbn; tauto).
    rewrite !filter_nil.
    cbn. rewrite !app_nil_r, !fmap_app, reverse_app, app_assoc. cbn.
    rewrite E1, E3, <- insert_union_l. done.
Qed.

Lemma areaTasks_tasks (prob : PlanningProblem) :
  (areaTasks prob).*2 = areas prob ≫= tasksOf prob.
Proof.
  unfold areaTasks. induction (areas prob) as [|a l IH]; [done|].
  cbn [mbind list_bind]. rewrite fmap_app, IH. f_equal.
  rewrite <- list_fmap_compose. apply list_fmap_id.
Qed.

Lemma elem_of_areaTasks (prob : PlanningProblem) (a t : nat) :
  (a, t) ∈ areaTasks prob ↔ a ∈ areas prob ∧ t ∈ tasksOf prob a.
Proof.
  unfold areaTasks. rewrite list_elem_of_bind. split.
  - intros (a' & Hin & Ha). apply list_elem_of_fmap in Hin as (t' & [= -> ->] & Ht). done.
  - intros [Ha Ht]. exists a. split; [|done]. apply list_elem_of_fmap. by exists t.
Qed.

(** The planner after [doReset], field by field. *)
Lemma doReset_fields (prob : PlanningProblem) (H : HierarchicalPlanner) :
  problem H = Some prob →
  let H' := doReset H in
  problem H' = Some prob
  ∧ _tasks (tables H') = filter (schedulable prob) (areas prob ≫= tasksOf prob)
  ∧ _obstacles H' = (geoPolyOf prob ∘ fst <$> filter (noFly prob) (areaTasks prob))
  ∧ _tasks2areas (tables H')
    = list_to_map (reverse (prod_swap <$> filter (λ p, ¬ noFly prob p) (areaTasks prob)))
  ∧ _areaStartPositions (tables H') = ∅
  ∧ _areaStartOrientations (tables H') = ∅
  ∧ _taskSubFlights (tables H') = ∅
  ∧ _startTransitionSubFlights (tables H') = ∅
  ∧ bestFlightSoFar (tables H') = bestFlightSoFar (tables H).
Proof.
  intros Hp. cbn zeta. unfold doReset. rewrite Hp, doReset_pairs.
  fold (areaTasks prob).
  destruct (resetPairs_fields prob
    (mkHierarchicalPlanner (Some prob) (mkPlanner [] ∅ ∅ ∅ ∅ ∅ (bestFlightSoFar (tables H))) [])
    (areaTasks prob)) as (E0 & E1 & E2 & E3 & E4 & E5 & E6 & E7 & E8).
  rewrite E0, E1, E2, E3, E4, E5, E6, E7, E8. cbn.
  rewrite (right_id_L ∅ (∪)), areaTasks_tasks. done.
Qed.

Lemma elem_of_kept_pairs (prob : PlanningProblem) (a t : nat) :
  (t, a) ∈ reverse (prod_swap <$> filter (λ p, ¬ noFly prob p) (areaTasks prob))
  ↔ a ∈ areas prob ∧ t ∈ tasksOf prob a ∧ schedulable prob t.
Proof.
  rewrite elem_of_reverse, list_elem_of_fmap. split.
  - intros ([a' t'] & [= -> ->] & Hin). apply list_elem_of_filter in Hin as [Hk Hin].
    apply elem_of_areaTasks in Hin. tauto.
  - intros (Ha & Ht & Hk). exists (a, t). split; [done|].
    apply list_elem_of_filter. split; [done|]. by apply elem_of_areaTasks.
Qed.

Lemma kept_pairs_tasks (prob : PlanningProblem) :
  (reverse (prod_swap <$> filter (λ p, ¬ noFly prob p) (areaTasks prob))).*1
  = reverse (filter (schedulable prob) (areas prob ≫= tasksOf prob)).
Proof.
  rewrite <- areaTasks_tasks, fmap_reverse, <- list_fmap_compose. f_equal.
  induction (areaTasks prob) as [|[a t] l IH]; [done|].
  cbn [fmap list_fmap snd].
  destruct (decide (taskTypeOf prob t = "No-Fly Zone"%string)) as [Hk|Hk].
  - rewrite (filter_cons_False (λ p, ¬ noFly prob p)), (filter_cons_False (schedulable prob))
      by (cbn; tauto). done.
  - rewrite (filter_cons_True (λ p, ¬ noFly prob p)), (filter_cons_True (schedulable prob))
      by (cbn; tauto). cbn. by rewrite IH.
Qed.

Lemma doReset_areas (prob : PlanningProblem) (H : HierarchicalPlanner) (task : nat) :
  problem H = Some prob →
  is_Some (_tasks2areas (tables (doReset H)) !! task) ↔ task ∈ _tasks (tables (doReset H)).
Proof.
  intros Hp. destruct (doReset_fields prob H Hp) as (_ & E1 & _ & E3 & _).
  rewrite E1, E3.
  rewrite <- not_eq_None_Some, <- not_elem_of_list_to_map, kept_pairs_tasks, elem_of_reverse.
  split; [apply dec_stable | tauto].
Qed.

(** X10. After [doReset] on a problem, the task list is the tasks of the
    problem's areas, area after area in the order of the problem, without
    those of type "No-Fly Zone". *)
Theorem doReset_tasks (prob : PlanningProblem) (H : HierarchicalPlanner) :
  problem H = Some prob →
  _tasks (tables (doReset H))
  = filter (λ task, taskTypeOf prob task ≠ "No-Fly Zone"%string) (areas prob ≫= tasksOf prob).
Proof. intros Hp. by destruct (doReset_fields prob H Hp) as (_ & E & _). Qed.

(** X11. After [doReset] a task has an area in [_tasks2areas] exactly when
    it is in the task list, and that area is one of the problem's areas that
    lists the task. *)
Theorem doReset_tasks2areas (prob : PlanningProblem) (H : HierarchicalPlanner) (task : nat) :
  problem H = Some prob →
  let P := tables (doReset H) in
  (is_Some (_tasks2areas P !! task) ↔ task ∈ _tasks P)
  ∧ (∀ area, _tasks2areas P !! task = Some area →
       area ∈ areas prob ∧ task ∈ tasksOf prob area).
Proof.
  intros Hp. cbn zeta. destruct (doReset_fields prob H Hp) as (_ & E1 & _ & E3 & _).
  rewrite E1, E3. split.
  - rewrite <- not_eq_None_Some, <- not_elem_of_list_to_map, kept_pairs_tasks, elem_of_reverse.
    split; [apply dec_stable | tauto].
  - intros area Hl. apply elem_of_list_to_map_2, elem_of_kept_pairs in Hl. tauto.
Qed.

(** X12. After [doReset] the obstacle list holds the polygon of an area once
    for each no-fly task of that area, so tasks and obstacles together are
    as many as the tasks of the problem's areas. *)
Theorem doReset_obstacles (prob : PlanningProblem) (H : HierarchicalPlanner) :
  problem H = Some prob →
  let H' := doReset H in
  _obstacles H'
  = (area ← areas prob;
     task ← tasksOf prob area;
     if decide (taskTypeOf prob task = "No-Fly Zone"%string) then [geoPolyOf prob area] else [])
  ∧ (length (_tasks (tables H')) + length (_obstacles H')
     = length (areas prob ≫= tasksOf prob))%nat.
Proof.
  intros Hp. cbn zeta. destruct (doReset_fields prob H Hp) as (_ & E1 & E2 & _).
  rewrite E1, E2. clear Hp E1 E2. split.
  - unfold areaTasks. induction (areas prob) as [|a l IH]; [done|].
    cbn [mbind list_bind]. rewrite filter_app, fmap_app, IH. f_equal.
    induction (tasksOf prob a) as [|t ts IHt]; [done|].
    cbn [fmap list_fmap mbind list_bind].
    destruct (decide (taskTypeOf prob t = "No-Fly Zone"%string)) as [Hk|Hk].
    + rewrite (filter_cons_True (noFly prob)) by done. cbn. by rewrite IHt.
    + rewrite (filter_cons_False (noFly prob)) by done. cbn. by rewrite IHt.
  - rewrite length_fmap, <- areaTasks_tasks.
    induction (areaTasks prob) as [|[a t] l IH]; [done|].
    cbn [fmap list_fmap snd].
    destruct (decide (taskTypeOf prob t = "No-Fly Zone"%string)) as [Hk|Hk].
    + rewrite (filter_cons_True (noFly prob)), (filter_cons_False (schedulable prob))
        by (cbn; tauto). cbn [length]. lia.
    + rewrite (filter_cons_False (noFly prob)), (filter_cons_True (schedulable prob))
        by (cbn; tauto). cbn [length]. lia.
Qed.

(** X13. When no task is listed twice in the problem, [doReset] leaves a
    task list without duplicates, and every schedulable task is mapped to
    the area that lists it. *)
Theorem doReset_NoDup (prob : PlanningProblem) (H : HierarchicalPlanner) :
  problem H = Some prob →
  NoDup (areas prob ≫= tasksOf prob) →
  let P := tables (doReset H) in
  NoDup (_tasks P)
  ∧ ∀ area task, area ∈ areas prob → task ∈ tasksOf prob area →
      taskTypeOf prob task ≠ "No-Fly Zone"%string →
      _tasks2areas P !! task = Some area.
Proof.
  intros Hp Hnd. cbn zeta. destruct (doReset_fields prob H Hp) as (_ & E1 & _ & E3 & _).
  rewrite E1, E3. split; [by apply NoDup_filter|].
  intros area task Ha Ht Hk. apply elem_of_list_to_map_1.
  - rewrite kept_pairs_tasks. rewrite reverse_Permutation. by apply NoDup_filter.
  - by apply elem_of_kept_pairs.
Qed.

(** X14. [doReset] drops what earlier iterations computed (start positions
    and orientations, sub-flights, start transitions), keeps the problem and
    the best flight so far, and without a problem leaves no task, no area
    and no obstacle. *)
Theorem doReset_clears (H : HierarchicalPlanner) :
  let H' := doReset H in
  problem H' = problem H
  ∧ bestFlightSoFar (tables H') = bestFlightSoFar (tables H)
  ∧ _areaStartPositions (tables H') = ∅
  ∧ _areaStartOrientations (tables H') = ∅
  ∧ _taskSubFlights (tables H') = ∅
  ∧ _startTransitionSubFlights (tables H') = ∅
  ∧ (problem H = None →
     _tasks (tables H') = [] ∧ _tasks2areas (tables H') = ∅ ∧ _obstacles H' = []).
Proof.
  cbn zeta. destruct (problem H) as [prob|] eqn:Hp.
  - destruct (doReset_fields prob H Hp) as (E0 & _ & _ & _ & E4 & E5 & E6 & E7 & E8).
    rewrite E0, E4, E5, E6, E7, E8. done.
  - unfold doReset. rewrite Hp. cbn. done.
Qed.

End ResetProperties.

Lemma exampleProblem_NoDup : NoDup (areas exampleProblem ≫= tasksOf exampleProblem).
Proof. apply (bool_decide_unpack _). vm_compute. exact I. Qed.

Lemma doReset_tasks_witness :
  _tasks (tables (doReset examplePlanner))
  = filter (λ task, taskTypeOf exampleProblem task ≠ "No-Fly Zone"%string)
      (areas exampleProblem ≫= tasksOf exampleProblem).
Proof. apply (doReset_tasks exampleProblem examplePlanner). reflexivity. Defined.

Lemma doReset_tasks2areas_witness :
  let P := tables (doReset examplePlanner) in
  (is_Some (_tasks2areas P !! 3%nat) ↔ 3%nat ∈ _tasks P)
  ∧ (∀ area, _tasks2areas P !! 3%nat = Some area →
       area ∈ areas exampleProblem ∧ 3%nat ∈ tasksOf exampleProblem area).
Proof. apply (doReset_tasks2areas exampleProblem examplePlanner 3). reflexivity. Defined.

Lemma doReset_obstacles_witness :
  let H' := doReset examplePlanner in
  _obstacles H'
  = (area ← areas exampleProblem;
     task ← tasksOf exampleProblem area;
     if decide (taskTypeOf exampleProblem task = "No-Fly Zone"%string)
     then [geoPolyOf exampleProblem area] else [])
  ∧ (length (_tasks (tables H')) + length (_obstacles H')
     = length (areas exampleProblem ≫= tasksOf exampleProblem))%nat.
Proof. apply (doReset_obstacles exampleProblem examplePlanner). reflexivity. Defined.

Lemma doReset_NoDup_witness :
  let P := tables (doReset examplePlanner) in
  NoDup (_tasks P)
  ∧ ∀ area task, area ∈ areas exampleProblem → task ∈ tasksOf exampleProblem area →
      taskTypeOf exampleProblem task ≠ "No-Fly Zone"%string →
      _tasks2areas P !! task = Some area.
Proof.
  apply (doReset_NoDup exampleProblem examplePlanner); [reflexivity|].
  exact exampleProblem_NoDup.
Defined.

(** ** Start transitions and sub-flights *)

Section IterationProperties.
Context {conversions : Conversions} {math : Math} {planning : IntermediatePlanner}
  {polygons : Polygons} {subFlights : SubFlightPlanner}.
Variable Position0 : Position.
Variable UAVOrientation0 : UAVOrientation.

Local Abbreviation startPositionOf := (startPositionOf Position0).
Local Abbreviation startOrientationOf := (startOrientationOf UAVOrientation0).
Local Abbreviation step := (startTransitionStep Position0 UAVOrientation0).
Local Abbreviation buildTransitions := (_buildStartTransitions Position0 UAVOrientation0).
Local Abbreviation buildSubFlights := (_buildSubFlights Position0 UAVOrientation0).
Local Abbreviation transitionTo := (transitionTo Position0 UAVOrientation0).

Lemma withTransitions_id (P : planner) : withTransitions P (_startTransitionSubFlights P) = P.
Proof. by destruct P. Qed.

Lemma startTransitions_none (prob : PlanningProblem) (ts : list nat) :
  foldl (step prob) None ts = None.
Proof. by induction ts. Qed.

Lemma startTransitions_fold (prob : PlanningProblem) (P : planner) (ts : list nat) :
  ∀ m, (∀ t, t ∈ ts → is_Some (_tasks2areas P !! t)) →
    ∃ m', foldl (step prob) (Some (withTransitions P m)) ts = Some (withTransitions P m')
      ∧ ∀ area,
          (∀ flight, m !! area = Some flight → m' !! area = Some flight)
          ∧ (m !! area = None →
             ((∃ t, t ∈ ts ∧ _tasks2areas P !! t = Some area) →
                m' !! area = Some (transitionTo prob P area))
             ∧ ((¬ ∃ t, t ∈ ts ∧ _tasks2areas P !! t = Some area) → m' !! area = None)).
Proof.
  induction ts as [|t ts IH]; intros m Hareas.
  { exists m. split; [done|]. intros area. split; [done|]. intros Hn. split; [|done].
    intros (t & Hin & _). by apply elem_of_nil in Hin. }
  destruct (Hareas t) as [a Ha]; [left|].
  assert (Hrest : ∀ t', t' ∈ ts → is_Some (_tasks2areas P !! t')).
  { intros t' Hin. apply Hareas. by right. }
  cbn [foldl]. unfold startTransitionStep at 2. cbn [mbind option_bind withTransitions _tasks2areas
    _startTransitionSubFlights]. rewrite Ha. cbn [mbind option_bind].
  destruct (decide (is_Some (m !! a))) as [[f Hf]|Hnone].
  - destruct (IH m Hrest) as (m' & Hfold & Hm'). exists m'. split; [done|].
    intros area. destruct (Hm' area) as [Hkeep Hnew]. split; [done|].
    intros Hn. destruct (Hnew Hn) as [Hsome Hno]. split.
    + intros (t' & Hin & Ht'). apply Hsome. apply elem_of_cons in Hin as [-> | Hin].
      * congruence.
      * by exists t'.
    + intros Hnot. apply Hno. intros (t' & Hin & Ht'). apply Hnot. exists t'. split; [by right | done].
  - apply eq_None_not_Some in Hnone.
    destruct (IH (<[a := transitionTo prob P a]> m) Hrest) as (m' & Hfold & Hm').
    exists m'. split; [exact Hfold|].
    intros area. destruct (Hm' area) as [Hkeep Hnew]. split.
    + intros flight Hf. apply Hkeep. rewrite lookup_insert_ne; [done | congruence].
    + intros Hn. destruct (decide (area = a)) as [-> | Hne].
      * split; [| intros Hnot; exfalso; apply Hnot; exists t; split; [left | done]].
        intros _. apply Hkeep. by rewrite lookup_insert_eq.
      * rewrite lookup_insert_ne in Hnew by done. destruct (Hnew Hn) as [Hsome Hno]. split.
        -- intros (t' & Hin & Ht'). apply Hsome. apply elem_of_cons in Hin as [-> | Hin].
           ++ congruence.
           ++ by exists t'.
        -- intros Hnot. apply Hno. intros (t' & Hin & Ht'). apply Hnot. exists t'.
           split; [by right | done].
Qed.

Lemma startTransitions_areas (prob : PlanningProblem) (ts : list nat) :
  ∀ P P', foldl (step prob) (Some P) ts = Some P' →
    ∀ t, t ∈ ts → is_Some (_tasks2areas P !! t).
Proof.
  induction ts as [|t ts IH]; intros P P' Hfold t' Hin; [by apply elem_of_nil in Hin|].
  cbn [foldl] in Hfold.
  destruct (step prob (Some P) t) as [P1|] eqn:Hstep; [|by rewrite startTransitions_none in Hfold].
  unfold startTransitionStep in Hstep. cbn [mbind option_bind] in Hstep.
  destruct (_tasks2areas P !! t) as [a|] eqn:Ha; [|done]. cbn [mbind option_bind] in Hstep.
  apply elem_of_cons in Hin as [-> | Hin]; [by rewrite Ha|].
  assert (Hsame : _tasks2areas P1 = _tasks2areas P).
  { destruct (decide (is_Some (_startTransitionSubFlights P !! a))); by injection Hstep as <-. }
  rewrite <- Hsame. by apply (IH P1 P').
Qed.

(** X15. When every task has an area, [_buildStartTransitions] changes the
    table of start transitions only: an entry that is already there is
    kept as it is, an area of a task without entry gets the transition from
    the problem's start to the start of the area, and no other area gets
    one. *)
Theorem buildStartTransitions_covers (prob : PlanningProblem) (P : planner) :
  (∀ task, task ∈ _tasks P → is_Some (_tasks2areas P !! task)) →
  ∃ m', buildTransitions prob P = Some (withTransitions P m')
    ∧ ∀ area,
        (∀ flight, _startTransitionSubFlights P !! area = Some flight →
           m' !! area = Some flight)
        ∧ (_startTransitionSubFlights P !! area = None →
           ((∃ task, task ∈ _tasks P ∧ _tasks2areas P !! task = Some area) →
              m' !! area
              = Some (_generateTransitionFlight (startingPosition prob)
                        (startingOrientation prob) (startPositionOf P (Some area))
                        (startOrientationOf P (Some area))))
           ∧ ((¬ ∃ task, task ∈ _tasks P ∧ _tasks2areas P !! task = Some area) →
              m' !! area = None)).
Proof.
  intros Hareas.
  pose proof (startTransitions_fold prob P (_tasks P) (_startTransitionSubFlights P) Hareas)
    as Hfold.
  rewrite withTransitions_id in Hfold. exact Hfold.
Qed.

(** X16. Running [_buildStartTransitions] again on its own result changes
    nothing. *)
Theorem buildStartTransitions_idempotent (prob : PlanningProblem) (P P' : planner) :
  buildTransitions prob P = Some P' →
  buildTransitions prob P' = Some P'.
Proof.
  intros Hrun.
  pose proof (startTransitions_areas prob (_tasks P) P P' Hrun) as Hareas.
  destruct (startTransitions_fold prob P (_tasks P) (_startTransitionSubFlights P) Hareas)
    as (m' & Hfold & Hm').
  rewrite withTransitions_id in Hfold. unfold _buildStartTransitions in Hrun.
  rewrite Hrun in Hfold. injection Hfold as ->.
  unfold _buildStartTransitions. cbn [withTransitions _tasks].
  destruct (startTransitions_fold prob P (_tasks P) m' Hareas) as (m'' & Hfold & Hm'').
  cbn [withTransitions] in *. rewrite Hfold. do 2 f_equal.
  apply map_eq. intros area. destruct (Hm'' area) as [Hkeep Hnew].
  destruct (m' !! area) as [f|] eqn:Hf; [by apply Hkeep|].
  apply Hnew; [done|]. intros (t & Hin & Ht).
  destruct (Hm' area) as [Hkeep' Hnew'].
  destruct (_startTransitionSubFlights P !! area) as [f|] eqn:Hold.
  - specialize (Hkeep' f eq_refl). congruence.
  - destruct (Hnew' eq_refl) as [Hsome _].
    rewrite Hsome in Hf; [done | by exists t].
Qed.

End IterationProperties.

(** ** One iteration *)

Section IterationRuns.
Context {conversions : Conversions} {math : Math} {planning : IntermediatePlanner}
  {polygons : Polygons} {subFlights : SubFlightPlanner}.
Variable Position0 : Position.
Variable UAVOrientation0 : UAVOrientation.

Local Abbreviation startPositionOf := (startPositionOf Position0).
Local Abbreviation startOrientationOf := (startOrientationOf UAVOrientation0).
Local Abbreviation buildTransitions := (_buildStartTransitions Position0 UAVOrientation0).
Local Abbreviation buildSubFlights := (_buildSubFlights Position0 UAVOrientation0).
Local Abbreviation buildSchedule := (_buildSchedule Position0 UAVOrientation0).
Local Abbreviation iterate := (doIteration Position0 UAVOrientation0).

Local Abbreviation subFlightFor P :=
  (λ task : nat,
     subFlightResults task (_tasks2areas P !! task)
       (startPositionOf P (_tasks2areas P !! task))
       (startOrientationOf P (_tasks2areas P !! task))).

Lemma subFlights_fold (P : planner) (ts : list nat) :
  ∀ m,
    foldl (subFlightStep Position0 UAVOrientation0)
      (mkPlanner (_tasks P) (_tasks2areas P) (_areaStartPositions P)
         (_areaStartOrientations P) m (_startTransitionSubFlights P) (bestFlightSoFar P)) ts
    = mkPlanner (_tasks P) (_tasks2areas P) (_areaStartPositions P)
        (_areaStartOrientations P) (foldl (λ m t, <[t := subFlightFor P t]> m) m ts)
        (_startTransitionSubFlights P) (bestFlightSoFar P).
Proof. induction ts as [|t ts IH]; intros m; [done|]. cbn [foldl]. by rewrite <- IH. Qed.

Lemma buildSubFlights_closed (P : planner) :
  buildSubFlights P
  = mkPlanner (_tasks P) (_tasks2areas P) (_areaStartPositions P) (_areaStartOrientations P)
      (foldl (λ m t, <[t := subFlightFor P t]> m) (_taskSubFlights P) (_tasks P))
      (_startTransitionSubFlights P) (bestFlightSoFar P).
Proof.
  unfold _buildSubFlights.
  pose proof (subFlights_fold P (_tasks P) (_taskSubFlights P)) as Hfold.
  by replace (mkPlanner _ _ _ _ (_taskSubFlights P) _ _) with P in Hfold by (by destruct P).
Qed.

Lemma subFlights_lookup (f : nat → list Position) (ts : list nat) (task : nat) :
  ∀ m : gmap nat (list Position),
    foldl (λ m t, <[t := f t]> m) m ts !! task
    = if decide (task ∈ ts) then Some (f task) else m !! task.
Proof.
  induction ts as [|t ts IH]; intros m; cbn [foldl].
  { rewrite decide_False; [done | apply not_elem_of_nil]. }
  rewrite IH. destruct (decide (task ∈ ts)) as [Hin|Hin].
  - rewrite decide_True; [done | by right].
  - destruct (decide (task = t)) as [-> | Hne].
    + rewrite decide_True by left. by rewrite lookup_insert_eq.
    + rewrite decide_False by (rewrite elem_of_cons; tauto). by rewrite lookup_insert_ne.
Qed.

(** X17. [_buildSubFlights] files, for every task of the task list, the
    result of the sub-flight planner run from the start position and pose of
    the task's area; the entries of other tasks and all other tables stay as
    they are. *)
Theorem buildSubFlights_lookup (P : planner) (task : nat) :
  let P' := buildSubFlights P in
  _taskSubFlights P' !! task
  = (if decide (task ∈ _tasks P)
     then Some (subFlightResults task (_tasks2areas P !! task)
                  (startPositionOf P (_tasks2areas P !! task))
                  (startOrientationOf P (_tasks2areas P !! task)))
     else _taskSubFlights P !! task)
  ∧ _tasks P' = _tasks P ∧ _tasks2areas P' = _tasks2areas P
  ∧ _areaStartPositions P' = _areaStartPositions P
  ∧ _areaStartOrientations P' = _areaStartOrientations P
  ∧ _startTransitionSubFlights P' = _startTransitionSubFlights P
  ∧ bestFlightSoFar P' = bestFlightSoFar P.
Proof.
  cbn zeta. rewrite buildSubFlights_closed. cbn. split; [|done].
  apply (subFlights_lookup (subFlightFor P)).
Qed.

Lemma buildStartAndEndPositions_tasks (geoPoly : nat → QPolygonF) (fuel : nat)
    (values : list nat) (P P' : planner) :
  _buildStartAndEndPositions geoPoly fuel values P = Some P' →
  _tasks P' = _tasks P ∧ _tasks2areas P' = _tasks2areas P
  ∧ _taskSubFlights P' = _taskSubFlights P
  ∧ _startTransitionSubFlights P' = _startTransitionSubFlights P
  ∧ bestFlightSoFar P' = bestFlightSoFar P.
Proof.
  unfold _buildStartAndEndPositions. intros Hrun.
  destruct (foldl _ _ values) as [sel|]; [|done]. by injection Hrun as <-.
Qed.

(** An iteration on a planner whose tasks all have an area publishes a
    path, if the walks of the endpoint selector end. *)
Lemma doIteration_runs (walkFuel : nat) (values : list nat) (H : HierarchicalPlanner)
    (prob : PlanningProblem) :
  problem H = Some prob →
  (∀ task, task ∈ _tasks (tables H) → is_Some (_tasks2areas (tables H) !! task)) →
  is_Some (_buildStartAndEndPositions (geoPolyOf prob) walkFuel values (tables H)) →
  ∃ searchFuel P' path,
    iterate walkFuel searchFuel values H = Iterated (Published (setBestFlightSoFar P' path))
    ∧ _tasks P' = _tasks (tables H) ∧ _tasks2areas P' = _tasks2areas (tables H).
Proof.
  intros Hp Hareas [P1 H1].
  destruct (buildStartAndEndPositions_tasks _ _ _ _ _ H1) as (Et & Ea & _).
  assert (Hareas1 : ∀ task, task ∈ _tasks P1 → is_Some (_tasks2areas P1 !! task)).
  { rewrite Et, Ea. exact Hareas. }
  destruct (startTransitions_fold Position0 UAVOrientation0 prob P1 (_tasks P1)
              (_startTransitionSubFlights P1) Hareas1) as (m' & H2 & _).
  rewrite withTransitions_id in H2.
  destruct (buildSchedule_path Position0 UAVOrientation0
              (buildSubFlights (withTransitions P1 m'))) as (st & sched & _ & _ & _ & H3).
  eexists _, _, _. unfold doIteration. rewrite Hp, H1.
  unfold _buildStartTransitions. rewrite H2, H3. split; [done|].
  rewrite buildSubFlights_closed. cbn. by rewrite Et, Ea.
Qed.

(** X18. After [doReset] on a problem, an iteration whose endpoint walks
    end reaches no null area and publishes a path for the schedulable tasks
    of the problem. *)
Theorem doIteration_after_reset (walkFuel : nat) (values : list nat) (H : HierarchicalPlanner)
    (prob : PlanningProblem) :
  problem H = Some prob →
  is_Some (_buildStartAndEndPositions (geoPolyOf prob) walkFuel values (tables (doReset H))) →
  ∃ searchFuel P' path,
    iterate walkFuel searchFuel values (doReset H)
    = Iterated (Published (setBestFlightSoFar P' path))
    ∧ _tasks P'
      = filter (λ task, taskTypeOf prob task ≠ "No-Fly Zone"%string)
          (areas prob ≫= tasksOf prob).
Proof.
  intros Hp Hwalk.
  destruct (doReset_fields prob H Hp) as (Hp' & E1 & _).
  destruct (doIteration_runs walkFuel values (doReset H) prob Hp') as (fuel & P' & path & Hrun & Et & _).
  - intros task Hin. by apply (doReset_areas prob H task Hp).
  - done.
  - exists fuel, P', path. split; [done |]. by rewrite Et, E1.
Qed.

End IterationRuns.

(** ** The endpoint walk and the tables of the selector *)

Section EndpointWalk.
Context {conversions : Conversions} {math : Math} {polygons : Polygons}.

Lemma firstOutside_unique (poly : QPolygonF) (trial : nat → QPointF) (k1 k2 : nat) :
  firstOutside poly trial k1 → firstOutside poly trial k2 → k1 = k2.
Proof.
  intros [Ho1 Hi1] [Ho2 Hi2].
  destruct (Nat.lt_trichotomy k1 k2) as [Hlt | [-> | Hlt]]; [| done |].
  - specialize (Hi2 k1 Hlt). congruence.
  - specialize (Hi1 k2 Hlt). congruence.
Qed.

(** One step of the walk keeps track of the first trial point outside. *)
Lemma tracked_step (poly : QPolygonF) (trial : nat → QPointF) (count : nat)
    (got : option QPointF) :
  tracked poly trial count got →
  tracked poly trial (S count)
    (if negb (containsPoint poly (trial count)) && negb (bool_decide (is_Some got))
     then Some (trial count) else got).
Proof.
  destruct got as [p |]; cbn [tracked].
  - intros (k & Hk & Hfirst & ->).
    rewrite bool_decide_eq_true_2 by done. rewrite andb_false_r.
    exists k. split; [lia | done].
  - intros Hin. rewrite bool_decide_eq_false_2 by (by intros [? ?]). rewrite andb_true_r.
    destruct (containsPoint poly (trial count)) eqn:Hc; cbn [negb].
    + intros j Hj. destruct (decide (j = count)) as [-> | Hne]; [done |]. apply Hin. lia.
    + exists count. split; [lia |]. split; [| done]. split; [done |]. exact Hin.
Qed.

Lemma walk_tracked (poly : QPolygonF) (c : QPointF) (d : QVector2D) (s : qreal)
    (p n : QPointF) (fuel : nat) :
  ∀ count pos neg,
    tracked poly (trialPointPos c d s) count pos →
    tracked poly (trialPointNeg c d s) count neg →
    walk fuel poly c d s count pos neg = Some (p, n)
    ↔ ∃ kp kn,
        (kp < count + fuel)%nat ∧ (kn < count + fuel)%nat
        ∧ firstOutside poly (trialPointPos c d s) kp
        ∧ firstOutside poly (trialPointNeg c d s) kn
        ∧ p = trialPointPos c d s kp ∧ n = trialPointNeg c d s kn.
Proof.
  induction fuel as [| fuel IH]; intros count pos neg Hpos Hneg.
  - assert (Hdone : ∀ kp kn,
        (kp < count + 0)%nat → (kn < count + 0)%nat →
        firstOutside poly (trialPointPos c d s) kp →
        firstOutside poly (trialPointNeg c d s) kn →
        ∃ p0 n0, pos = Some p0 ∧ neg = Some n0).
    { intros kp kn Hkp Hkn [Hop _] [Hon _].
      destruct pos as [p0 |]; [| rewrite Hpos in Hop by lia; done].
      destruct neg as [n0 |]; [| rewrite Hneg in Hon by lia; done].
      by exists p0, n0. }
    destruct pos as [p0 |], neg as [n0 |]; cbn [walk];
      try (split; [done | intros (kp & kn & Hkp & Hkn & Hfp & Hfn & _);
                          destruct (Hdone kp kn Hkp Hkn Hfp Hfn) as (? & ? & ? & ?); done]).
    destruct Hpos as (kp0 & Hkp0 & Hfp0 & ->), Hneg as (kn0 & Hkn0 & Hfn0 & ->).
    split.
    + intros [= <- <-]. exists kp0, kn0. split; [lia |]. split; [lia |]. done.
    + intros (kp & kn & _ & _ & Hfp & Hfn & -> & ->).
      by rewrite (firstOutside_unique _ _ _ _ Hfp Hfp0), (firstOutside_unique _ _ _ _ Hfn Hfn0).
  - pose proof (tracked_step poly _ count pos Hpos) as Hpos'.
    pose proof (tracked_step poly _ count neg Hneg) as Hneg'.
    specialize (IH (S count) _ _ Hpos' Hneg').
    replace (S count + fuel)%nat with (count + S fuel)%nat in IH by lia.
    destruct pos as [p0 |], neg as [n0 |]; cbn [walk]; try exact IH.
    destruct Hpos as (kp0 & Hkp0 & Hfp0 & ->), Hneg as (kn0 & Hkn0 & Hfn0 & ->).
    split.
    + intros [= <- <-]. exists kp0, kn0. split; [lia |]. split; [lia |]. done.
    + intros (kp & kn & _ & _ & Hfp & Hfn & -> & ->).
      by rewrite (firstOutside_unique _ _ _ _ Hfp Hfp0), (firstOutside_unique _ _ _ _ Hfn Hfn0).
Qed.

(** X19. The walk from the centre returns, in each of the two directions,
    the first trial point that is not in the polygon, and it returns them
    exactly when both are found within the fuel. *)
Theorem walk_first_exit (fuel : nat) (poly : QPolygonF) (centerLonLat : QPointF)
    (dirVec : QVector2D) (stepSize : qreal) (pos neg : QPointF) :
  walk fuel poly centerLonLat dirVec stepSize 0 None None = Some (pos, neg)
  ↔ ∃ kp kn,
      (kp < fuel)%nat ∧ (kn < fuel)%nat
      ∧ firstOutside poly (trialPointPos centerLonLat dirVec stepSize) kp
      ∧ firstOutside poly (trialPointNeg centerLonLat dirVec stepSize) kn
      ∧ pos = trialPointPos centerLonLat dirVec stepSize kp
      ∧ neg = trialPointNeg centerLonLat dirVec stepSize kn.
Proof. apply (walk_tracked _ _ _ _ _ _ fuel 0 None None); intros j Hj; lia. Qed.

End EndpointWalk.

Section EndpointTables.
Context {conversions : Conversions} {math : Math} {polygons : Polygons}.
Variable geoPoly : nat → QPolygonF.

Lemma trialPointPos_0 (c : QPointF) (d : QVector2D) (s : qreal) : trialPointPos c d s 0 = c.
Proof.
  destruct c as [x y]. unfold trialPointPos. cbn [px py].
  change (int_to_qreal 0) with (Qc_of_Z 0). rewrite Z2Qc_inj_0. f_equal; ring.
Qed.

Lemma trialPointNeg_0 (c : QPointF) (d : QVector2D) (s : qreal) : trialPointNeg c d s 0 = c.
Proof.
  destruct c as [x y]. unfold trialPointNeg. cbn [px py].
  change (int_to_qreal 0) with (Qc_of_Z 0). rewrite Z2Qc_inj_0. f_equal; ring.
Qed.

(** From a centre that is not in the polygon the walk does not move. *)
Lemma walk_centre_outside (fuel : nat) (poly : QPolygonF) (c : QPointF) (d : QVector2D)
    (s : qreal) :
  containsPoint poly c = false →
  walk (S fuel) poly c d s 0 None None = Some (c, c).
Proof.
  intros Hout.
  apply (walk_tracked poly c d s c c (S fuel) 0 None None); [intros j Hj; lia .. |].
  exists 0%nat, 0%nat. rewrite trialPointPos_0, trialPointNeg_0.
  repeat split; try lia; try done.
  - by rewrite trialPointPos_0.
  - by rewrite trialPointNeg_0.
Qed.

Lemma scanAngle_centre_outside (fuel : nat) (poly : QPolygonF) (c : QPointF) (best : chord)
    (angleDeg : nat) :
  containsPoint poly c = false → 0 ≤ mostDistance best →
  scanAngle (S fuel) poly c best angleDeg = Some best.
Proof.
  intros Hout Hbest. unfold scanAngle. rewrite walk_centre_outside by done.
  cbn [mbind option_bind].
  assert (H0 : distanceSquared (lla2xyz (positionOf c)) (lla2xyz (positionOf c)) = 0)
    by (unfold distanceSquared; ring).
  rewrite H0. rewrite decide_False; [done |]. by apply Qcle_not_lt.
Qed.

Lemma scanChords_centre_outside (fuel : nat) (poly : QPolygonF) (c : QPointF)
    (angles : list nat) :
  containsPoint poly c = false →
  scanChords (S fuel) poly c angles = Some (mkChord qreal_min QPointF.null QPointF.null).
Proof.
  intros Hout. unfold scanChords.
  induction angles as [| a angles IH] using rev_ind; [done |].
  rewrite foldl_app. cbn [foldl]. rewrite IH. cbn [mbind option_bind].
  apply scanAngle_centre_outside; [done |]. by apply (bool_decide_unpack _).
Qed.

(** X20. When the centre of the bounding rectangle of an area is not in the
    area's polygon, no chord is found: the start position stored for the
    area is longitude 0, latitude 0, and the orientation is [atan2(0, 0)]. *)
Theorem placeArea_centre_outside (fuel : nat) (sel : selector) (area : nat) :
  containsPoint (geoPoly area) (QRectF_center (boundingRect (geoPoly area))) = false →
  placeArea geoPoly (S fuel) sel area
  = Some (mkSelector
            (QPointF.plus (avgLonLat sel) (QRectF_center (boundingRect (geoPoly area))))
            (<[area := mkPosition 0 0]> (areaStartPositions sel))
            (<[area := mkUAVOrientation (atan2 0 0)]> (areaStartOrientations sel))).
Proof.
  intros Hout. unfold placeArea. rewrite scanChords_centre_outside by done.
  cbn [mbind option_bind bestPoint1 bestPoint2].
  rewrite decide_False by (intros Hlt; apply Qclt_not_le in Hlt; apply Hlt, Qcle_refl).
  cbn [positionOf QPointF.null px py latitude longitude].
  by replace (0 - 0) with 0 by ring.
Qed.

Lemma placeArea_inserts (fuel : nat) (sel sel' : selector) (area : nat) :
  placeArea geoPoly fuel sel area = Some sel' →
  ∃ start pose,
    areaStartPositions sel' = <[area := start]> (areaStartPositions sel)
    ∧ areaStartOrientations sel' = <[area := pose]> (areaStartOrientations sel).
Proof.
  unfold placeArea. intros Hplace.
  destruct (scanChords _ _ _ _) as [best |]; [| done]. cbn [mbind option_bind] in Hplace.
  destruct (decide _); injection Hplace as <-; by eexists _, _.
Qed.

Lemma placeAreas_none (fuel : nat) (values : list nat) :
  foldl (λ sel area, sel ≫= λ sel, placeArea geoPoly fuel sel area) None values = None.
Proof. by induction values. Qed.

Lemma placeAreas_tables (fuel : nat) (values : list nat) :
  ∀ sel sel',
    foldl (λ sel area, sel ≫= λ sel, placeArea geoPoly fuel sel area) (Some sel) values
    = Some sel' →
    ∀ area,
      (area ∈ values →
         is_Some (areaStartPositions sel' !! area)
         ∧ is_Some (areaStartOrientations sel' !! area))
      ∧ (area ∉ values →
         areaStartPositions sel' !! area = areaStartPositions sel !! area
         ∧ areaStartOrientations sel' !! area = areaStartOrientations sel !! area).
Proof.
  induction values as [| a values IH]; intros sel sel' Hfold area.
  { injection Hfold as <-. split; [| done]. intros Hin. by apply elem_of_nil in Hin. }
  cbn [foldl mbind option_bind] in Hfold.
  destruct (placeArea geoPoly fuel sel a) as [sel1 |] eqn:Hplace;
    [| by rewrite placeAreas_none in Hfold].
  destruct (placeArea_inserts fuel sel sel1 a Hplace) as (start & pose & Hs & Ho).
  destruct (IH sel1 sel' Hfold area) as [Hin Hout]. split.
  - intros Hel. destruct (decide (area ∈ values)) as [Hv | Hv]; [by apply Hin |].
    apply elem_of_cons in Hel as [-> | Hel]; [| done].
    destruct (Hout Hv) as [-> ->]. rewrite Hs, Ho, !lookup_insert_eq. by split.
  - intros Hel. apply not_elem_of_cons in Hel as [Hne Hv].
    destruct (Hout Hv) as [-> ->]. rewrite Hs, Ho. by rewrite !lookup_insert_ne.
Qed.

(** X21. [_buildStartAndEndPositions] gives every area it goes through a
    start position and a start orientation, leaves those of the other areas
    as they are, and touches no other table. *)
Theorem buildStartAndEndPositions_tables (fuel : nat) (values : list nat) (P P' : planner) :
  _buildStartAndEndPositions geoPoly fuel values P = Some P' →
  (∀ area,
     (area ∈ values →
        is_Some (_areaStartPositions P' !! area) ∧ is_Some (_areaStartOrientations P' !! area))
     ∧ (area ∉ values →
        _areaStartPositions P' !! area = _areaStartPositions P !! area
        ∧ _areaStartOrientations P' !! area = _areaStartOrientations P !! area))
  ∧ _tasks P' = _tasks P ∧ _tasks2areas P' = _tasks2areas P
  ∧ _taskSubFlights P' = _taskSubFlights P
  ∧ _startTransitionSubFlights P' = _startTransitionSubFlights P
  ∧ bestFlightSoFar P' = bestFlightSoFar P.
Proof.
  unfold _buildStartAndEndPositions. intros Hrun.
  destruct (foldl _ _ values) as [sel' |] eqn:Hfold; [| done].
  injection Hrun as <-. cbn. split; [| done].
  intros area. exact (placeAreas_tables fuel values _ sel' Hfold area).
Qed.

End EndpointTables.

(** ** The Dubins intermediate planner *)

Section DubinsFacts.
Import DubinsIntermediatePlanner.
Context {conversions : Conversions} {curves : DubinsCurves}.

Lemma sampleLoop_prefix (dubins : Dubins) (self : state) (lon lat : qreal) (turns : nat) :
  ∀ i results k,
    (k ≤ turns)%nat →
    (∀ j, (j < k)%nat →
       is_Some (sample dubins (int_to_qreal (i + j) * waypointInterval (uavParams self)))) →
    k = turns
    ∨ sample dubins (int_to_qreal (i + k) * waypointInterval (uavParams self)) = None →
    ∃ new,
      sampleLoop dubins self lon lat turns i results = (bool_decide (k = turns), results ++ new)
      ∧ length new = k
      ∧ ∀ j p a, (j < k)%nat →
          sample dubins (int_to_qreal (i + j) * waypointInterval (uavParams self)) = Some (p, a) →
          new !! j = Some (samplePosition self lon lat p).
Proof.
  induction turns as [| turns IH]; intros i results k Hk Hsome Hstop.
  { assert (k = 0%nat) as -> by lia. exists []. cbn. rewrite app_nil_r.
    split; [done | split; [done |]]. intros j p a Hj. lia. }
  cbn [sampleLoop]. destruct k as [| k].
  - destruct Hstop as [Hstop | Hstop]; [done |].
    rewrite Nat.add_0_r in Hstop. rewrite Hstop. exists []. rewrite app_nil_r.
    rewrite bool_decide_eq_false_2 by done.
    split; [done | split; [done |]]. intros j p a Hj. lia.
  - destruct (Hsome 0%nat) as [[p0 a0] Hp0]; [lia |].
    rewrite Nat.add_0_r in Hp0. rewrite Hp0.
    destruct (IH (S i) (results ++ [samplePosition self lon lat p0]) k) as (new & Hrun & Hlen & Hnew).
    + lia.
    + intros j Hj. replace (S i + j)%nat with (i + S j)%nat by lia. apply Hsome. lia.
    + destruct Hstop as [Hstop | Hstop]; [left; lia | right].
      by replace (S i + k)%nat with (i + S k)%nat by lia.
    + exists (samplePosition self lon lat p0 :: new). rewrite Hrun, <- app_assoc. cbn [app].
      split; [| split; [cbn; lia |]].
      * f_equal. apply bool_decide_ext. lia.
      * intros [| j] p a Hj Hp.
        -- rewrite Nat.add_0_r in Hp. rewrite Hp0 in Hp. by injection Hp as <- _.
        -- cbn. apply (Hnew j p a); [lia |].
           by replace (S i + j)%nat with (i + S j)%nat by lia.
Qed.

Lemma sampleLoop_true (dubins : Dubins) (self : state) (lon lat : qreal) (turns : nat) :
  ∀ i results,
    (sampleLoop dubins self lon lat turns i results).1 = true
    ↔ ∀ j, (j < turns)%nat →
        is_Some (sample dubins (int_to_qreal (i + j) * waypointInterval (uavParams self))).
Proof.
  induction turns as [| turns IH]; intros i results; cbn [sampleLoop].
  { split; [intros _ j Hj; lia | done]. }
  destruct (sample dubins (int_to_qreal i * waypointInterval (uavParams self)))
    as [[p a] |] eqn:Hs.
  - rewrite IH. split.
    + intros Hall [| j] Hj.
      * by rewrite Nat.add_0_r, Hs.
      * replace (i + S j)%nat with (S i + j)%nat by lia. apply Hall. lia.
    + intros Hall j Hj. replace (S i + j)%nat with (i + S j)%nat by lia. apply Hall. lia.
  - cbn. split; [done |]. intros Hall. specialize (Hall 0%nat).
    rewrite Nat.add_0_r, Hs in Hall. destruct Hall as [? ?]; [lia | done].
Qed.

(** X22. [plan()] on a valid curve: when the samples at the first [k]
    multiples of the way point interval succeed, and either [k] is the
    number of samples or the next sample fails, the results are the [k] way
    points of these samples, whatever they were before, and [plan()]
    returns true exactly in the first case. *)
Theorem plan_samples (self : state) (k : nat) :
  isValid (curveOf self) = true →
  (k ≤ Z.to_nat (numSamples self))%nat →
  (∀ j, (j < k)%nat →
     is_Some (sample (curveOf self) (int_to_qreal j * waypointInterval (uavParams self)))) →
  k = Z.to_nat (numSamples self)
  ∨ sample (curveOf self) (int_to_qreal k * waypointInterval (uavParams self)) = None →
  ∃ rs,
    plan self = (bool_decide (k = Z.to_nat (numSamples self)), setResults self rs)
    ∧ length rs = k
    ∧ ∀ j p a, (j < k)%nat →
        sample (curveOf self) (int_to_qreal j * waypointInterval (uavParams self)) = Some (p, a) →
        rs !! j
        = Some (samplePosition self (degreesLonPerMeter (avgLat self))
                  (degreesLatPerMeter (avgLat self)) p).
Proof.
  intros Hvalid Hk Hsome Hstop. unfold plan.
  change (curveOf (setResults self [])) with (curveOf self).
  change (numSamples (setResults self [])) with (numSamples self).
  change (avgLat (setResults self [])) with (avgLat self).
  rewrite Hvalid. cbn [negb _results setResults].
  destruct (sampleLoop_prefix (curveOf self) (setResults self [])
              (degreesLonPerMeter (avgLat self)) (degreesLatPerMeter (avgLat self))
              (Z.to_nat (numSamples self)) 0 [] k Hk Hsome Hstop) as (new & Hrun & Hlen & Hnew).
  rewrite Hrun. cbn [app]. exists new. split; [done | split; [done |]].
  intros j p a Hj Hp. exact (Hnew j p a Hj Hp).
Qed.

(** X23. [plan()] returns true exactly when the curve is valid and every
    one of the samples succeeds. *)
Theorem plan_true (self : state) :
  (plan self).1 = true
  ↔ isValid (curveOf self) = true
    ∧ ∀ j, (j < Z.to_nat (numSamples self))%nat →
        is_Some (sample (curveOf self) (int_to_qreal j * waypointInterval (uavParams self))).
Proof.
  unfold plan.
  change (curveOf (setResults self [])) with (curveOf self).
  change (numSamples (setResults self [])) with (numSamples self).
  change (avgLat (setResults self [])) with (avgLat self).
  destruct (isValid (curveOf self)); cbn [negb].
  - pose proof (sampleLoop_true (curveOf self) (setResults self [])
              (degreesLonPerMeter (avgLat self)) (degreesLatPerMeter (avgLat self))
              (Z.to_nat (numSamples self)) 0 (_results (setResults self []))) as Hloop.
    destruct (sampleLoop _ _ _ _ _ _ _) as [okFlag rs]. cbn [fst] in *.
    rewrite Hloop. split; [by intros Hall | by intros [_ Hall]].
  - cbn. split; [done | by intros [? _]].
Qed.

(** X24. Planning again gives what the first [plan()] gave: the results of
    an earlier call are discarded, not added to. *)
Theorem plan_again (self : state) :
  plan (plan self).2 = plan self.
Proof.
  assert (Hfresh : ∀ rs, plan (setResults self rs) = plan self) by done.
  unfold plan at 2.
  destruct (negb (isValid (curveOf (setResults self [])))); [apply Hfresh |].
  destruct (sampleLoop _ _ _ _ _ _ _) as [okFlag rs]. cbn [snd].
  change (setResults (setResults self []) rs) with (setResults self rs). apply Hfresh.
Qed.

Lemma Qfloor_bounds (x : Qc) :
  Qc_of_Z (Qfloor x) ≤ x ∧ x < Qc_of_Z (Qfloor x) + 1.
Proof.
  split.
  - unfold Qcle, Qc_of_Z. cbn [this]. apply Qfloor_le.
  - rewrite <- Z2Qc_inj_1, <- Z2Qc_inj_add. unfold Qclt, Qc_of_Z. cbn [this].
    apply Qlt_floor.
Qed.

(** For a ratio that is not negative [qRound] rounds half up, to a number
    that is not negative. *)
Lemma qRound_nonneg (d : qreal) :
  0 ≤ d →
  (0 ≤ qRound d)%Z
  ∧ Qc_of_Z (qRound d) ≤ d + Q2Qc (1 # 2)
  ∧ d + Q2Qc (1 # 2) < Qc_of_Z (qRound d) + 1.
Proof.
  intros Hd. unfold qRound. rewrite decide_True by done.
  assert (Hhalf : 0 ≤ d + Q2Qc (1 # 2)).
  { rewrite <- (Qcplus_0_r 0). apply Qcplus_le_compat; [done |]. by apply (bool_decide_unpack _). }
  destruct (qreal_to_int_nonneg _ Hhalf) as [-> Hz]. split; [done |]. apply Qfloor_bounds.
Qed.

(** X26. With a positive way point interval, every time at which [plan()]
    samples the curve lies before the end of the curve: the curve is not
    sampled at its end or beyond it. *)
Theorem sample_times_within (self : state) (j : nat) :
  0 < waypointInterval (uavParams self) →
  0 ≤ dubinsLength (curveOf self) →
  (j < Z.to_nat (numSamples self))%nat →
  int_to_qreal j * waypointInterval (uavParams self) < dubinsLength (curveOf self).
Proof.
  intros HI HL Hj.
  assert (Hne : waypointInterval (uavParams self) ≠ 0).
  { intros Heq. rewrite Heq in HI. by apply Qclt_not_le in HI. }
  assert (Hd : 0 ≤ dubinsLength (curveOf self) / waypointInterval (uavParams self)).
  { unfold Qcdiv. apply Qcmult_nonneg_nonneg; [done |]. apply Qclt_le_weak.
    by apply Qcinv_pos. }
  destruct (qRound_nonneg _ Hd) as (Hz & Hlo & _). fold (numSamples self) in Hz, Hlo.
  assert (Hstep : int_to_qreal j + 1 ≤ Qc_of_Z (numSamples self)).
  { rewrite <- int_to_qreal_S. unfold int_to_qreal.
    apply (proj1 (Z2Qc_inj_le _ _)). lia. }
  assert (Hhalf : int_to_qreal j + Q2Qc (1 # 2)
                  ≤ dubinsLength (curveOf self) / waypointInterval (uavParams self)).
  { pose proof (Qcle_trans _ _ _ Hstep Hlo) as Hle. revert Hle.
    generalize (dubinsLength (curveOf self) / waypointInterval (uavParams self)).
    generalize (int_to_qreal j). intros a b Hle. qc_lra. }
  apply (Qcmult_le_compat_r _ _ (waypointInterval (uavParams self))) in Hhalf;
    [| by apply Qclt_le_weak].
  replace (dubinsLength (curveOf self) / waypointInterval (uavParams self)
           * waypointInterval (uavParams self))
    with (dubinsLength (curveOf self)) in Hhalf by (by field).
  apply Qclt_le_trans with ((int_to_qreal j + Q2Qc (1 # 2)) * waypointInterval (uavParams self));
    [| done].
  apply Qcmult_lt_compat_r; [done |].
  rewrite <- (Qcplus_0_r (int_to_qreal j)) at 1.
  apply Qcplus_lt_mono_l. by apply (bool_decide_unpack _).
Qed.

End DubinsFacts.

(** ** The theorems above at concrete inputs *)

Lemma three_in_second_segment :
  int_to_qreal (length [pt 0 0]) * EVERY_X_METERS / AIRSPEED < Qc_of_Z 3
  ∧ Qc_of_Z 3 ≤ int_to_qreal (S (length [pt 0 0])) * EVERY_X_METERS / AIRSPEED.
Proof. split; by apply (bool_decide_unpack _). Qed.

Lemma interpolatePath_segment_witness :
  let r := _interpolatePath (conversions := flatConversions) (math := plainMath)
             ([pt 0 0] ++ pt 1 0 :: pt 2 0 :: []) (mkUAVOrientation 0) (Qc_of_Z 3)
             (Some (pt 9 9)) (Some (mkUAVOrientation 1)) in
  let endTime := int_to_qreal (S (length [pt 0 0])) * EVERY_X_METERS / AIRSPEED in
  let lastTime := endTime - EVERY_X_METERS / AIRSPEED in
  let ratio := (Qc_of_Z 3 - lastTime) / (endTime - lastTime) in
  let distToGo := EVERY_X_METERS * ratio in
  let lonPerMeter := degreesLonPerMeter (Conversions := flatConversions) (latitude (pt 2 0)) in
  let latPerMeter := degreesLatPerMeter (Conversions := flatConversions) (latitude (pt 2 0)) in
  let dirVecMeters :=
    normalized (Math := plainMath)
      (mkQVector2D ((longitude (pt 2 0) - longitude (pt 1 0)) / lonPerMeter)
                   ((latitude (pt 2 0) - latitude (pt 1 0)) / latPerMeter)) in
  ok r = true
  ∧ outPosition r
    = Some (mkPosition (longitude (pt 1 0) + distToGo * v2x dirVecMeters * lonPerMeter)
                       (latitude (pt 1 0) + distToGo * v2y dirVecMeters * latPerMeter))
  ∧ outOrientation r
    = Some (mkUAVOrientation (atan2 (Math := plainMath) (v2y dirVecMeters) (v2x dirVecMeters))).
Proof.
  apply (interpolatePath_segment (conversions := flatConversions) (math := plainMath)
           [pt 0 0] [] (pt 1 0) (pt 2 0) (mkUAVOrientation 0) (Qc_of_Z 3) (pt 9 9)
           (mkUAVOrientation 1)).
  - apply Qc_of_Z_nonneg. lia.
  - right. exact (proj1 three_in_second_segment).
  - left. exact (proj2 three_in_second_segment).
Defined.

Lemma interpolatePath_warns_witness :
  let r := _interpolatePath (conversions := flatConversions) (math := plainMath)
             [pt 0 0; pt 1 0] (mkUAVOrientation 0) (Qc_of_Z 100)
             (Some (pt 9 9)) (Some (mkUAVOrientation 1)) in
  ok r = true ∧ (warned r = true ↔ specDuration [pt 0 0; pt 1 0] < Qc_of_Z 100).
Proof.
  apply (interpolatePath_warns (conversions := flatConversions) (math := plainMath)
           (pt 0 0) (pt 1 0) [] (mkUAVOrientation 0) (Qc_of_Z 100) (pt 9 9)
           (mkUAVOrientation 1)).
  apply Qc_of_Z_nonneg. lia.
Defined.

Lemma ten_seconds_in_line : (waypointIndex (Qc_of_Z 10) ≤ length (line 8 0))%nat.
Proof. by apply (bool_decide_unpack _). Qed.

Lemma getPathPortion_adjacent_witness :
  ∃ first second,
    _getPathPortion (line 8 0) (Qc_of_Z 0) (Qc_of_Z 5) = Some first
    ∧ _getPathPortion (line 8 0) (Qc_of_Z 5) (Qc_of_Z 10) = Some second
    ∧ _getPathPortion (line 8 0) (Qc_of_Z 0) (Qc_of_Z 10) = Some (first ++ second).
Proof.
  apply (getPathPortion_adjacent (line 8 0) (Qc_of_Z 0) (Qc_of_Z 5) (Qc_of_Z 10)).
  - apply Qc_of_Z_nonneg. lia.
  - apply (proj1 (Z2Qc_inj_le _ _)). lia.
  - apply (proj1 (Z2Qc_inj_le _ _)). lia.
  - exact ten_seconds_in_line.
Defined.

Lemma getPathPortion_in_range_witness :
  is_Some (_getPathPortion (line 8 0) (Qc_of_Z 0) (Qc_of_Z 10))
  ↔ (waypointIndex (Qc_of_Z 10) ≤ waypointIndex (Qc_of_Z 0))%nat
    ∨ (waypointIndex (Qc_of_Z 10) ≤ length (line 8 0))%nat.
Proof.
  apply (getPathPortion_in_range (line 8 0) (Qc_of_Z 0) (Qc_of_Z 10));
    apply Qc_of_Z_nonneg; lia.
Defined.


Lemma nothing_to_fly_witness :
  _buildSchedule (conversions := flatConversions) (math := plainMath) (planning := directPlanner)
    (pt 0 0) (mkUAVOrientation 0) noTaskPlanner 1
  = Some (Published (setBestFlightSoFar noTaskPlanner [])).
Proof.
  apply (nothing_to_fly (conversions := flatConversions) (math := plainMath)
           (planning := directPlanner) (pt 0 0) (mkUAVOrientation 0) noTaskPlanner 0).
  intros task Hin. cbn in Hin. by apply elem_of_nil in Hin.
Defined.

Lemma bareTwoTaskPlanner_areas (task : nat) :
  task ∈ _tasks bareTwoTaskPlanner → is_Some (_tasks2areas bareTwoTaskPlanner !! task).
Proof.
  intros Hin. cbn in Hin. apply elem_of_cons in Hin as [-> | Hin]; [by eexists |].
  apply elem_of_cons in Hin as [-> | Hin]; [by eexists |]. by apply elem_of_nil in Hin.
Qed.

Lemma buildStartTransitions_covers_witness :
  ∃ m',
    _buildStartTransitions (planning := directPlanner) (pt 0 0) (mkUAVOrientation 0)
      exampleProblem bareTwoTaskPlanner
    = Some (withTransitions bareTwoTaskPlanner m')
    ∧ ∀ area,
        (∀ flight, _startTransitionSubFlights bareTwoTaskPlanner !! area = Some flight →
           m' !! area = Some flight)
        ∧ (_startTransitionSubFlights bareTwoTaskPlanner !! area = None →
           ((∃ task, task ∈ _tasks bareTwoTaskPlanner
                     ∧ _tasks2areas bareTwoTaskPlanner !! task = Some area) →
              m' !! area
              = Some (_generateTransitionFlight (planning := directPlanner)
                        (startingPosition exampleProblem)
                        (startingOrientation exampleProblem)
                        (startPositionOf (pt 0 0) bareTwoTaskPlanner (Some area))
                        (startOrientationOf (mkUAVOrientation 0) bareTwoTaskPlanner
                           (Some area))))
           ∧ ((¬ ∃ task, task ∈ _tasks bareTwoTaskPlanner
                         ∧ _tasks2areas bareTwoTaskPlanner !! task = Some area) →
              m' !! area = None)).
Proof.
  apply (buildStartTransitions_covers (planning := directPlanner) (pt 0 0)
           (mkUAVOrientation 0) exampleProblem bareTwoTaskPlanner).
  exact bareTwoTaskPlanner_areas.
Defined.

Lemma bareTwoTaskPlanner_transitions :
  _buildStartTransitions (planning := directPlanner) (polygons := rectangles) (pt 0 0)
    (mkUAVOrientation 0) exampleProblem bareTwoTaskPlanner
  = Some transitionedPlanner.
Proof. reflexivity. Qed.

Lemma buildStartTransitions_idempotent_witness :
  _buildStartTransitions (planning := directPlanner) (polygons := rectangles) (pt 0 0)
    (mkUAVOrientation 0) exampleProblem transitionedPlanner
  = Some transitionedPlanner.
Proof.
  apply (buildStartTransitions_idempotent (planning := directPlanner) (pt 0 0)
           (mkUAVOrientation 0) exampleProblem bareTwoTaskPlanner transitionedPlanner).
  exact bareTwoTaskPlanner_transitions.
Defined.

Lemma examplePlanner_walks :
  is_Some (_buildStartAndEndPositions (conversions := flatConversions) (math := axisMath 0)
             (polygons := rectangles) (geoPolyOf exampleProblem) 100 [10%nat; 20%nat]
             (tables (doReset examplePlanner))).
Proof. apply (bool_decide_unpack _). vm_compute. exact I. Qed.

Lemma doIteration_after_reset_witness :
  ∃ searchFuel P' path,
    doIteration (conversions := flatConversions) (math := axisMath 0)
      (planning := directPlanner) (polygons := rectangles) (subFlights := startSubFlights)
      (pt 0 0) (mkUAVOrientation 0) 100 searchFuel [10%nat; 20%nat] (doReset examplePlanner)
    = Iterated (Published (setBestFlightSoFar P' path))
    ∧ _tasks P'
      = filter (λ task, taskTypeOf exampleProblem task ≠ "No-Fly Zone"%string)
          (areas exampleProblem ≫= tasksOf exampleProblem).
Proof.
  apply (doIteration_after_reset (conversions := flatConversions) (math := axisMath 0)
           (planning := directPlanner) (polygons := rectangles) (subFlights := startSubFlights)
           (pt 0 0) (mkUAVOrientation 0) 100 [10%nat; 20%nat] examplePlanner exampleProblem).
  - reflexivity.
  - exact examplePlanner_walks.
Defined.

Lemma pointArea_centre_outside :
  containsPoint (Polygons := rectangles) (pointArea 1)
    (QRectF_center (boundingRect (Polygons := rectangles) (pointArea 1))) = false.
Proof. vm_compute. reflexivity. Qed.

Lemma placeArea_centre_outside_witness :
  placeArea (conversions := flatConversions) (math := plainMath) (polygons := rectangles)
    pointArea 1 (mkSelector (qpt 0 0) ∅ ∅) 1
  = Some (mkSelector
            (QPointF.plus (qpt 0 0)
               (QRectF_center (boundingRect (Polygons := rectangles) (pointArea 1))))
            (<[1%nat := mkPosition 0 0]> ∅)
            (<[1%nat := mkUAVOrientation (atan2 (Math := plainMath) 0 0)]> ∅)).
Proof.
  apply (placeArea_centre_outside (conversions := flatConversions) (math := plainMath)
           (polygons := rectangles) pointArea 0 (mkSelector (qpt 0 0) ∅ ∅) 1).
  exact pointArea_centre_outside.
Defined.

Lemma twoTaskPlanner_placed :
  _buildStartAndEndPositions (conversions := flatConversions) (math := axisMath 0)
    (polygons := rectangles) twoAreas 100 [10%nat; 20%nat] twoTaskPlanner
  = Some placedPlanner.
Proof. vm_compute. reflexivity. Qed.

Lemma buildStartAndEndPositions_tables_witness :
  (∀ area,
     (area ∈ [10%nat; 20%nat] →
        is_Some (_areaStartPositions placedPlanner !! area)
        ∧ is_Some (_areaStartOrientations placedPlanner !! area))
     ∧ (area ∉ [10%nat; 20%nat] →
        _areaStartPositions placedPlanner !! area = _areaStartPositions twoTaskPlanner !! area
        ∧ _areaStartOrientations placedPlanner !! area
          = _areaStartOrientations twoTaskPlanner !! area))
  ∧ _tasks placedPlanner = _tasks twoTaskPlanner
  ∧ _tasks2areas placedPlanner = _tasks2areas twoTaskPlanner
  ∧ _taskSubFlights placedPlanner = _taskSubFlights twoTaskPlanner
  ∧ _startTransitionSubFlights placedPlanner = _startTransitionSubFlights twoTaskPlanner
  ∧ bestFlightSoFar placedPlanner = bestFlightSoFar twoTaskPlanner.
Proof.
  apply (buildStartAndEndPositions_tables (conversions := flatConversions)
           (math := axisMath 0) (polygons := rectangles) twoAreas 100 [10%nat; 20%nat]
           twoTaskPlanner placedPlanner).
  exact twoTaskPlanner_placed.
Defined.

Lemma exampleDubins_valid :
  isValid (DubinsIntermediatePlanner.curveOf (conversions := flatConversions)
             (curves := straightCurves) exampleDubins) = true.
Proof. vm_compute. reflexivity. Qed.

Lemma exampleDubins_count :
  (3 ≤ Z.to_nat (DubinsIntermediatePlanner.numSamples (conversions := flatConversions)
                   (curves := straightCurves) exampleDubins))%nat
  ∧ 3%nat = Z.to_nat (DubinsIntermediatePlanner.numSamples (conversions := flatConversions)
                        (curves := straightCurves) exampleDubins).
Proof. vm_compute. split; [done | reflexivity]. Qed.

Lemma exampleDubins_samples (j : nat) :
  (j < 3)%nat →
  is_Some (sample (DubinsIntermediatePlanner.curveOf (conversions := flatConversions)
                     (curves := straightCurves) exampleDubins)
             (int_to_qreal j
              * waypointInterval (DubinsIntermediatePlanner.uavParams exampleDubins))).
Proof.
  intros Hj. destruct j as [| [| [| j]]]; [| | | lia];
    apply (bool_decide_unpack _); vm_compute; exact I.
Qed.

Lemma plan_samples_witness :
  ∃ rs,
    DubinsIntermediatePlanner.plan (conversions := flatConversions) (curves := straightCurves)
      exampleDubins
    = (bool_decide (3%nat = Z.to_nat (DubinsIntermediatePlanner.numSamples
                                       (conversions := flatConversions)
                                       (curves := straightCurves) exampleDubins)),
       DubinsIntermediatePlanner.setResults exampleDubins rs)
    ∧ length rs = 3%nat
    ∧ ∀ j p a, (j < 3)%nat →
        sample (DubinsIntermediatePlanner.curveOf (conversions := flatConversions)
                  (curves := straightCurves) exampleDubins)
          (int_to_qreal j * waypointInterval (DubinsIntermediatePlanner.uavParams exampleDubins))
        = Some (p, a) →
        rs !! j
        = Some (DubinsIntermediatePlanner.samplePosition exampleDubins
                  (degreesLonPerMeter (Conversions := flatConversions)
                     (DubinsIntermediatePlanner.avgLat exampleDubins))
                  (degreesLatPerMeter (Conversions := flatConversions)
                     (DubinsIntermediatePlanner.avgLat exampleDubins)) p).
Proof.
  apply (plan_samples (conversions := flatConversions) (curves := straightCurves)
           exampleDubins 3).
  - exact exampleDubins_valid.
  - exact (proj1 exampleDubins_count).
  - exact exampleDubins_samples.
  - left. exact (proj2 exampleDubins_count).
Defined.

Lemma exampleDubins_planned :
  0 < waypointInterval (DubinsIntermediatePlanner.uavParams exampleDubins)
  ∧ 0 ≤ dubinsLength (DubinsIntermediatePlanner.curveOf (conversions := flatConversions)
                        (curves := straightCurves) exampleDubins)
  ∧ (2 < Z.to_nat (DubinsIntermediatePlanner.numSamples (conversions := flatConversions)
                     (curves := straightCurves) exampleDubins))%nat.
Proof.
  split; [by apply (bool_decide_unpack _) |].
  split; [by apply (bool_decide_unpack _) |].
  vm_compute. lia.
Qed.

Lemma sample_times_within_witness :
  int_to_qreal 2 * waypointInterval (DubinsIntermediatePlanner.uavParams exampleDubins)
  < dubinsLength (DubinsIntermediatePlanner.curveOf (conversions := flatConversions)
                    (curves := straightCurves) exampleDubins).
Proof.
  apply (sample_times_within (conversions := flatConversions) (curves := straightCurves)
           exampleDubins 2).
  - exact (proj1 exampleDubins_planned).
  - exact (proj1 (proj2 exampleDubins_planned)).
  - exact (proj2 (proj2 exampleDubins_planned)).
Defined.
